(** * OS resource scheduling simulator: the simulation engine

    A shallow embedding of the engine of the simulator: the two disk-arm
    schedulers of [client/src/lib/algorithms/disk.ts], the page-replacement
    simulators of [lib/algorithms/memory.ts] and the input validators of
    [client/src/lib/validators.ts]; then what the two visualizations compute
    from a result (counters, ranks and marks) and the state of the disk tab;
    followed by the properties the specification states about them and
    further properties of the same code.

    JavaScript numbers that the engine only ever uses as integers (cylinders,
    page numbers, frame indices, counters) are [Z]; arrays are lists, read
    with [!!] and written with [<[ i := v ]>]. *)

From Stdlib Require Import ZArith QArith Qabs Lia Ascii.
From stdpp Require Import base numbers list sorting strings pretty.

Local Open Scope Z_scope.

(* ===================================================================== *)
(** * Part I: the program *)
(* ===================================================================== *)

(* --------------------------------------------------------------------- *)
(** ** Arrays *)
(* --------------------------------------------------------------------- *)

(** [a.indexOf(x)]: the first index holding [x], or -1. *)
Definition indexOf {A} `{EqDecision A} (a : list A) (x : A) : Z :=
  match list_find (λ y, y = x) a with
  | Some (i, _) => Z.of_nat i
  | None => -1
  end.

(** [a.includes(x)]. *)
Definition includes {A} `{EqDecision A} (a : list A) (x : A) : bool :=
  bool_decide (x ∈ a).

(** [a[i]] for an integer [i]; [None] is [undefined]. *)
Definition arrayGet {A} (a : list A) (i : Z) : option A :=
  if decide (0 ≤ i) then a !! Z.to_nat i else None.

(** [a[i] = v] for an integer [i]. A negative [i] names a property of the
    array object and leaves its elements alone. The engine never writes at
    or beyond the length (every index it writes is a result of [indexOf] on
    an array of the same length, or the clock hand, which is reduced modulo
    the length), so the growth of the array that JavaScript would perform
    there is not modelled. *)
Definition arraySet {A} (a : list A) (i : Z) (v : A) : list A :=
  if decide (0 ≤ i) then <[Z.to_nat i := v]> a else a.

(* --------------------------------------------------------------------- *)
(** ** memory.ts *)
(* --------------------------------------------------------------------- *)

(** [interface MemoryStep]; an optional field that is absent is [None].
    An entry of [orderOfUse] is a frame index, or [None] for [undefined]
    (which [orderOfUse[0]] yields on an empty list). *)
Record MemoryStep := mkMemoryStep {
  reference : Z;
  frames : list Z;
  framesAfter : list Z;
  isFault : bool;
  refBits : option (list Z);
  refBitsAfter : option (list Z);
  replacedFrame : option Z;
  resetBits : option bool;
  pointerPosition : option Z;
  pointerPositionAfter : option Z;
  orderOfUse : option (list (option Z))
}.

Record MemoryResult := mkMemoryResult {
  steps : list MemoryStep;
  faults : Z;
  hits : Z
}.

(** [new Array(frameCount).fill(v)]. *)
Definition newArray {A} (frameCount : Z) (v : A) : list A :=
  replicate (Z.to_nat frameCount) v.

Definition emptyResult : MemoryResult :=
  {| steps := []; faults := 0; hits := 0 |}.

(** *** LRU *)

(** The variables that live across iterations of the loop of
    [simulateLRU]. *)
Record LRUState := mkLRUState {
  lruFrames : list Z;
  lruOrderOfUse : list (option Z);
  lruResult : MemoryResult
}.

Definition lruStepRecord (page : Z) (before after : list Z)
    (fault : bool) (replaced : option Z) (order : list (option Z)) :
    MemoryStep :=
  {| reference := page; frames := before; framesAfter := after;
     isFault := fault; refBits := None; refBitsAfter := None;
     replacedFrame := replaced; resetBits := None;
     pointerPosition := None; pointerPositionAfter := None;
     orderOfUse := Some order |}.

(** The body of the loop of [simulateLRU], for the reference [page]. *)
Definition stepLRU (page : Z) (st : LRUState) : LRUState :=
  let frames := lruFrames st in
  let orderOfUse := lruOrderOfUse st in
  let result := lruResult st in
  let frameIndex := indexOf frames page in
  if decide (frameIndex ≠ -1) then
    (* page hit *)
    let posIndex := indexOf orderOfUse (Some frameIndex) in
    let orderOfUse :=
      if decide (posIndex ≠ -1)
      then delete (Z.to_nat posIndex) orderOfUse   (* splice(posIndex, 1) *)
      else orderOfUse in
    let orderOfUse := orderOfUse ++ [Some frameIndex] in
    {| lruFrames := frames; lruOrderOfUse := orderOfUse;
       lruResult :=
         {| steps := steps result ++
              [lruStepRecord page frames frames false None orderOfUse];
            faults := faults result; hits := hits result + 1 |} |}
  else if includes frames (-1) then
    (* page fault, an empty frame is available *)
    let emptyIndex := indexOf frames (-1) in
    let frames' := arraySet frames emptyIndex page in
    let orderOfUse := orderOfUse ++ [Some emptyIndex] in
    {| lruFrames := frames'; lruOrderOfUse := orderOfUse;
       lruResult :=
         {| steps := steps result ++
              [lruStepRecord page frames frames' true (Some emptyIndex)
                 orderOfUse];
            faults := faults result + 1; hits := hits result |} |}
  else
    (* page fault, no empty frame: replace the first of orderOfUse *)
    let replaceFrameIndex : option Z := mjoin (head orderOfUse) in
    let frames' :=
      match replaceFrameIndex with
      | Some i => arraySet frames i page
      | None => frames          (* frames[undefined] = page *)
      end in
    let orderOfUse := tail orderOfUse ++ [replaceFrameIndex] in
    {| lruFrames := frames'; lruOrderOfUse := orderOfUse;
       lruResult :=
         {| steps := steps result ++
              [lruStepRecord page frames frames' true replaceFrameIndex
                 orderOfUse];
            faults := faults result + 1; hits := hits result |} |}.

Definition initLRU (frameCount : Z) : LRUState :=
  {| lruFrames := newArray frameCount (-1); lruOrderOfUse := [];
     lruResult := emptyResult |}.

(** [for (let i = 0; i < refString.length; i++)]. *)
Definition loopLRU (refString : list Z) (st : LRUState) : LRUState :=
  foldl (λ st page, stepLRU page st) st refString.

Definition simulateLRU (frameCount : Z) (refString : list Z) : MemoryResult :=
  lruResult (loopLRU refString (initLRU frameCount)).

(** *** ARB, the clock (second chance) version *)

(** The variables that live across iterations of the loop of
    [simulateARB]. *)
Record ARBState := mkARBState {
  arbFrames : list Z;
  arbRefBits : list Z;
  arbPointer : Z;
  arbFramesFilled : Z;
  arbResult : MemoryResult
}.

(** What the victim search leaves behind: the arrays, the clock hand, the
    fields of the step it sets, its local [loopCount], and which of its two
    replacements ended it. *)
Record Sweep := mkSweep {
  swFrames : list Z;
  swRefBits : list Z;
  swPointer : Z;
  swReplacedFrame : option Z;
  swResetBits : bool;
  swLoopCount : Z;
  swForced : bool   (* whether the forced replacement was taken *)
}.

(** [while (!foundVictim) { ... }]: one unfolding per iteration; [None]
    when [fuel] iterations have not found a victim. *)
Fixpoint sweep (fuel : nat) (frameCount page startPointer : Z)
    (frames refBits : list Z) (pointer loopCount : Z) (resetBits : bool) :
    option Sweep :=
  match fuel with
  | O => None
  | S fuel =>
    if decide (arrayGet refBits pointer = Some 0) then
      (* reference bit 0: replace this page *)
      Some {| swFrames := arraySet frames pointer page;
              swRefBits := arraySet refBits pointer 1;
              swPointer := Z.rem (pointer + 1) frameCount;
              swReplacedFrame := Some pointer;
              swResetBits := resetBits;
              swLoopCount := loopCount;
              swForced := false |}
    else
      (* second chance: clear the bit, move the hand *)
      let refBits := arraySet refBits pointer 0 in
      let pointer := Z.rem (pointer + 1) frameCount in
      if decide (pointer = startPointer) then
        let loopCount := loopCount + 1 in
        let resetBits := if decide (loopCount = 1) then true else resetBits in
        if decide (1 < loopCount) then
          (* forced replacement *)
          Some {| swFrames := arraySet frames pointer page;
                  swRefBits := arraySet refBits pointer 1;
                  swPointer := Z.rem (pointer + 1) frameCount;
                  swReplacedFrame := Some pointer;
                  swResetBits := resetBits;
                  swLoopCount := loopCount;
                  swForced := true |}
        else
          sweep fuel frameCount page startPointer frames refBits pointer
            loopCount resetBits
      else
        sweep fuel frameCount page startPointer frames refBits pointer
          loopCount resetBits
  end.

Definition arbStepRecord (page : Z) (st : ARBState)
    (framesAfter refBitsAfter : list Z) (fault : bool)
    (replaced : option Z) (reset : bool) (pointerAfter : Z) : MemoryStep :=
  {| reference := page; frames := arbFrames st; framesAfter := framesAfter;
     isFault := fault; refBits := Some (arbRefBits st);
     refBitsAfter := Some refBitsAfter;
     replacedFrame := replaced; resetBits := Some reset;
     pointerPosition := Some (arbPointer st);
     pointerPositionAfter := Some pointerAfter;
     orderOfUse := None |}.

(** The body of the loop of [simulateARB], for the reference [page];
    [fuel] bounds the iterations of the victim search. *)
Definition stepARB (fuel : nat) (frameCount page : Z) (st : ARBState) :
    option ARBState :=
  let frames := arbFrames st in
  let refBits := arbRefBits st in
  let pointer := arbPointer st in
  let framesFilled := arbFramesFilled st in
  let result := arbResult st in
  let frameIndex := indexOf frames page in
  if decide (frameIndex ≠ -1) then
    (* page hit *)
    let refBits' := arraySet refBits frameIndex 1 in
    Some {| arbFrames := frames; arbRefBits := refBits';
            arbPointer := pointer; arbFramesFilled := framesFilled;
            arbResult :=
              {| steps := steps result ++
                   [arbStepRecord page st frames refBits' false None false
                      pointer];
                 faults := faults result; hits := hits result + 1 |} |}
  else if decide (framesFilled < frameCount) then
    (* page fault, an empty frame is available *)
    let emptyIndex := indexOf frames (-1) in
    let frames' := arraySet frames emptyIndex page in
    let refBits' := arraySet refBits emptyIndex 1 in
    let pointer' := Z.rem (emptyIndex + 1) frameCount in
    Some {| arbFrames := frames'; arbRefBits := refBits';
            arbPointer := pointer'; arbFramesFilled := framesFilled + 1;
            arbResult :=
              {| steps := steps result ++
                   [arbStepRecord page st frames' refBits' true
                      (Some emptyIndex) false pointer'];
                 faults := faults result + 1; hits := hits result |} |}
  else
    (* page fault, all frames filled: the clock picks a victim *)
    match sweep fuel frameCount page pointer frames refBits pointer 0
            false with
    | None => None
    | Some sw =>
      Some {| arbFrames := swFrames sw; arbRefBits := swRefBits sw;
              arbPointer := swPointer sw; arbFramesFilled := framesFilled;
              arbResult :=
                {| steps := steps result ++
                     [arbStepRecord page st (swFrames sw) (swRefBits sw) true
                        (swReplacedFrame sw) (swResetBits sw) (swPointer sw)];
                   faults := faults result + 1; hits := hits result |} |}
    end.

Definition initARB (frameCount : Z) : ARBState :=
  {| arbFrames := newArray frameCount (-1);
     arbRefBits := newArray frameCount 0;
     arbPointer := 0; arbFramesFilled := 0; arbResult := emptyResult |}.

Fixpoint loopARB (fuel : nat) (frameCount : Z) (refString : list Z)
    (st : ARBState) : option ARBState :=
  match refString with
  | [] => Some st
  | page :: rest =>
    match stepARB fuel frameCount page st with
    | None => None
    | Some st => loopARB fuel frameCount rest st
    end
  end.

(** [simulateARB frameCount refString], each victim search run for at most
    [fuel] iterations; [None] when one of them needs more. *)
Definition simulateARB (fuel : nat) (frameCount : Z) (refString : list Z) :
    option MemoryResult :=
  arbResult <$> loopARB fuel frameCount refString (initARB frameCount).

(** *** ARB, the aging version (the other [simulateARB] of the
    repository) *)

Module Aging.

Record ARBState := mkARBState {
  arbFrames : list Z;
  arbRefBitHistory : list Z;
  arbRefBits : list Z;
  arbFramesFilled : Z;
  arbPointer : Z;
  arbResult : MemoryResult
}.

(** [for (let j = 0; j < frameCount; j++) if (frames[j] !== -1) {
    refBitHistory[j] = refBitHistory[j] >> 1;
    refBits[j] = (refBitHistory[j] & 0x80) > 0 ? 1 : 0 }]; the arrays
    have [frameCount] elements, so that every read is of an element. *)
Definition shiftBits (frameCount : Z) (frames : list Z)
    (hb : list Z * list Z) : list Z * list Z :=
  foldl (λ '(refBitHistory, refBits) j,
           match arrayGet frames j, arrayGet refBitHistory j with
           | Some f, Some h =>
             if decide (f ≠ -1) then
               let h' := Z.shiftr h 1 in
               (arraySet refBitHistory j h',
                arraySet refBits j
                  (if decide (0 < Z.land h' 128) then 1 else 0))
             else (refBitHistory, refBits)
           | _, _ => (refBitHistory, refBits)
           end)
        hb (seqZ 0 frameCount).

(** [for (let j = 0; j < frameCount; j++) if (refBitHistory[j] <
    minValue) { minValue = refBitHistory[j]; victimIndex = j }], from
    [minValue = Number.MAX_SAFE_INTEGER] and [victimIndex = 0]. *)
Definition findVictim (frameCount : Z) (refBitHistory : list Z) : Z :=
  snd (foldl (λ '(minValue, victimIndex) j,
                match arrayGet refBitHistory j with
                | Some h =>
                  if decide (h < minValue) then (h, j)
                  else (minValue, victimIndex)
                | None => (minValue, victimIndex)
                end)
             (9007199254740991, 0) (seqZ 0 frameCount)).

Definition stepRecord (page : Z) (st : ARBState) (shouldShiftBits : bool)
    (framesAfter refBitsAfter : list Z) (fault : bool)
    (replaced : option Z) (pointerAfter : Z) : MemoryStep :=
  {| reference := page; frames := arbFrames st; framesAfter := framesAfter;
     isFault := fault; refBits := Some (arbRefBits st);
     refBitsAfter := Some refBitsAfter;
     replacedFrame := replaced; resetBits := Some shouldShiftBits;
     pointerPosition := Some (arbPointer st);
     pointerPositionAfter := Some pointerAfter;
     orderOfUse := None |}.

(** The body of the loop, for the reference [page] at index [i]. *)
Definition stepARB (frameCount : Z) (i : Z) (page : Z) (st : ARBState) :
    ARBState :=
  let frames := arbFrames st in
  let framesFilled := arbFramesFilled st in
  let pointer := arbPointer st in
  let result := arbResult st in
  let shouldShiftBits := bool_decide (0 < i) in
  let '(refBitHistory, refBits) :=
    if shouldShiftBits
    then shiftBits frameCount frames (arbRefBitHistory st, arbRefBits st)
    else (arbRefBitHistory st, arbRefBits st) in
  let frameIndex := indexOf frames page in
  if decide (frameIndex ≠ -1) then
    let refBitHistory' :=
      match arrayGet refBitHistory frameIndex with
      | Some h => arraySet refBitHistory frameIndex (Z.lor h 128)
      | None => refBitHistory
      end in
    let refBits' := arraySet refBits frameIndex 1 in
    {| arbFrames := frames; arbRefBitHistory := refBitHistory';
       arbRefBits := refBits'; arbFramesFilled := framesFilled;
       arbPointer := pointer;
       arbResult :=
         {| steps := steps result ++
              [stepRecord page st shouldShiftBits frames refBits' false
                 None pointer];
            faults := faults result; hits := hits result + 1 |} |}
  else if decide (framesFilled < frameCount) then
    (* page fault, an empty frame is available *)
    let emptyIndex := indexOf frames (-1) in
    let frames' := arraySet frames emptyIndex page in
    let refBitHistory' := arraySet refBitHistory emptyIndex 128 in
    let refBits' := arraySet refBits emptyIndex 1 in
    let pointer' := Z.rem (emptyIndex + 1) frameCount in
    {| arbFrames := frames'; arbRefBitHistory := refBitHistory';
       arbRefBits := refBits'; arbFramesFilled := framesFilled + 1;
       arbPointer := pointer';
       arbResult :=
         {| steps := steps result ++
              [stepRecord page st shouldShiftBits frames' refBits' true
                 (Some emptyIndex) pointer'];
            faults := faults result + 1; hits := hits result |} |}
  else
    (* page fault, all frames filled: the lowest history is replaced *)
    let victimIndex := findVictim frameCount refBitHistory in
    let frames' := arraySet frames victimIndex page in
    let refBitHistory' := arraySet refBitHistory victimIndex 128 in
    let refBits' := arraySet refBits victimIndex 1 in
    let pointer' := Z.rem (victimIndex + 1) frameCount in
    {| arbFrames := frames'; arbRefBitHistory := refBitHistory';
       arbRefBits := refBits'; arbFramesFilled := framesFilled;
       arbPointer := pointer';
       arbResult :=
         {| steps := steps result ++
              [stepRecord page st shouldShiftBits frames' refBits' true
                 (Some victimIndex) pointer'];
            faults := faults result + 1; hits := hits result |} |}.

Definition initARB (frameCount : Z) : ARBState :=
  {| arbFrames := newArray frameCount (-1);
     arbRefBitHistory := newArray frameCount 0;
     arbRefBits := newArray frameCount 0;
     arbFramesFilled := 0; arbPointer := 0; arbResult := emptyResult |}.

Fixpoint loopARB (frameCount : Z) (i : Z) (refString : list Z)
    (st : ARBState) : ARBState :=
  match refString with
  | [] => st
  | page :: rest =>
    loopARB frameCount (i + 1) rest (stepARB frameCount i page st)
  end.

Definition simulateARB (frameCount : Z) (refString : list Z) :
    MemoryResult :=
  arbResult (loopARB frameCount 0 refString (initARB frameCount)).

End Aging.

(* --------------------------------------------------------------------- *)
(** ** disk.ts *)
(* --------------------------------------------------------------------- *)

(** [interface DiskResult]; a point of [path] is the pair
    [[cylinder, step]]. *)
Record DiskResult := mkDiskResult {
  sequence : list Z;
  seekDistance : Z;
  path : list (Z * Z)
}.

(** The mutable locals of a scheduler: the result under construction, the
    ordinal of the next path point and the head position. *)
Record DiskState := mkDiskState {
  result : DiskResult;
  step : Z;
  currentPosition : Z
}.

(** One visit: [result.seekDistance += delta; result.sequence.push(req);
    result.path.push([req, step++]); currentPosition = req]. *)
Definition visit (delta req : Z) (st : DiskState) : DiskState :=
  {| result := {| sequence := sequence (result st) ++ [req];
                  seekDistance := seekDistance (result st) + delta;
                  path := path (result st) ++ [(req, step st)] |};
     step := step st + 1;
     currentPosition := req |}.

(** [for (const req of reqs) { result.seekDistance += Math.abs(req -
    currentPosition); ... }]. *)
Fixpoint serve (reqs : list Z) (st : DiskState) : DiskState :=
  match reqs with
  | [] => st
  | req :: rest => serve rest (visit (Z.abs (req - currentPosition st)) req st)
  end.

(** [[...requests].sort((a, b) => a - b)]: the ascending numeric sort. *)
Definition sortedRequests (requests : list Z) : list Z :=
  merge_sort Z.le requests.

Definition higher (start : Z) (requests : list Z) : list Z :=
  filter (λ r, start < r) (sortedRequests requests).
Definition lower (start : Z) (requests : list Z) : list Z :=
  filter (λ r, r < start) (sortedRequests requests).
Definition atStart (start : Z) (requests : list Z) : list Z :=
  filter (λ r, r = start) (sortedRequests requests).

Definition initDisk (start : Z) : DiskState :=
  {| result := {| sequence := [start]; seekDistance := 0;
                  path := [(start, 0)] |};
     step := 1;
     currentPosition := start |}.

(** [if (l.length > 0) { for (const req of l) ... }]. *)
Definition serveIfAny (l : list Z) (st : DiskState) : DiskState :=
  if decide (0 < length l)%nat then serve l st else st.

Definition simulateLOOK (cylinders start : Z) (requests : list Z)
    (initialDirection : bool) : DiskResult :=
  let higher := higher start requests in
  let lower := lower start requests in
  let st := initDisk start in
  (* the [atStart] test of the source has an empty body *)
  if initialDirection then
    let st := serveIfAny higher st in
    let st := serveIfAny (reverse lower) st in
    result st
  else
    let st := serveIfAny (reverse lower) st in
    let st := serveIfAny higher st in
    result st.

Definition simulateCSCAN (cylinders start : Z) (requests : list Z)
    (initialDirection : bool) : DiskResult :=
  let higher := higher start requests in
  let lower := lower start requests in
  let st := initDisk start in
  if initialDirection then
    let st := serve higher st in
    if decide (0 < length lower)%nat then
      let st :=
        if decide (currentPosition st < cylinders - 1)
        then visit (Z.abs (cylinders - 1 - currentPosition st))
                   (cylinders - 1) st
        else st in
      (* the jump to cylinder 0 adds nothing to seekDistance *)
      let st := visit 0 0 st in
      result (serve lower st)
    else result st
  else
    let st := serve (reverse lower) st in
    if decide (0 < length higher)%nat then
      let st :=
        if decide (0 < currentPosition st)
        then visit (currentPosition st) 0 st
        else st in
      (* the jump to the last cylinder adds nothing to seekDistance *)
      let st := visit 0 (cylinders - 1) st in
      result (serve (reverse higher) st)
    else result st.

(** Total head movement along a list of cylinders: the sum of the absolute
    differences of consecutive elements. *)
Fixpoint pathLength (l : list Z) : Z :=
  match l with
  | a :: (b :: _) as t => Z.abs (b - a) + pathLength t
  | _ => 0
  end.

(** A workload as [validateDiskInput] lets it through. *)
Definition validDisk (cylinders start : Z) (requests : list Z) : Prop :=
  0 < cylinders ∧ 0 ≤ start < cylinders ∧
  Forall (λ r, 0 ≤ r < cylinders) requests.

(** The bookkeeping a scheduler maintains: the head stands on the last
    cylinder of the sequence, and the seek distance is the length of the
    path travelled short of an exempted amount [w]. *)
Definition coherent (w : Z) (st : DiskState) : Prop :=
  last (sequence (result st)) = Some (currentPosition st) ∧
  seekDistance (result st) + w = pathLength (sequence (result st)).

(* --------------------------------------------------------------------- *)
(** ** The JavaScript built-ins the validators call *)
(* --------------------------------------------------------------------- *)

(** Texts are taken to be ASCII, so that white space is the six ASCII
    white-space characters. *)
Module JS.

Abbreviation ascii := Ascii.ascii.

(** A text as the list of its characters, and back. *)
Fixpoint chars (s : string) : list ascii :=
  match s with
  | EmptyString => []
  | String c s => c :: chars s
  end.
Fixpoint text (l : list ascii) : string :=
  match l with
  | [] => EmptyString
  | c :: l => String c (text l)
  end.

(** [s.trimStart()]. *)
Fixpoint trimStartChars (l : list ascii) : list ascii :=
  match l with
  | c :: r => if Ascii.is_space c then trimStartChars r else l
  | [] => []
  end.

Definition trimChars (l : list ascii) : list ascii :=
  reverse (trimStartChars (reverse (trimStartChars l))).

(** [s.trim()]. *)
Definition trim (s : string) : string := text (trimChars (chars s)).

(** [s.split(/\s+/)]: the pieces between the maximal runs of white
    space; a text that starts or ends with white space yields an empty
    first or last piece. [cur] is the piece being read, reversed. *)
Fixpoint splitSpacesGo (cur : list ascii) (inRun : bool) (l : list ascii) :
    list string :=
  match l with
  | [] => [text (reverse cur)]
  | c :: r =>
    if Ascii.is_space c
    then if inRun then splitSpacesGo cur true r
         else text (reverse cur) :: splitSpacesGo [] true r
    else splitSpacesGo (c :: cur) false r
  end.
Definition splitSpaces (s : string) : list string :=
  splitSpacesGo [] false (chars s).

(** [s.split(',')]. *)
Fixpoint splitCommaGo (cur : list ascii) (l : list ascii) : list string :=
  match l with
  | [] => [text (reverse cur)]
  | c :: r =>
    if Ascii.eqb c ","%char
    then text (reverse cur) :: splitCommaGo [] r
    else splitCommaGo (c :: cur) r
  end.
Definition splitComma (s : string) : list string :=
  splitCommaGo [] (chars s).

(** The value of a character as a digit of the given radix. *)
Definition digitValue (radix : Z) (c : ascii) : option Z :=
  let code := Z.of_N (N_of_ascii c) in
  let v :=
    if decide (48 ≤ code ≤ 57) then Some (code - 48)          (* 0-9 *)
    else if decide (97 ≤ code ≤ 122) then Some (code - 87)    (* a-z *)
    else if decide (65 ≤ code ≤ 90) then Some (code - 55)     (* A-Z *)
    else None in
  match v with
  | Some d => if decide (d < radix) then Some d else None
  | None => None
  end.

(** The longest prefix of digits, as digit values, and what follows. *)
Fixpoint spanDigits (radix : Z) (l : list ascii) : list Z * list ascii :=
  match l with
  | c :: r =>
    match digitValue radix c with
    | Some d => let '(ds, rest) := spanDigits radix r in (d :: ds, rest)
    | None => ([], l)
    end
  | [] => ([], [])
  end.

Definition digitsValue (radix : Z) (ds : list Z) : Z :=
  foldl (λ acc d, acc * radix + d) 0 ds.

Definition splitSign (l : list ascii) : bool * list ascii :=
  match l with
  | c :: r =>
    if Ascii.eqb c "-"%char then (true, r)
    else if Ascii.eqb c "+"%char then (false, r)
    else (false, l)
  | [] => (false, [])
  end.

(** [parseInt(s)] without a radix: leading white space, a sign, an
    optional [0x] for radix 16, the longest run of digits; whatever
    follows is ignored. [None] is [NaN]. The integer is kept exact (a
    JavaScript number is exact up to 2^53). *)
Definition parseInt (s : string) : option Z :=
  let l := trimStartChars (chars s) in
  let '(negative, l) := splitSign l in
  let '(radix, l) :=
    match l with
    | c0 :: c1 :: r =>
      if Ascii.eqb c0 "0"%char
         && (Ascii.eqb c1 "x"%char || Ascii.eqb c1 "X"%char)
      then (16, r) else (10, l)
    | _ => (10, l)
    end in
  let '(ds, _) := spanDigits radix l in
  match ds with
  | [] => None
  | _ => Some (if negative then - digitsValue radix ds
               else digitsValue radix ds)
  end.

(** A JavaScript number as [Number] yields it. A finite value is the
    exact rational the text denotes, in lowest terms; of the rounding to
    a double only the underflow to zero is kept, the one effect of it the
    tests [isNaN(v)] and [v < 0] of the validators can observe. *)
Inductive number :=
| NaN
| Infinity (negative : bool)
| Num (q : Q).

(** Magnitudes up to 2^-1075 round to zero. *)
Definition roundToDouble (q : Q) : Q :=
  if Qle_bool (Qabs q) (1 # 2 ^ 1075) then 0%Q else Qred q.

(** [0x], [0o] and [0b] literals. *)
Definition nonDecimalLiteral (l : list ascii) : option Z :=
  match l with
  | c0 :: c1 :: r =>
    let radix :=
      if Ascii.eqb c1 "x"%char || Ascii.eqb c1 "X"%char then Some 16
      else if Ascii.eqb c1 "o"%char || Ascii.eqb c1 "O"%char then Some 8
      else if Ascii.eqb c1 "b"%char || Ascii.eqb c1 "B"%char then Some 2
      else None in
    match radix with
    | Some radix =>
      if Ascii.eqb c0 "0"%char then
        match spanDigits radix r with
        | (d :: ds, []) => Some (digitsValue radix (d :: ds))
        | _ => None
        end
      else None
    | None => None
    end
  | _ => None
  end.

(** [e] or [E], a sign, digits, to the end of the text; no exponent part
    is exponent 0. *)
Definition exponentPart (l : list ascii) : option Z :=
  match l with
  | [] => Some 0
  | c :: r =>
    if Ascii.eqb c "e"%char || Ascii.eqb c "E"%char then
      let '(negative, r) := splitSign r in
      match spanDigits 10 r with
      | (d :: ds, []) =>
        Some (if negative then - digitsValue 10 (d :: ds)
              else digitsValue 10 (d :: ds))
      | _ => None
      end
    else None
  end.

(** Digits, a fraction, an exponent; digits are needed before or after
    the point. *)
Definition unsignedDecimalLiteral (l : list ascii) : option Q :=
  let '(ip, l) := spanDigits 10 l in
  let '(fp, l) :=
    match l with
    | c :: r => if Ascii.eqb c "."%char then
                  let '(fp, r) := spanDigits 10 r in (Some fp, r)
                else (None, l)
    | [] => (None, l)
    end in
  let fp' := default [] fp in
  if bool_decide (ip = [] ∧ fp' = []) then None
  else
    match exponentPart l with
    | Some e =>
      let mantissa :=
        Qmake (digitsValue 10 (ip ++ fp'))
              (Z.to_pos (10 ^ Z.of_nat (length fp'))) in
      Some (mantissa * Qpower 10 e)%Q
    | None => None
    end.

(** [Number(s)] of a text: white space around is dropped; the empty text
    is 0; then a [0x], [0o] or [0b] literal, or a signed [Infinity] or
    decimal literal; anything else is [NaN]. *)
Definition Number (s : string) : number :=
  let l := trimChars (chars s) in
  match l with
  | [] => Num 0
  | _ =>
    match nonDecimalLiteral l with
    | Some v => Num (inject_Z v)
    | None =>
      let '(negative, l) := splitSign l in
      if bool_decide (text l = "Infinity") then Infinity negative
      else
        match unsignedDecimalLiteral l with
        | Some q => Num (roundToDouble (if negative then - q else q)%Q)
        | None => NaN
        end
    end
  end.

(** [isNaN(v)]. *)
Definition isNaN (v : number) : bool :=
  match v with NaN => true | _ => false end.

(** [v < 0]. *)
Definition ltZero (v : number) : bool :=
  match v with
  | NaN => false
  | Infinity negative => negative
  | Num q => negb (Qle_bool 0 q)
  end.

(** [`${z}`] for an integer of magnitude below 10^21. *)
Definition toString (z : Z) : string := pretty z.

End JS.

(* --------------------------------------------------------------------- *)
(** ** validators.ts *)
(* --------------------------------------------------------------------- *)

Module MemoryValidation.
(** The object [validateMemoryInput] returns. *)
Record t := mk {
  valid : bool;
  message : string;
  frameCount : option Z;
  refArray : option (list JS.number)
}.
Definition reject (msg : string) : t :=
  {| valid := false; message := msg; frameCount := None;
     refArray := None |}.
End MemoryValidation.

Definition validateMemoryInput (frames referenceString : string) :
    MemoryValidation.t :=
  let frameCount := JS.parseInt frames in
  (* [!frameCount || frameCount <= 0]: NaN, 0, or negative *)
  match frameCount with
  | None =>
    MemoryValidation.reject "Number of frames must be a positive integer"
  | Some fc =>
    if decide (fc = 0 ∨ fc ≤ 0) then
      MemoryValidation.reject "Number of frames must be a positive integer"
    else
      let refStringValue := JS.trim referenceString in
      if decide (refStringValue = "") then
        MemoryValidation.reject "Reference string is required"
      else
        let refArray := JS.Number <$> JS.splitSpaces refStringValue in
        if existsb JS.isNaN refArray then
          MemoryValidation.reject
            "Reference string must contain only numbers separated by spaces"
        else if existsb JS.ltZero refArray then
          MemoryValidation.reject
            "Reference string must contain non-negative integers"
        else
          {| MemoryValidation.valid := true;
             MemoryValidation.message := "";
             MemoryValidation.frameCount := Some fc;
             MemoryValidation.refArray := Some refArray |}
  end.

Module DiskValidation.
(** The object [validateDiskInput] returns. *)
Record t := mk {
  valid : bool;
  message : string;
  cylinders : option Z;
  start : option Z;
  requestArray : option (list Z)
}.
Definition reject (msg : string) : t :=
  {| valid := false; message := msg; cylinders := None; start := None;
     requestArray := None |}.
End DiskValidation.

(** [requestsValue.split(',').map(r => parseInt(r.trim()))]; an entry
    [None] is [NaN]. *)
Definition parseRequests (requestsValue : string) : list (option Z) :=
  (λ r, JS.parseInt (JS.trim r)) <$> JS.splitComma requestsValue.

Definition validateDiskInput (cylinders headPosition requestQueue : string) :
    DiskValidation.t :=
  match JS.parseInt cylinders with
  | None =>
    DiskValidation.reject "Total cylinders must be a positive integer"
  | Some cylindersCount =>
    if decide (cylindersCount = 0 ∨ cylindersCount ≤ 0) then
      DiskValidation.reject "Total cylinders must be a positive integer"
    else
      match JS.parseInt headPosition with
      | None =>
        DiskValidation.reject "Head position must be a non-negative integer"
      | Some start =>
        if decide (start < 0) then
          DiskValidation.reject "Head position must be a non-negative integer"
        else if decide (cylindersCount ≤ start) then
          DiskValidation.reject
            ("Head position must be less than total cylinders (0-"
               +:+ JS.toString (cylindersCount - 1) +:+ ")")
        else
          let requestsValue := JS.trim requestQueue in
          if decide (requestsValue = "") then
            DiskValidation.reject "Request queue is required"
          else
            let requestArray := parseRequests requestsValue in
            match mapM id requestArray with
            | None =>
              (* [requestArray.some(isNaN)] *)
              DiskValidation.reject
                "Request queue must contain only numbers separated by commas"
            | Some requests =>
              if existsb (λ num, bool_decide (num < 0 ∨ cylindersCount ≤ num))
                         requests
              then
                DiskValidation.reject
                  ("Request queue must contain integers between 0 and "
                     +:+ JS.toString (cylindersCount - 1))
              else
                {| DiskValidation.valid := true;
                   DiskValidation.message := "";
                   DiskValidation.cylinders := Some cylindersCount;
                   DiskValidation.start := Some start;
                   DiskValidation.requestArray := Some requests |}
            end
      end
  end.

(* --------------------------------------------------------------------- *)
(** ** Vocabulary of the memory properties *)
(* --------------------------------------------------------------------- *)

(** The effect of a step on the frame table: none on a hit; on a fault the
    table changes at exactly one index, the step's [replacedFrame]. *)
Definition frameEffect (s : MemoryStep) : Prop :=
  if isFault s
  then ∃ v : nat, replacedFrame s = Some (Z.of_nat v) ∧
         ∀ i : nat, frames s !! i ≠ framesAfter s !! i ↔ i = v
  else framesAfter s = frames s.

(** What the loop of [simulateLRU] maintains, for [n] frames: the table
    has [n] slots, the order list holds frame indices, among them every
    occupied frame. *)
Definition lruInv (n : nat) (st : LRUState) : Prop :=
  length (lruFrames st) = n ∧
  Forall (λ o, ∃ k : nat, o = Some (Z.of_nat k) ∧ (k < n)%nat)
         (lruOrderOfUse st) ∧
  ∀ k : nat, (k < n)%nat → lruFrames st !! k ≠ Some (-1) →
             Some (Z.of_nat k) ∈ lruOrderOfUse st.

(** A reference bit is 0 or 1. *)
Definition bit01 (b : Z) : Prop := b = 0 ∨ b = 1.

(** The frame under the clock hand [j] probes after the start [s] of a
    sweep over [n] frames. *)
Definition clockPos (n s j : Z) : Z := (s + j) `mod` n.

(** A victim search that ended as the clock algorithm intends, started on
    the table [frames] with the reference bits [bits], the hand having
    made [i] probes: a frame [v] is replaced, its bit is set, the hand is
    on the table, [loopCount] has not passed 1 (the forced replacement was
    not taken), and the reset flag tells whether every frame from probe [i]
    on had its bit set. *)
Definition sweepOk (n page s i : Z) (frames bits : list Z) (sw : Sweep) :
    Prop :=
  (swForced sw = false ∧ swLoopCount sw ≤ 1)
  ∧ (∃ v : nat, swReplacedFrame sw = Some (Z.of_nat v)
       ∧ Z.of_nat v < n
       ∧ swFrames sw = <[v := page]> frames
       ∧ swRefBits sw !! v = Some 1)
  ∧ length (swRefBits sw) = length bits
  ∧ Forall bit01 (swRefBits sw)
  ∧ 0 ≤ swPointer sw < n
  ∧ (swResetBits sw = true ↔
       ∀ j, i ≤ j < n → arrayGet bits (clockPos n s j) = Some 1).

(** What the loop of [simulateARB] maintains on a table of [n] frames,
    whatever the references: the arrays have [n] elements, the hand is on
    the table, the bits are bits. *)
Definition arbShape (n : Z) (st : ARBState) : Prop :=
  Z.of_nat (length (arbFrames st)) = n
  ∧ Z.of_nat (length (arbRefBits st)) = n
  ∧ 0 ≤ arbPointer st < n
  ∧ Forall bit01 (arbRefBits st).

(** What it maintains besides when no reference is the sentinel -1: the
    empty frames are those from index [framesFilled] on. *)
Definition arbFilled (n : Z) (st : ARBState) : Prop :=
  0 ≤ arbFramesFilled st ≤ n
  ∧ ∀ k : nat, Z.of_nat k < n →
      (arbFrames st !! k = Some (-1) ↔ arbFramesFilled st ≤ Z.of_nat k).

(** A state the loop of [simulateARB] can be in. *)
Definition reachableARB (frameCount : Z) (st : ARBState) : Prop :=
  ∃ fuel refString,
    loopARB fuel frameCount refString (initARB frameCount) = Some st.

(** The reference bit of the frame a step loads or hits is 1 after the
    step. *)
Definition bitSetAfter (s : MemoryStep) : Prop :=
  ∃ bitsAfter, refBitsAfter s = Some bitsAfter ∧
    if isFault s
    then ∃ v : nat, replacedFrame s = Some (Z.of_nat v)
                    ∧ framesAfter s !! v = Some (reference s)
                    ∧ bitsAfter !! v = Some 1
    else ∃ v : nat, indexOf (frames s) (reference s) = Z.of_nat v
                    ∧ bitsAfter !! v = Some 1.

(** The reset flag of a step is set exactly when the step is a fault on a
    full table whose reference bits were all 1. *)
Definition resetIff (s : MemoryStep) : Prop :=
  resetBits s = Some true ↔
    (isFault s = true ∧ ((-1) ∉ frames s)
     ∧ ∃ bits, refBits s = Some bits ∧ Forall (λ b, b = 1) bits).

(* --------------------------------------------------------------------- *)
(** ** DiskVisualization.tsx: what it computes from a result *)
(* --------------------------------------------------------------------- *)

(** [type DiskAlgorithm = "look" | "cscan"]. *)
Inductive DiskAlgorithm := look | cscan.

(** The counter shown as "Seek Distance So Far":
    [for (let i = 1; i < animationStep; i++) seekDistanceSoFar +=
    Math.abs(result.sequence[i] - result.sequence[i - 1])], from 0.
    [None] is [NaN], which a read past the end of the sequence gives. *)
Definition seekDistanceSoFar (sequence : list Z) (animationStep : Z) :
    option Z :=
  foldl (λ acc i,
           a ← acc;
           x ← arrayGet sequence i;
           y ← arrayGet sequence (i - 1);
           Some (a + Z.abs (x - y)))
        (Some 0) (seqZ 1 (animationStep - 1)).

(** A mark of [getDirectionChanges]: [{ position, type }]. *)
Inductive ChangeType := up | down | jump.

(** [a < b] on array reads: false when either is [undefined]. *)
Definition ltRead (a b : option Z) : Prop :=
  match a, b with
  | Some x, Some y => x < y
  | _, _ => False
  end.

Global Instance ltRead_dec a b : Decision (ltRead a b).
Proof. destruct a, b; simpl; apply _. Defined.

(** [a - b > cylinders / 2] on array reads: the quotient is exact in
    doubles, so the test is [cylinders < 2 * (a - b)]. *)
Definition farAbove (cylinders : Z) (a b : option Z) : Prop :=
  match a, b with
  | Some x, Some y => cylinders < 2 * (x - y)
  | _, _ => False
  end.

Global Instance farAbove_dec c a b : Decision (farAbove c a b).
Proof. destruct a, b; simpl; apply _. Defined.

(** The test of the C-SCAN loop of [getDirectionChanges] at index [i]. *)
Definition isJump (initialDirection : bool) (cylinders : Z) (seq : list Z)
    (i : Z) : Prop :=
  (initialDirection = true
   ∧ ltRead (arrayGet seq i) (arrayGet seq (i - 1))
   ∧ farAbove cylinders (arrayGet seq (i - 1)) (arrayGet seq i))
  ∨ (initialDirection = false
     ∧ ltRead (arrayGet seq (i - 1)) (arrayGet seq i)
     ∧ farAbove cylinders (arrayGet seq i) (arrayGet seq (i - 1))).

(** The test of its LOOK loop at index [i]. *)
Definition isTurn (initialDirection : bool) (seq : list Z) (i : Z) : Prop :=
  (initialDirection = true
   ∧ ltRead (arrayGet seq (i - 1)) (arrayGet seq i)
   ∧ ltRead (arrayGet seq (i + 1)) (arrayGet seq i))
  ∨ (initialDirection = false
     ∧ ltRead (arrayGet seq i) (arrayGet seq (i - 1))
     ∧ ltRead (arrayGet seq i) (arrayGet seq (i + 1))).

(** [getDirectionChanges()]: each loop pushes one mark at the first index
    that passes its test, and breaks. *)
Definition getDirectionChanges (algorithm : DiskAlgorithm)
    (initialDirection : bool) (cylinders : Z) (seq : list Z) :
    list (Z * ChangeType) :=
  match algorithm with
  | cscan =>
    (* for (let i = 1; i < seq.length; i++) *)
    match list_find (isJump initialDirection cylinders seq)
                    (seqZ 1 (Z.of_nat (length seq) - 1)) with
    | Some (_, i) => [(i, jump)]
    | None => []
    end
  | look =>
    (* for (let i = 1; i < seq.length - 1; i++) *)
    match list_find (isTurn initialDirection seq)
                    (seqZ 1 (Z.of_nat (length seq) - 2)) with
    | Some (_, i) => [(i, if initialDirection then down else up)]
    | None => []
    end
  end.

(* --------------------------------------------------------------------- *)
(** ** Vocabulary of the disk properties *)
(* --------------------------------------------------------------------- *)

(** The highest and the lowest cylinder among the start and the requests. *)
Definition maxCylinder (start : Z) (requests : list Z) : Z :=
  foldr Z.max start requests.
Definition minCylinder (start : Z) (requests : list Z) : Z :=
  foldr Z.min start requests.

(** The path points of a sequence: each cylinder with its index. *)
Definition pathOf (seq : list Z) : list (Z * Z) :=
  imap (λ i c, (c, Z.of_nat i)) seq.

(** The scheduler keeps one path point per visited cylinder, numbered in
    order. *)
Definition pathInv (st : DiskState) : Prop :=
  path (result st) = pathOf (sequence (result st))
  ∧ step st = Z.of_nat (length (sequence (result st))).

(* --------------------------------------------------------------------- *)
(** ** MemoryVisualization.tsx: what it computes from a result *)
(* --------------------------------------------------------------------- *)

(** [a.slice(0, e)]: the first [e] elements, and for a negative [e] all but
    the last [-e]. *)
Definition slice0 {A} (a : list A) (e : Z) : list A :=
  if decide (0 ≤ e) then take (Z.to_nat e) a
  else take (length a - Z.to_nat (- e)) a.

(** [result.steps.slice(0, currentStep + 1).filter((s) => s.isFault)
    .length], and the same with [!s.isFault]. *)
Definition currentFaults (result : MemoryResult) (currentStep : Z) : Z :=
  Z.of_nat (length (filter (λ s, isFault s = true)
                           (slice0 (steps result) (currentStep + 1)))).
Definition currentHits (result : MemoryResult) (currentStep : Z) : Z :=
  Z.of_nat (length (filter (λ s, isFault s = false)
                           (slice0 (steps result) (currentStep + 1)))).

(** [getLRURank(frameIndex)] on the step shown; [None] is [null]. *)
Definition getLRURank (step : MemoryStep) (frameIndex : Z) : option Z :=
  match orderOfUse step with
  | None => None
  | Some order =>
    if decide (arrayGet (framesAfter step) frameIndex = Some (-1)) then None
    else
      let position := indexOf order (Some frameIndex) in
      if decide (position = -1) then None else Some (position + 1)
  end.

(* --------------------------------------------------------------------- *)
(** ** More vocabulary of the memory properties *)
(* --------------------------------------------------------------------- *)

(** A property of every two consecutive steps of a trace. *)
Definition consecutive (P : MemoryStep → MemoryStep → Prop)
    (l : list MemoryStep) : Prop :=
  ∀ (k : nat) prev cur, l !! k = Some prev → l !! S k = Some cur → P prev cur.

(** The number of fault steps and of hit steps of a trace. *)
Definition countFaults (l : list MemoryStep) : Z :=
  Z.of_nat (length (filter (λ s, isFault s = true) l)).
Definition countHits (l : list MemoryStep) : Z :=
  Z.of_nat (length (filter (λ s, isFault s = false) l)).

(** The pages resident in a frame table. *)
Definition residentPages (frames : list Z) : list Z :=
  filter (λ p, p ≠ -1) frames.

(** The link between the last step recorded and the table now. *)
Definition tableLinked (init now : list Z) (l : list MemoryStep) : Prop :=
  match last l with
  | Some prev => framesAfter prev = now
  | None => now = init
  end.

(** The shape of a trace over a table of [n] frames that started as
    [init]. *)
Definition traceShape (n : nat) (init : list Z) (l : list MemoryStep) :
    Prop :=
  Forall (λ s, length (frames s) = n ∧ length (framesAfter s) = n
               ∧ isFault s = bool_decide (reference s ∉ frames s)) l
  ∧ (∀ s, l !! 0%nat = Some s → frames s = init)
  ∧ consecutive (λ prev cur, frames cur = framesAfter prev) l.

(** Every page a step finds in the table was referenced by an earlier
    step. *)
Definition residentsWereReferenced (l : list MemoryStep) : Prop :=
  ∀ (k : nat) s, l !! k = Some s →
    ∀ p, p ∈ frames s → p ≠ -1 → p ∈ reference <$> take k l.

(** Frame [k] of a table holds a page. *)
Definition occupied (frames : list Z) (k : nat) : Prop :=
  ∃ p, frames !! k = Some p ∧ p ≠ -1.

(** The order list names each occupied frame of the table exactly once. *)
Definition exactOrder (order : list (option Z)) (frames : list Z) : Prop :=
  NoDup order
  ∧ ∀ x, x ∈ order ↔ ∃ k : nat, x = Some (Z.of_nat k) ∧ occupied frames k.

(** The order list a step records names each frame occupied after the step
    exactly once, the frame of the page referenced last. *)
Definition orderIsExact (s : MemoryStep) : Prop :=
  ∃ order, orderOfUse s = Some order
    ∧ exactOrder order (framesAfter s)
    ∧ last order = Some (Some (indexOf (framesAfter s) (reference s))).

(** The usage ranks the visualization shows for a step over [n] frames: an
    empty frame has none, an occupied one has a rank from 1 to the number
    of occupied frames, no two frames share a rank, and the frame of the
    page referenced has the highest. *)
Definition ranksWellFormed (n : nat) (s : MemoryStep) : Prop :=
  ∃ order, orderOfUse s = Some order
    ∧ length order = length (residentPages (framesAfter s))
    ∧ (∀ i : nat, (i < n)%nat →
         match getLRURank s (Z.of_nat i) with
         | None => framesAfter s !! i = Some (-1)
         | Some rank =>
           framesAfter s !! i ≠ Some (-1)
           ∧ 1 ≤ rank ≤ Z.of_nat (length order)
         end)
    ∧ (∀ i j rank, getLRURank s i = Some rank →
                   getLRURank s j = Some rank → i = j)
    ∧ getLRURank s (indexOf (framesAfter s) (reference s))
      = Some (Z.of_nat (length order)).

(** In the references [refs], the page [pb] is referenced after the last
    reference to the page [pa]. *)
Definition usedAfter (refs : list Z) (pa pb : Z) : Prop :=
  ∃ i : nat, refs !! i = Some pb ∧ ∀ j : nat, (i < j)%nat → refs !! j ≠ Some pa.

(** Two entries of the order list name frames whose pages were last
    referenced in that order. *)
Definition olderEntry (frames refs : list Z) (o1 o2 : option Z) : Prop :=
  ∃ (f1 f2 : nat) p1 p2,
    o1 = Some (Z.of_nat f1) ∧ o2 = Some (Z.of_nat f2)
    ∧ frames !! f1 = Some p1 ∧ frames !! f2 = Some p2
    ∧ usedAfter refs p1 p2.

(** No page is held by two frames. *)
Definition distinctPages (frames : list Z) : Prop :=
  ∀ (i j : nat) p, frames !! i = Some p → frames !! j = Some p → p ≠ -1 →
                   i = j.

(** The state of LRU after the references [refs], over [n] frames: the
    order list is exact and runs from the frame whose page was referenced
    longest ago to the frame whose page was referenced last. *)
Definition lruRecency (n : nat) (refs : list Z) (st : LRUState) : Prop :=
  length (lruFrames st) = n
  ∧ exactOrder (lruOrderOfUse st) (lruFrames st)
  ∧ distinctPages (lruFrames st)
  ∧ (∀ p, p ∈ lruFrames st → p ≠ -1 → p ∈ refs)
  ∧ StronglySorted (olderEntry (lruFrames st) refs) (lruOrderOfUse st).

(** The step [s], taken after the references [refsBefore], replaces the
    page of its table that was referenced longest ago. *)
Definition evictsLeastRecent (refsBefore : list Z) (s : MemoryStep) : Prop :=
  ∃ (r : nat) v,
    replacedFrame s = Some (Z.of_nat r)
    ∧ frames s !! r = Some v
    ∧ framesAfter s = <[r := reference s]> (frames s)
    ∧ v ∈ refsBefore
    ∧ ∀ q, q ∈ frames s → q ≠ v → usedAfter refsBefore v q.

(** The second chance a step of the clock version gives, on [n] frames:
    the frame replaced is the first one, going round from the hand, whose
    reference bit is 0, and the frame under the hand when every bit is 1;
    the bit of every frame passed over is cleared, the bit of the frame
    loaded is set, the bits of the frames not reached are kept, and the
    hand is left just after the frame replaced. [d] is the number of frames
    passed over. *)
Definition secondChance (n : Z) (s : MemoryStep) : Prop :=
  ∃ bits bitsAfter hand d,
    refBits s = Some bits ∧ refBitsAfter s = Some bitsAfter
    ∧ pointerPosition s = Some hand
    ∧ 0 ≤ d ≤ n
    ∧ replacedFrame s = Some (clockPos n hand d)
    ∧ (∀ j, 0 ≤ j < d → arrayGet bits (clockPos n hand j) = Some 1)
    ∧ (d < n → arrayGet bits (clockPos n hand d) = Some 0)
    ∧ arrayGet bitsAfter (clockPos n hand d) = Some 1
    ∧ (∀ j, 0 ≤ j < d → clockPos n hand j ≠ clockPos n hand d →
            arrayGet bitsAfter (clockPos n hand j) = Some 0)
    ∧ (∀ j, d < j < n →
            arrayGet bitsAfter (clockPos n hand j)
            = arrayGet bits (clockPos n hand j))
    ∧ framesAfter s = arraySet (frames s) (clockPos n hand d) (reference s)
    ∧ pointerPositionAfter s = Some (clockPos n hand (d + 1)).

(** What the loop of the aging version of [simulateARB] maintains on a
    table of [n] frames, when no reference is the sentinel -1: the arrays
    have [n] elements, a history is a number of 8 bits, the empty frames are
    those from index [framesFilled] on, and their displayed bits are 0. *)
Definition agingInv (n : Z) (st : Aging.ARBState) : Prop :=
  Z.of_nat (length (Aging.arbFrames st)) = n
  ∧ Z.of_nat (length (Aging.arbRefBitHistory st)) = n
  ∧ Z.of_nat (length (Aging.arbRefBits st)) = n
  ∧ Forall (λ h, 0 ≤ h ≤ 255) (Aging.arbRefBitHistory st)
  ∧ 0 ≤ Aging.arbFramesFilled st ≤ n
  ∧ (∀ k : nat, Z.of_nat k < n →
       (Aging.arbFrames st !! k = Some (-1)
        ↔ Aging.arbFramesFilled st ≤ Z.of_nat k))
  ∧ (∀ k : nat, Aging.arbFrames st !! k = Some (-1) →
       Aging.arbRefBits st !! k = Some 0).

(** After the step, the only displayed bit that is 1 is the bit of the
    frame that holds the page referenced. *)
Definition onlyBitOfReferenced (n : Z) (s : MemoryStep) : Prop :=
  refBitsAfter s
  = Some (arraySet (newArray n 0)
                   (indexOf (framesAfter s) (reference s)) 1).

(* --------------------------------------------------------------------- *)
(** ** DiskTab.tsx and the disk entries of SimulationContext.tsx *)
(* --------------------------------------------------------------------- *)

Module DiskTab.

(** The state variables of the component, and the two disk entries of the
    [comparisonData] of the context, which [updateDiskComparison] writes:
    an entry is [{ seekDistance, cylinders }], or [None] for [null]. *)
Record State := mkState {
  algorithm : DiskAlgorithm;
  totalCylinders : string;
  headPosition : string;
  requestQueue : string;
  initialDirection : bool;
  error : string;
  result : option DiskResult;
  showResults : bool;
  cylinderCount : Z;
  comparisonLook : option (Z * Z);
  comparisonCscan : option (Z * Z)
}.

Definition init : State :=
  {| algorithm := look; totalCylinders := ""; headPosition := "";
     requestQueue := ""; initialDirection := true; error := "";
     result := None; showResults := false; cylinderCount := 0;
     comparisonLook := None; comparisonCscan := None |}.

(** [handleRun]. The fields of an accepted validation are all present;
    were one absent the state is left as it is. *)
Definition handleRun (st : State) : State :=
  let validation :=
    validateDiskInput (totalCylinders st) (headPosition st)
                      (requestQueue st) in
  if negb (DiskValidation.valid validation) then
    {| algorithm := algorithm st; totalCylinders := totalCylinders st;
       headPosition := headPosition st; requestQueue := requestQueue st;
       initialDirection := initialDirection st;
       error := DiskValidation.message validation;
       result := result st; showResults := showResults st;
       cylinderCount := cylinderCount st;
       comparisonLook := comparisonLook st;
       comparisonCscan := comparisonCscan st |}
  else
    match DiskValidation.cylinders validation,
          DiskValidation.start validation,
          DiskValidation.requestArray validation with
    | Some cylinders, Some start, Some requestArray =>
      let simulationResult :=
        match algorithm st with
        | look =>
          simulateLOOK cylinders start requestArray (initialDirection st)
        | cscan =>
          simulateCSCAN cylinders start requestArray (initialDirection st)
        end in
      let entry := Some (seekDistance simulationResult, cylinders) in
      {| algorithm := algorithm st; totalCylinders := totalCylinders st;
         headPosition := headPosition st; requestQueue := requestQueue st;
         initialDirection := initialDirection st;
         error := "";
         result := Some simulationResult; showResults := true;
         cylinderCount := cylinders;
         comparisonLook :=
           match algorithm st with
           | look => entry
           | cscan => comparisonLook st
           end;
         comparisonCscan :=
           match algorithm st with
           | look => comparisonCscan st
           | cscan => entry
           end |}
    | _, _, _ => st
    end.

(** [handleReset]. *)
Definition handleReset (st : State) : State :=
  {| algorithm := algorithm st; totalCylinders := ""; headPosition := "";
     requestQueue := ""; initialDirection := initialDirection st;
     error := ""; result := None; showResults := false;
     cylinderCount := cylinderCount st;
     comparisonLook := comparisonLook st;
     comparisonCscan := comparisonCscan st |}.

(** What the user can do on the tab. *)
Inductive Event :=
| SetAlgorithm (value : DiskAlgorithm)
| SetInitialDirection (value : bool)
| SetTotalCylinders (value : string)
| SetHeadPosition (value : string)
| SetRequestQueue (value : string)
| Run
| Reset.

Definition handle (st : State) (e : Event) : State :=
  match e with
  | SetAlgorithm value =>
    {| algorithm := value; totalCylinders := totalCylinders st;
       headPosition := headPosition st; requestQueue := requestQueue st;
       initialDirection := initialDirection st; error := error st;
       result := result st; showResults := showResults st;
       cylinderCount := cylinderCount st;
       comparisonLook := comparisonLook st;
       comparisonCscan := comparisonCscan st |}
  | SetInitialDirection value =>
    {| algorithm := algorithm st; totalCylinders := totalCylinders st;
       headPosition := headPosition st; requestQueue := requestQueue st;
       initialDirection := value; error := error st;
       result := result st; showResults := showResults st;
       cylinderCount := cylinderCount st;
       comparisonLook := comparisonLook st;
       comparisonCscan := comparisonCscan st |}
  | SetTotalCylinders value =>
    {| algorithm := algorithm st; totalCylinders := value;
       headPosition := headPosition st; requestQueue := requestQueue st;
       initialDirection := initialDirection st; error := error st;
       result := result st; showResults := showResults st;
       cylinderCount := cylinderCount st;
       comparisonLook := comparisonLook st;
       comparisonCscan := comparisonCscan st |}
  | SetHeadPosition value =>
    {| algorithm := algorithm st; totalCylinders := totalCylinders st;
       headPosition := value; requestQueue := requestQueue st;
       initialDirection := initialDirection st; error := error st;
       result := result st; showResults := showResults st;
       cylinderCount := cylinderCount st;
       comparisonLook := comparisonLook st;
       comparisonCscan := comparisonCscan st |}
  | SetRequestQueue value =>
    {| algorithm := algorithm st; totalCylinders := totalCylinders st;
       headPosition := headPosition st; requestQueue := value;
       initialDirection := initialDirection st; error := error st;
       result := result st; showResults := showResults st;
       cylinderCount := cylinderCount st;
       comparisonLook := comparisonLook st;
       comparisonCscan := comparisonCscan st |}
  | Run => handleRun st
  | Reset => handleReset st
  end.

(** The state after a session of events. *)
Definition session (events : list Event) : State := foldl handle init events.

(** What the tab shows is sound: results are shown exactly when one is
    held; the result held was computed for the cylinder count held, lies on
    that disk and numbers its path; and each comparison entry holds a seek
    distance within the bound of its algorithm. *)
Definition sound (st : State) : Prop :=
  (showResults st = true ↔ is_Some (result st))
  ∧ (∀ r, result st = Some r →
       1 ≤ cylinderCount st
       ∧ Forall (λ x, 0 ≤ x ≤ cylinderCount st - 1) (sequence r)
       ∧ path r = pathOf (sequence r)
       ∧ 0 ≤ seekDistance r ≤ 2 * (cylinderCount st - 1))
  ∧ (∀ d c, comparisonLook st = Some (d, c) →
       1 ≤ c ∧ 0 ≤ d ≤ 2 * (c - 1))
  ∧ (∀ d c, comparisonCscan st = Some (d, c) →
       1 ≤ c ∧ 0 ≤ d ≤ c - 1).

End DiskTab.

(** The order of a sweep in a direction: ascending when it is up,
    descending when it is down. *)
Definition along (dir : bool) : relation Z :=
  if dir then Z.le else flip Z.le.

(* ===================================================================== *)
(** * Part II: properties *)
(* ===================================================================== *)

(* --------------------------------------------------------------------- *)
(** ** Disk scheduling *)
(* --------------------------------------------------------------------- *)

Section disk_facts.
Implicit Types (st : DiskState) (reqs l : list Z).

Lemma pathLength_snoc l a b :
  pathLength ((l ++ [a]) ++ [b]) = pathLength (l ++ [a]) + Z.abs (b - a).
Proof.
  induction l as [|x l IH]; [simpl; lia|].
  destruct l; simpl in *; lia.
Qed.

Lemma coherent_init start : coherent 0 (initDisk start).
Proof. split; simpl; [done | lia]. Qed.

Lemma coherent_visit w delta req st :
  coherent w st →
  coherent (w + Z.abs (req - currentPosition st) - delta) (visit delta req st).
Proof.
  intros [Hlast Hdist]. apply last_Some in Hlast as [l' Hl'].
  split; simpl; [by rewrite last_snoc|].
  rewrite Hl' in *. rewrite pathLength_snoc. lia.
Qed.

Lemma coherent_serve w reqs st : coherent w st → coherent w (serve reqs st).
Proof.
  revert st. induction reqs as [|req reqs IH]; intros st Hst; [done|].
  simpl. apply IH.
  replace w with (w + Z.abs (req - currentPosition st)
                    - Z.abs (req - currentPosition st)) at 1 by lia.
  by apply coherent_visit.
Qed.

Lemma serve_sequence reqs st :
  sequence (result (serve reqs st)) = sequence (result st) ++ reqs.
Proof.
  revert st. induction reqs as [|req reqs IH]; intros st; simpl.
  - by rewrite app_nil_r.
  - rewrite IH. simpl. by rewrite <-app_assoc.
Qed.

Lemma serve_position reqs st :
  currentPosition (serve reqs st) = default (currentPosition st) (last reqs).
Proof.
  revert st. induction reqs as [|req reqs IH]; intros st; [done|].
  simpl. rewrite IH. simpl. rewrite last_cons. by destruct (last reqs).
Qed.

Lemma serveIfAny_serve l st : serveIfAny l st = serve l st.
Proof.
  unfold serveIfAny. case_decide; [done|].
  destruct l; simpl in *; [done|lia].
Qed.

Lemma StronglySorted_filter {A} (R : relation A) (P : A → Prop)
    `{∀ x, Decision (P x)} (l : list A) :
  StronglySorted R l → StronglySorted R (filter P l).
Proof.
  induction 1 as [|x l Hl IH Hx]; [constructor|].
  rewrite filter_cons. case_decide; [|done].
  constructor; [done|].
  apply Forall_forall. intros y [_ Hy]%list_elem_of_filter.
  by eapply Forall_forall in Hx.
Qed.

Lemma sortedRequests_sorted requests :
  StronglySorted Z.le (sortedRequests requests).
Proof. apply StronglySorted_merge_sort; apply _. Qed.

Lemma higher_sorted start requests :
  StronglySorted Z.le (higher start requests).
Proof. apply StronglySorted_filter, sortedRequests_sorted. Qed.

Lemma lower_sorted start requests :
  StronglySorted Z.le (lower start requests).
Proof. apply StronglySorted_filter, sortedRequests_sorted. Qed.

Lemma higher_perm start requests :
  higher start requests ≡ₚ filter (λ r, start < r) requests.
Proof. unfold higher, sortedRequests. by rewrite merge_sort_Permutation. Qed.

Lemma lower_perm start requests :
  lower start requests ≡ₚ filter (λ r, r < start) requests.
Proof. unfold lower, sortedRequests. by rewrite merge_sort_Permutation. Qed.

Lemma reverse_lower_sorted start requests :
  StronglySorted (flip Z.le) (reverse (lower start requests)).
Proof.
  apply Sorted_StronglySorted; [intros x y z; unfold flip; lia|].
  apply Sorted_reverse, StronglySorted_Sorted, lower_sorted.
Qed.

Lemma elem_of_higher start requests r :
  r ∈ higher start requests ↔ start < r ∧ r ∈ requests.
Proof. by rewrite higher_perm, list_elem_of_filter. Qed.

Lemma elem_of_lower start requests r :
  r ∈ lower start requests ↔ r < start ∧ r ∈ requests.
Proof. by rewrite lower_perm, list_elem_of_filter. Qed.

Lemma look_sequence cylinders start requests dir :
  sequence (simulateLOOK cylinders start requests dir) =
    if dir
    then start :: higher start requests ++ reverse (lower start requests)
    else start :: reverse (lower start requests) ++ higher start requests.
Proof.
  unfold simulateLOOK. destruct dir;
    rewrite !serveIfAny_serve, !serve_sequence; simpl;
    by rewrite <-?app_assoc.
Qed.

Lemma look_seekDistance cylinders start requests dir :
  seekDistance (simulateLOOK cylinders start requests dir) =
    pathLength (sequence (simulateLOOK cylinders start requests dir)).
Proof.
  unfold simulateLOOK. destruct dir; rewrite !serveIfAny_serve.
  all: match goal with
       | |- context [result ?st] =>
           assert (coherent 0 st) as [_ Hd]
             by (do 2 apply coherent_serve; apply coherent_init)
       end; lia.
Qed.

Lemma pathLength_app l a l2 :
  pathLength ((l ++ [a]) ++ l2) = pathLength (l ++ [a]) + pathLength (a :: l2).
Proof.
  revert l a. induction l2 as [|b l2 IH]; intros l a.
  - rewrite app_nil_r. simpl. lia.
  - change (b :: l2) with ([b] ++ l2) at 1. rewrite (app_assoc _ [b]).
    rewrite IH, pathLength_snoc. simpl. lia.
Qed.

(** The head position once a group has been served. *)
Lemma last_default_elem_of start l :
  default start (last l) = start ∨ default start (last l) ∈ l.
Proof.
  destruct (last l) as [x|] eqn:Hl; [right|by left].
  by apply last_Some_elem_of.
Qed.

Lemma top_bounds cylinders start requests :
  validDisk cylinders start requests →
  start ≤ default start (last (higher start requests)) ≤ cylinders - 1.
Proof.
  intros (? & ? & Hreq).
  destruct (last_default_elem_of start (higher start requests)) as [->|Hin];
    [lia|].
  apply elem_of_higher in Hin as [? Hin].
  eapply Forall_forall in Hreq; [|done]. simpl in Hreq. lia.
Qed.

Lemma bottom_bounds cylinders start requests :
  validDisk cylinders start requests →
  0 ≤ default start (last (reverse (lower start requests))) ≤ start.
Proof.
  intros (? & ? & Hreq).
  destruct (last_default_elem_of start (reverse (lower start requests)))
    as [->|Hin]; [lia|].
  apply elem_of_reverse, elem_of_lower in Hin as [? Hin].
  eapply Forall_forall in Hreq; [|done]. simpl in Hreq. lia.
Qed.

Lemma cscan_sequence cylinders start requests dir :
  let hi := higher start requests in
  let lo := lower start requests in
  sequence (simulateCSCAN cylinders start requests dir) =
    if dir then
      start :: hi ++
        (if decide (0 < length lo)%nat
         then (if decide (default start (last hi) < cylinders - 1)
               then [cylinders - 1] else []) ++ 0 :: lo
         else [])
    else
      start :: reverse lo ++
        (if decide (0 < length hi)%nat
         then (if decide (0 < default start (last (reverse lo)))
               then [0] else []) ++ (cylinders - 1) :: reverse hi
         else []).
Proof.
  cbv zeta. unfold simulateCSCAN. destruct dir.
  - destruct (decide (0 < length (lower start requests))%nat);
      [|by rewrite serve_sequence, app_nil_r].
    rewrite serve_sequence, serve_position. simpl.
    case_decide; simpl; rewrite ?serve_sequence; simpl;
      by rewrite <-?app_assoc.
  - destruct (decide (0 < length (higher start requests))%nat);
      [|by rewrite serve_sequence, app_nil_r].
    rewrite serve_sequence, serve_position. simpl.
    case_decide; simpl; rewrite ?serve_sequence; simpl;
      by rewrite <-?app_assoc.
Qed.

(** Requests equal to the start cylinder fall into neither group. *)
Lemma higher_drop_start start requests :
  higher start (filter (λ r, r ≠ start) requests) = higher start requests.
Proof.
  apply (StronglySorted_unique Z.le); [apply higher_sorted..|].
  rewrite !higher_perm, list_filter_filter.
  apply reflexive_eq, list_filter_iff. intros x. lia.
Qed.

Lemma lower_drop_start start requests :
  lower start (filter (λ r, r ≠ start) requests) = lower start requests.
Proof.
  apply (StronglySorted_unique Z.le); [apply lower_sorted..|].
  rewrite !lower_perm, list_filter_filter.
  apply reflexive_eq, list_filter_iff. intros x. lia.
Qed.

Lemma lookup_head_only (x : Z) l :
  x ∉ l → ∀ i, (x :: l) !! i = Some x ↔ i = 0%nat.
Proof.
  intros Hx [|i]; simpl; [done|]. split; [|done].
  intros Hi. destruct Hx. by eapply list_elem_of_lookup_2.
Qed.

Lemma nonempty_elem_of (l : list Z) : (0 < length l)%nat → ∃ x, x ∈ l.
Proof. destruct l as [|x l]; simpl; [lia|]. exists x. left. Qed.
End disk_facts.

(** C4. LOOK visits the start cylinder, then the strictly-higher requests in
    ascending order followed by the strictly-lower requests in descending
    order when the initial direction is up, and the lower ones descending
    followed by the higher ones ascending when it is down; its seek distance
    is the sum of the absolute differences of consecutive visited cylinders,
    nothing exempted; on 200 cylinders, start 50, requests
    82,170,43,140,24,16,190, direction up, the sequence is
    50,82,140,170,190,43,24,16. *)
Theorem look_trace (cylinders start : Z) (requests : list Z) (dir : bool) :
  let r := simulateLOOK cylinders start requests dir in
  let up := higher start requests in
  let down := reverse (lower start requests) in
  sequence r = (if dir then start :: up ++ down else start :: down ++ up)
  ∧ StronglySorted Z.le up
  ∧ up ≡ₚ filter (λ r, start < r) requests
  ∧ StronglySorted (flip Z.le) down
  ∧ down ≡ₚ filter (λ r, r < start) requests
  ∧ seekDistance r = pathLength (sequence r)
  ∧ sequence (simulateLOOK 200 50 [82;170;43;140;24;16;190] true)
    = [50;82;140;170;190;43;24;16].
Proof.
  cbv zeta. split_and!.
  - apply look_sequence.
  - apply higher_sorted.
  - apply higher_perm.
  - apply reverse_lower_sorted.
  - rewrite reverse_Permutation. apply lower_perm.
  - apply look_seekDistance.
  - vm_compute. reflexivity.
Qed.

(** C3. On a validated workload with initial direction up and a request
    strictly below the start cylinder, C-SCAN serves the strictly-higher
    requests in ascending order, then moves to cylinder [cylinders - 1]
    unless the head already stands there (a move that counts), then jumps to
    cylinder 0 (a move that does not count), then serves the strictly-lower
    requests in ascending order: the seek distance is the sum of the
    absolute differences of consecutive sequence elements less the jump from
    [cylinders - 1] to 0. *)
Theorem cscan_up_trace (cylinders start : Z) (requests : list Z) :
  validDisk cylinders start requests →
  (∃ r, r ∈ requests ∧ r < start) →
  let res := simulateCSCAN cylinders start requests true in
  let hi := higher start requests in
  let lo := lower start requests in
  let top := default start (last hi) in
  let boundary := if decide (top = cylinders - 1) then [] else [cylinders - 1] in
  sequence res = start :: hi ++ boundary ++ 0 :: lo
  ∧ StronglySorted Z.le hi ∧ hi ≡ₚ filter (λ r, start < r) requests
  ∧ StronglySorted Z.le lo ∧ lo ≡ₚ filter (λ r, r < start) requests
  ∧ seekDistance res = pathLength (start :: hi ++ boundary) + pathLength (0 :: lo)
  ∧ seekDistance res = pathLength (sequence res) - Z.abs (0 - (cylinders - 1)).
Proof.
  intros Hvalid (r & Hr & Hlt). cbv zeta.
  pose proof (top_bounds _ _ _ Hvalid) as Htop.
  assert (0 < length (lower start requests))%nat as Hlo.
  { assert (r ∈ lower start requests) as Hin by by apply elem_of_lower.
    destruct (lower start requests); [by apply elem_of_nil in Hin|simpl; lia]. }
  assert (sequence (simulateCSCAN cylinders start requests true)
          = start :: higher start requests
              ++ (if decide (default start (last (higher start requests))
                             = cylinders - 1)
                  then [] else [cylinders - 1])
              ++ 0 :: lower start requests) as Hseq.
  { rewrite (cscan_sequence cylinders start requests true). cbv zeta.
    rewrite decide_True by done.
    do 2 f_equal. repeat case_decide; (done || lia). }
  assert (seekDistance (simulateCSCAN cylinders start requests true)
            + Z.abs (0 - (cylinders - 1))
          = pathLength (sequence (simulateCSCAN cylinders start requests true)))
    as Hdist.
  { unfold simulateCSCAN. rewrite decide_True by done.
    set (st1 := serve (higher start requests) (initDisk start)).
    assert (coherent 0 st1) as Hst1 by apply coherent_serve, coherent_init.
    assert (currentPosition st1 = default start (last (higher start requests)))
      as Hpos1 by apply serve_position.
    set (st2 := if decide (currentPosition st1 < cylinders - 1)
                then visit (Z.abs (cylinders - 1 - currentPosition st1))
                           (cylinders - 1) st1
                else st1).
    assert (coherent 0 st2 ∧ currentPosition st2 = cylinders - 1) as [Hst2 Hpos2].
    { subst st2.
      destruct (decide (currentPosition st1 < cylinders - 1));
        [|split; [done|lia]].
      split; [|done].
      replace 0 with (0 + Z.abs (cylinders - 1 - currentPosition st1)
                        - Z.abs (cylinders - 1 - currentPosition st1)) at 1
        by lia.
      by apply coherent_visit. }
    pose proof (coherent_visit 0 0 0 st2 Hst2) as Hst3.
    rewrite Hpos2 in Hst3.
    apply (coherent_serve _ (lower start requests)) in Hst3 as [_ Hd].
    lia. }
  split_and!; [done|apply higher_sorted|apply higher_perm|apply lower_sorted
              |apply lower_perm| |lia].
  assert (∃ l', start :: higher start requests
                  ++ (if decide (default start (last (higher start requests))
                                 = cylinders - 1)
                      then [] else [cylinders - 1])
                = l' ++ [cylinders - 1]) as [l' Hl'].
  { apply last_Some. case_decide as Hd.
    - rewrite app_nil_r, last_cons. rewrite <-Hd.
      by destruct (last (higher start requests)).
    - by rewrite app_comm_cons, last_snoc. }
  rewrite Hseq in Hdist.
  rewrite app_comm_cons, app_assoc, <-app_comm_cons, Hl' in Hdist.
  rewrite pathLength_app in Hdist.
  rewrite Hl'. simpl in Hdist. simpl. lia.
Qed.

Lemma cscan_up_trace_witness :
  seekDistance (simulateCSCAN 200 50 [82;170;43;140;24;16;190] true)
  = pathLength (sequence (simulateCSCAN 200 50 [82;170;43;140;24;16;190] true))
    - Z.abs (0 - (200 - 1)).
Proof.
  refine (proj2 (proj2 (proj2 (proj2 (proj2 (proj2
    (cscan_up_trace 200 50 [82;170;43;140;24;16;190] _ _))))))).
  - unfold validDisk. split; [lia|]. split; [lia|].
    repeat (constructor; [lia|]). constructor.
  - exists 43. split; [|lia]. do 2 right. left.
Defined.

(** C8. On a validated workload, LOOK and C-SCAN both put the start cylinder
    in the sequence exactly once, at index 0; requests equal to the start
    cylinder are not visited and add nothing to the seek distance: the
    result is the one of the workload without them. *)
Theorem start_visited_once (cylinders start : Z) (requests : list Z)
    (dir : bool) :
  validDisk cylinders start requests →
  let others := filter (λ r, r ≠ start) requests in
  (∀ i, sequence (simulateLOOK cylinders start requests dir) !! i = Some start
        ↔ i = 0%nat)
  ∧ simulateLOOK cylinders start requests dir
    = simulateLOOK cylinders start others dir
  ∧ (∀ i, sequence (simulateCSCAN cylinders start requests dir) !! i = Some start
          ↔ i = 0%nat)
  ∧ simulateCSCAN cylinders start requests dir
    = simulateCSCAN cylinders start others dir.
Proof.
  intros Hvalid. cbv zeta.
  pose proof (top_bounds _ _ _ Hvalid) as Htop.
  pose proof (bottom_bounds _ _ _ Hvalid) as Hbot.
  destruct Hvalid as (Hc & Hstart & Hreq).
  assert (∀ x, x ∈ higher start requests → start < x ≤ cylinders - 1) as Hhi.
  { intros x [? Hx]%elem_of_higher.
    eapply Forall_forall in Hreq; [|done]. simpl in Hreq. lia. }
  assert (∀ x, x ∈ lower start requests → 0 ≤ x < start) as Hlow.
  { intros x [? Hx]%elem_of_lower.
    eapply Forall_forall in Hreq; [|done]. simpl in Hreq. lia. }
  split_and!.
  - rewrite look_sequence.
    destruct dir; apply lookup_head_only; rewrite elem_of_app, elem_of_reverse;
      intros [Hin|Hin]; (apply Hhi in Hin || apply Hlow in Hin); lia.
  - unfold simulateLOOK.
    by rewrite higher_drop_start, lower_drop_start.
  - rewrite cscan_sequence. cbv zeta.
    destruct dir; apply lookup_head_only.
    + rewrite elem_of_app. intros [Hin|Hin]; [apply Hhi in Hin; lia|].
      case_decide as Hne; [|by apply elem_of_nil in Hin].
      apply nonempty_elem_of in Hne as [y Hy%Hlow].
      rewrite elem_of_app, elem_of_cons in Hin.
      destruct Hin as [Hin|[Hin|Hin]]; [|lia|apply Hlow in Hin; lia].
      case_decide; [|by apply elem_of_nil in Hin].
      apply list_elem_of_singleton in Hin. lia.
    + rewrite elem_of_app, elem_of_reverse.
      intros [Hin|Hin]; [apply Hlow in Hin; lia|].
      case_decide as Hne; [|by apply elem_of_nil in Hin].
      apply nonempty_elem_of in Hne as [y Hy%Hhi].
      rewrite elem_of_app, elem_of_cons, elem_of_reverse in Hin.
      destruct Hin as [Hin|[Hin|Hin]]; [|lia|apply Hhi in Hin; lia].
      case_decide; [|by apply elem_of_nil in Hin].
      apply list_elem_of_singleton in Hin. lia.
  - unfold simulateCSCAN.
    by rewrite higher_drop_start, lower_drop_start.
Qed.

Lemma start_visited_once_witness :
  simulateCSCAN 200 50 [82;50;43;199;0;50] false
  = simulateCSCAN 200 50 (filter (λ r, r ≠ 50) [82;50;43;199;0;50]) false.
Proof.
  refine (proj2 (proj2 (proj2
    (start_visited_once 200 50 [82;50;43;199;0;50] false _)))).
  unfold validDisk. split; [lia|]. split; [lia|].
  repeat (constructor; [lia|]). constructor.
Defined.

(* --------------------------------------------------------------------- *)
(** ** Arrays *)
(* --------------------------------------------------------------------- *)

Section array_facts.
Context {A : Type} `{EqDecision A}.
Implicit Types (a : list A) (x v : A) (i : Z).

Lemma indexOf_spec a x :
  (indexOf a x = -1 ∧ x ∉ a) ∨
  (∃ k : nat, indexOf a x = Z.of_nat k ∧ a !! k = Some x ∧
              ∀ j : nat, (j < k)%nat → a !! j ≠ Some x).
Proof.
  unfold indexOf. destruct (list_find _ a) as [[k y]|] eqn:Hfind.
  - apply list_find_Some in Hfind as (Hk & -> & Hfirst).
    right. exists k. split_and!; [done..|].
    intros j Hj Hx. by eapply Hfirst.
  - apply list_find_None in Hfind. left. split; [done|].
    intros Hin. by eapply Forall_forall in Hfind.
Qed.

Lemma indexOf_absent a x : indexOf a x = -1 ↔ x ∉ a.
Proof.
  destruct (indexOf_spec a x) as [[? ?]|(k & Hk & Hx & _)]; [done|].
  split; [lia|]. intros []. by eapply list_elem_of_lookup_2.
Qed.

Lemma indexOf_present a x :
  x ∈ a →
  ∃ k : nat, indexOf a x = Z.of_nat k ∧ a !! k = Some x ∧
             ∀ j : nat, (j < k)%nat → a !! j ≠ Some x.
Proof.
  intros Hin. destruct (indexOf_spec a x) as [[_ ?]|?]; done.
Qed.

Lemma includes_true a x : includes a x = true ↔ x ∈ a.
Proof. unfold includes. apply bool_decide_eq_true. Qed.

Lemma arraySet_nat a (k : nat) v : arraySet a (Z.of_nat k) v = <[k := v]> a.
Proof.
  unfold arraySet. rewrite decide_True by lia. by rewrite Nat2Z.id.
Qed.

Lemma arraySet_neg a i v : i < 0 → arraySet a i v = a.
Proof. intros. unfold arraySet. by rewrite decide_False by lia. Qed.

Lemma arraySet_length a i v : length (arraySet a i v) = length a.
Proof. unfold arraySet. case_decide; [apply length_insert|done]. Qed.

Lemma arrayGet_nat a (k : nat) : arrayGet a (Z.of_nat k) = a !! k.
Proof.
  unfold arrayGet. rewrite decide_True by lia. by rewrite Nat2Z.id.
Qed.
End array_facts.

Lemma newArray_length {A} (n : Z) (v : A) :
  length (newArray n v) = Z.to_nat n.
Proof. apply length_replicate. Qed.

Lemma newArray_lookup {A} (n : Z) (v : A) (k : nat) :
  (k < Z.to_nat n)%nat → newArray n v !! k = Some v.
Proof. intros. by apply lookup_replicate_2. Qed.

(* --------------------------------------------------------------------- *)
(** ** Page replacement: LRU *)
(* --------------------------------------------------------------------- *)

Section lru_facts.
Implicit Types (st : LRUState) (page : Z) (n : nat).

Lemma elem_of_delete_ne {A} (l : list A) (i : nat) (x y : A) :
  x ∈ l → l !! i = Some y → x ≠ y → x ∈ delete i l.
Proof.
  intros Hin Hi Hne. rewrite delete_take_drop.
  rewrite <-(take_drop_middle l i y Hi) in Hin.
  rewrite elem_of_app, elem_of_cons in Hin. rewrite elem_of_app.
  destruct Hin as [?|[?|?]]; [by left|done|by right].
Qed.

Lemma Forall_delete' {A} (P : A → Prop) (l : list A) (i : nat) :
  Forall P l → Forall P (delete i l).
Proof.
  intros Hl. rewrite delete_take_drop. apply Forall_app.
  split; [by apply Forall_take|by apply Forall_drop].
Qed.

Lemma insert_differs_only_at (l : list Z) (k : nat) (x y : Z) :
  l !! k = Some y → y ≠ x →
  ∀ i : nat, l !! i ≠ <[k := x]> l !! i ↔ i = k.
Proof.
  intros Hk Hne i. destruct (decide (i = k)) as [->|Hik].
  - rewrite list_lookup_insert_eq by by eapply lookup_lt_Some.
    rewrite Hk. split; [done|]. intros _ [=]. done.
  - rewrite list_lookup_insert_ne by done. split; [by intros []|done].
Qed.

Lemma initLRU_inv (frameCount : Z) :
  lruInv (Z.to_nat frameCount) (initLRU frameCount).
Proof.
  split_and!; simpl.
  - apply newArray_length.
  - constructor.
  - intros k Hk []. by apply newArray_lookup.
Qed.

(** One iteration of the loop. *)
Lemma stepLRU_spec n page st :
  (0 < n)%nat → lruInv n st →
  ∃ s, lruInv n (stepLRU page st)
       ∧ steps (lruResult (stepLRU page st)) = steps (lruResult st) ++ [s]
       ∧ faults (lruResult (stepLRU page st))
           + hits (lruResult (stepLRU page st))
         = faults (lruResult st) + hits (lruResult st) + 1
       ∧ frameEffect s.
Proof.
  intros Hn (Hlen & Horder & Hocc). unfold stepLRU.
  destruct (indexOf_spec (lruFrames st) page)
    as [[-> Habsent]|(k & -> & Hk & _)].
  - rewrite decide_False by lia.
    destruct (includes (lruFrames st) (-1)) eqn:Hinc.
    + (* an empty frame is filled *)
      apply includes_true, indexOf_present in Hinc as (e & -> & He & _).
      rewrite arraySet_nat.
      assert (e < n)%nat as Hen by (rewrite <-Hlen; by eapply lookup_lt_Some).
      eexists. split_and!; [|done|simpl; lia|].
      * split_and!; simpl.
        -- by rewrite length_insert.
        -- apply Forall_app. split; [done|]. repeat constructor. eauto.
        -- intros k Hkn Hne. apply elem_of_app.
           destruct (decide (k = e)) as [->|Hke]; [right; left|left].
           rewrite list_lookup_insert_ne in Hne by done. by apply Hocc.
      * exists e. split; [done|]. simpl.
        apply insert_differs_only_at with (-1); [done|].
        intros <-. apply Habsent. by eapply list_elem_of_lookup_2.
    + (* the first frame of the order list is replaced *)
      assert ((-1) ∉ lruFrames st) as Hfull.
      { intros Hin%includes_true. congruence. }
      assert (∃ (r : nat) rest,
                lruOrderOfUse st = Some (Z.of_nat r) :: rest ∧ (r < n)%nat)
        as (r & rest & Hord & Hrn).
      { assert (Some (Z.of_nat 0) ∈ lruOrderOfUse st) as Hin.
        { apply Hocc; [done|]. intros H0. apply Hfull.
          by eapply list_elem_of_lookup_2. }
        destruct (lruOrderOfUse st) as [|o rest];
          [by apply elem_of_nil in Hin|].
        apply Forall_cons in Horder as [(r & -> & Hr) _]. eauto. }
      rewrite Hord in *. simpl. rewrite arraySet_nat.
      assert (is_Some (lruFrames st !! r)) as [y Hy].
      { apply lookup_lt_is_Some. lia. }
      eexists. split_and!; [|done|simpl; lia|].
      * apply Forall_cons in Horder as [Hr Hrest]. split_and!; simpl.
        -- by rewrite length_insert.
        -- apply Forall_app. split; [done|]. by repeat constructor.
        -- intros k Hkn _. apply elem_of_app.
           assert (Some (Z.of_nat k) ∈ Some (Z.of_nat r) :: rest) as Hin.
           { apply Hocc; [done|]. intros Hk. apply Hfull.
             by eapply list_elem_of_lookup_2. }
           apply elem_of_cons in Hin as [->|Hin]; [right; left|by left].
      * exists r. split; [done|]. simpl.
        apply insert_differs_only_at with y; [done|].
        intros ->. apply Habsent. by eapply list_elem_of_lookup_2.
  - (* hit *)
    rewrite decide_True by lia.
    assert (k < n)%nat as Hkn by (rewrite <-Hlen; by eapply lookup_lt_Some).
    eexists. split_and!; [|done|simpl; lia|done].
    split_and!; simpl; [done| |].
    + apply Forall_app. split; [|repeat constructor; eauto].
      case_decide; [by apply Forall_delete'|done].
    + intros k' Hk'n Hne. apply elem_of_app.
      destruct (decide (k' = k)) as [->|Hkk]; [right; left|left].
      specialize (Hocc k' Hk'n Hne).
      destruct (indexOf_spec (lruOrderOfUse st) (Some (Z.of_nat k)))
        as [[-> _]|(pos & -> & Hpos & _)].
      * by rewrite decide_False by lia.
      * rewrite decide_True by lia. rewrite Nat2Z.id.
        eapply elem_of_delete_ne; [done..|]. intros [=]. lia.
Qed.

(** The whole loop. *)
Lemma loopLRU_spec n refString st :
  (0 < n)%nat → lruInv n st →
  ∃ new, lruInv n (loopLRU refString st)
       ∧ steps (lruResult (loopLRU refString st))
         = steps (lruResult st) ++ new
       ∧ length new = length refString
       ∧ faults (lruResult (loopLRU refString st))
           + hits (lruResult (loopLRU refString st))
         = faults (lruResult st) + hits (lruResult st)
           + Z.of_nat (length refString)
       ∧ Forall frameEffect new.
Proof.
  intros Hn. revert st.
  induction refString as [|page rest IH]; intros st Hinv.
  - exists []. simpl. split_and!; [done|by rewrite app_nil_r|done|lia|done].
  - destruct (stepLRU_spec n page st Hn Hinv) as (s & Hinv' & Hs & Hc & He).
    destruct (IH _ Hinv') as (new & Hinv'' & Hs' & Hl & Hc' & He').
    exists (s :: new). unfold loopLRU in *. simpl.
    split_and!; [done| | |lia|by constructor].
    + rewrite Hs', Hs. by rewrite <-app_assoc.
    + simpl. by rewrite Hl.
Qed.

Lemma simulateLRU_spec (frameCount : Z) (refString : list Z) :
  1 ≤ frameCount →
  length (steps (simulateLRU frameCount refString)) = length refString
  ∧ faults (simulateLRU frameCount refString)
      + hits (simulateLRU frameCount refString)
    = Z.of_nat (length refString)
  ∧ Forall frameEffect (steps (simulateLRU frameCount refString)).
Proof.
  intros Hfc.
  destruct (loopLRU_spec (Z.to_nat frameCount) refString
              (initLRU frameCount))
    as (new & _ & Hs & Hl & Hc & He); [lia|apply initLRU_inv|].
  unfold simulateLRU. rewrite Hs. simpl in *. split_and!; [done|lia|done].
Qed.
End lru_facts.

(* --------------------------------------------------------------------- *)
(** ** Page replacement: the clock sweep *)
(* --------------------------------------------------------------------- *)

Section array_facts_Z.
Context {A : Type}.
Implicit Types (a : list A) (v : A) (i j : Z).

Lemma arrayGet_arraySet_eq a i v :
  0 ≤ i < Z.of_nat (length a) → arrayGet (arraySet a i v) i = Some v.
Proof.
  intros. unfold arrayGet, arraySet. rewrite !decide_True by lia.
  apply list_lookup_insert_eq. lia.
Qed.

Lemma arrayGet_arraySet_ne a i j v :
  i ≠ j → arrayGet (arraySet a i v) j = arrayGet a j.
Proof.
  intros. unfold arrayGet, arraySet. repeat case_decide; try done.
  apply list_lookup_insert_ne. lia.
Qed.

Lemma arrayGet_is_Some a i :
  0 ≤ i < Z.of_nat (length a) → is_Some (arrayGet a i).
Proof.
  intros. unfold arrayGet. rewrite decide_True by lia.
  apply lookup_lt_is_Some. lia.
Qed.

Lemma arrayGet_elem_of a i v : arrayGet a i = Some v → v ∈ a.
Proof.
  unfold arrayGet. case_decide; [|done]. apply list_elem_of_lookup_2.
Qed.

Lemma Forall_arraySet (P : A → Prop) a i v :
  Forall P a → P v → Forall P (arraySet a i v).
Proof.
  intros. unfold arraySet. case_decide; [by apply Forall_insert|done].
Qed.
End array_facts_Z.

Section clock_arith.
Variable n : Z.
Hypothesis Hn : 1 ≤ n.

Lemma clockPos_range s j : 0 ≤ clockPos n s j < n.
Proof. unfold clockPos. apply Z.mod_pos_bound. lia. Qed.

Lemma clockPos_0 s : 0 ≤ s < n → clockPos n s 0 = s.
Proof. intros. unfold clockPos. rewrite Z.add_0_r. by apply Z.mod_small. Qed.

Lemma clockPos_full s : 0 ≤ s < n → clockPos n s n = s.
Proof.
  intros. unfold clockPos.
  rewrite <-(Z.mul_1_l n) at 1. rewrite Z.mod_add by lia.
  by apply Z.mod_small.
Qed.

Lemma clockPos_next s j :
  0 ≤ s → 0 ≤ j → Z.rem (clockPos n s j + 1) n = clockPos n s (j + 1).
Proof.
  intros. pose proof (clockPos_range s j).
  rewrite Z.rem_mod_nonneg by lia. unfold clockPos.
  rewrite Z.add_mod_idemp_l by lia. f_equal. lia.
Qed.

Lemma clockPos_inj s j1 j2 :
  0 ≤ j1 < n → 0 ≤ j2 < n → clockPos n s j1 = clockPos n s j2 → j1 = j2.
Proof.
  unfold clockPos. intros H1 H2 Heq.
  pose proof (Z.div_mod (s + j1) n ltac:(lia)) as E1.
  pose proof (Z.div_mod (s + j2) n ltac:(lia)) as E2.
  rewrite Heq in E1.
  assert ((s + j1) `div` n = (s + j2) `div` n) by nia. nia.
Qed.

Lemma clockPos_surj s m :
  0 ≤ m < n → ∃ j, 0 ≤ j < n ∧ clockPos n s j = m.
Proof.
  intros. exists ((m - s) `mod` n).
  split; [apply Z.mod_pos_bound; lia|]. unfold clockPos.
  rewrite Z.add_mod_idemp_r by lia.
  replace (s + (m - s)) with m by lia. by apply Z.mod_small.
Qed.

Lemma rem_range p : 0 ≤ p → 0 ≤ Z.rem p n < n.
Proof.
  intros. rewrite Z.rem_mod_nonneg by lia. apply Z.mod_pos_bound. lia.
Qed.
End clock_arith.

Section sweep_facts.
Variables (n page s : Z) (frames : list Z).
Hypothesis Hn : 1 ≤ n.
Hypothesis Hs : 0 ≤ s < n.

(** The search resumed at probe [i] of the first revolution, the frames
    probed so far having been cleared: [n - i + 1] iterations are
    enough. *)
Lemma sweep_from (k : nat) :
  ∀ (i : Z) (bits : list Z) (fuel : nat),
    0 ≤ i < n → Z.of_nat k = n - i →
    Z.of_nat (length bits) = n → Forall bit01 bits →
    (∀ j, 0 ≤ j < i → arrayGet bits (clockPos n s j) = Some 0) →
    (k + 1 ≤ fuel)%nat →
    ∃ sw, sweep fuel n page s frames bits (clockPos n s i) 0 false
          = Some sw
          ∧ sweepOk n page s i frames bits sw.
Proof.
  induction k as [|k IH]; intros i bits fuel Hi Hk Hlen H01 Hdone Hfuel;
    [lia|].
  destruct fuel as [|fuel]; [lia|].
  pose proof (clockPos_range n Hn s i) as Hp.
  set (p := clockPos n s i) in *.
  destruct (arrayGet_is_Some bits p) as [b Hb]; [lia|].
  assert (bit01 b) as Hb01.
  { eapply Forall_forall; [done|]. by eapply arrayGet_elem_of. }
  cbn [sweep]. rewrite Hb.
  destruct Hb01 as [->| ->].
  - (* the bit is 0: this frame is the victim *)
    rewrite decide_True by done. eexists. split; [done|].
    pose proof (rem_range n Hn (p + 1) ltac:(lia)).
    unfold sweepOk. simpl.
    split_and!; [done|lia| |by rewrite arraySet_length
                |apply Forall_arraySet; [done|by right]
                |lia|lia|].
    + exists (Z.to_nat p). rewrite Z2Nat.id by lia.
      split_and!; [done|lia| |].
      * unfold arraySet. by rewrite decide_True by lia.
      * rewrite <-arrayGet_nat, Z2Nat.id by lia.
        apply arrayGet_arraySet_eq. lia.
    + split; [done|]. intros Hall.
      specialize (Hall i ltac:(lia)). fold p in Hall. congruence.
  - (* the bit is 1: it is cleared and the hand moves on *)
    rewrite decide_False by (intros [=]).
    assert (Z.rem (p + 1) n = clockPos n s (i + 1)) as ->
      by (apply clockPos_next; lia).
    assert (∀ j, 0 ≤ j < i + 1 →
              arrayGet (arraySet bits p 0) (clockPos n s j) = Some 0)
      as Hdone'.
    { intros j Hj. destruct (decide (j = i)) as [->|Hji].
      - apply arrayGet_arraySet_eq. lia.
      - rewrite arrayGet_arraySet_ne; [apply Hdone; lia|].
        intros Heq. apply Hji. symmetry.
        apply (clockPos_inj n Hn s); [lia..|done]. }
    assert (∀ j, i + 1 ≤ j < n →
              arrayGet (arraySet bits p 0) (clockPos n s j)
              = arrayGet bits (clockPos n s j)) as Hlater.
    { intros j Hj. apply arrayGet_arraySet_ne. intros Heq.
      assert (i = j) by (apply (clockPos_inj n Hn s); [lia..|done]). lia. }
    destruct (decide (i + 1 = n)) as [Hlast|Hmore].
    + (* a full revolution: every bit is now 0 *)
      rewrite Hlast, clockPos_full by done.
      rewrite decide_True by done. simpl.
      destruct fuel as [|fuel]; [lia|]. cbn [sweep].
      specialize (Hdone' 0 ltac:(lia)). rewrite clockPos_0 in Hdone' by done.
      rewrite Hdone', decide_True by done.
      eexists. split; [done|].
      pose proof (rem_range n Hn (s + 1) ltac:(lia)).
      unfold sweepOk. simpl.
      split_and!; [done|lia| |by rewrite !arraySet_length
                  |apply Forall_arraySet;
                     [apply Forall_arraySet; [done|by left]|by right]
                  |lia|lia|].
      * exists (Z.to_nat s). rewrite Z2Nat.id by lia.
        split_and!; [done|lia| |].
        -- unfold arraySet. by rewrite decide_True by lia.
        -- rewrite <-arrayGet_nat, Z2Nat.id by lia.
           apply arrayGet_arraySet_eq. rewrite arraySet_length. lia.
      * split; [|done]. intros _ j Hj.
        assert (j = i) as -> by lia. done.
    + (* the revolution goes on *)
      rewrite decide_False.
      2:{ intros Heq. rewrite <-(clockPos_0 n s) in Heq at 2 by done.
          apply (clockPos_inj n Hn s) in Heq; lia. }
      destruct (IH (i + 1) (arraySet bits p 0) fuel) as (sw & Hsw & Hok);
        [lia|lia|by rewrite arraySet_length
        |apply Forall_arraySet; [done|by left]|done|lia|].
      exists sw. split; [done|].
      destruct Hok as (Hlc & Hv & Hl & Hb01 & Hptr & Hreset).
      split; [done|]. split; [done|].
      split; [by rewrite Hl, arraySet_length|].
      split; [done|]. split; [done|].
      rewrite Hreset. split.
      * intros Hall j Hj. destruct (decide (j = i)) as [->|Hji]; [done|].
        rewrite <-Hlater by lia. apply Hall. lia.
      * intros Hall j Hj. rewrite Hlater by lia. apply Hall. lia.
Qed.

(** One whole search: from any table of [n ≥ 1] frames the
    search ends within [n + 1] iterations without the forced
    replacement, and flags a reset exactly when every bit was set. *)
Lemma sweep_spec (bits : list Z) (fuel : nat) :
  Z.of_nat (length bits) = n → Forall bit01 bits →
  (Z.to_nat n + 1 ≤ fuel)%nat →
  ∃ sw, sweep fuel n page s frames bits s 0 false = Some sw
        ∧ sweepOk n page s 0 frames bits sw
        ∧ (swResetBits sw = true ↔ Forall (λ b, b = 1) bits).
Proof.
  intros Hlen H01 Hfuel.
  destruct (sweep_from (Z.to_nat n) 0 bits fuel) as (sw & Hsw & Hok);
    [lia|lia|done|done|intros; lia|done|].
  rewrite clockPos_0 in Hsw by done.
  exists sw. split_and!; [done..|].
  destruct Hok as (_ & _ & _ & _ & _ & ->). split.
  - intros Hall. apply Forall_lookup. intros m b Hm.
    assert (Z.of_nat m < n).
    { apply lookup_lt_Some in Hm. lia. }
    destruct (clockPos_surj n Hn s (Z.of_nat m)) as (j & Hj & Hpos); [lia|].
    specialize (Hall j Hj). rewrite Hpos, arrayGet_nat in Hall. congruence.
  - intros Hall j Hj.
    pose proof (clockPos_range n Hn s j).
    destruct (arrayGet_is_Some bits (clockPos n s j)) as [b Hb]; [lia|].
    rewrite Hb. f_equal.
    eapply Forall_forall in Hall; [done|]. by eapply arrayGet_elem_of.
Qed.
End sweep_facts.

(* --------------------------------------------------------------------- *)
(** ** Page replacement: ARB (clock) *)
(* --------------------------------------------------------------------- *)

Section arb_facts.
Variable n : Z.
Hypothesis Hn : 1 ≤ n.
Implicit Types (st : ARBState) (page : Z) (fuel : nat).

Lemma initARB_shape : arbShape n (initARB n).
Proof.
  unfold arbShape. simpl. rewrite !newArray_length.
  split_and!; [lia..|]. apply Forall_replicate. by left.
Qed.

Lemma initARB_filled : arbFilled n (initARB n).
Proof.
  split; simpl; [lia|]. intros k Hk.
  rewrite newArray_lookup by lia. split; [lia|done].
Qed.

Lemma indexOf_lower_bound {A} `{EqDecision A} (a : list A) (x : A) :
  -1 ≤ indexOf a x.
Proof. destruct (indexOf_spec a x) as [[-> _]|(k & -> & _)]; lia. Qed.

(** When no reference is -1, the first empty frame is the one at index
    [framesFilled]. *)
Lemma first_empty st :
  arbShape n st → arbFilled n st → arbFramesFilled st < n →
  ∃ e : nat, arbFramesFilled st = Z.of_nat e
             ∧ indexOf (arbFrames st) (-1) = Z.of_nat e
             ∧ arbFrames st !! e = Some (-1).
Proof.
  intros (Hlen & _) [Hrange Hempty] Hlt.
  exists (Z.to_nat (arbFramesFilled st)). rewrite Z2Nat.id by lia.
  assert (arbFrames st !! Z.to_nat (arbFramesFilled st) = Some (-1)) as He
    by (apply Hempty; lia).
  split_and!; [done| |done].
  destruct (indexOf_present (arbFrames st) (-1)) as (k & -> & Hk & Hfirst);
    [by eapply list_elem_of_lookup_2|].
  f_equal.
  assert (Z.of_nat k < n) by (apply lookup_lt_Some in Hk; lia).
  apply Hempty in Hk; [|done].
  destruct (decide (Z.to_nat (arbFramesFilled st) < k)%nat) as [Hlt'|]; [|lia].
  by apply Hfirst in Hlt'.
Qed.

(** One iteration of the loop. *)
Lemma stepARB_spec fuel page st :
  (Z.to_nat n + 1 ≤ fuel)%nat → arbShape n st →
  ∃ st' s, stepARB fuel n page st = Some st'
    ∧ arbShape n st'
    ∧ steps (arbResult st') = steps (arbResult st) ++ [s]
    ∧ faults (arbResult st') + hits (arbResult st')
      = faults (arbResult st) + hits (arbResult st) + 1
    ∧ (page ≠ -1 → arbFilled n st →
       arbFilled n st' ∧ frameEffect s ∧ bitSetAfter s ∧ resetIff s).
Proof.
  intros Hfuel Hshape. pose proof Hshape as (Hlen & Hblen & Hptr & H01).
  unfold stepARB.
  destruct (indexOf_spec (arbFrames st) page)
    as [[Hidx Habsent]|(k & Hidx & Hk & _)]; rewrite Hidx.
  - rewrite decide_False by lia.
    destruct (decide (arbFramesFilled st < n)) as [Hroom|Hfull].
    + (* an empty frame is filled *)
      do 2 eexists. split; [done|].
      pose proof (indexOf_lower_bound (arbFrames st) (-1)).
      assert (0 ≤ Z.rem (indexOf (arbFrames st) (-1) + 1) n < n)
        by (apply rem_range; lia).
      split_and!; [|by simpl|simpl; lia|].
      * unfold arbShape. simpl. rewrite !arraySet_length.
        split_and!; [done|done|lia|lia|].
        apply Forall_arraySet; [done|by right].
      * intros Hpage Hfilled.
        destruct (first_empty st) as (e & He & -> & Hlook); [done..|].
        destruct Hfilled as [Hrange Hempty].
        rewrite !arraySet_nat.
        assert (e < length (arbFrames st))%nat by by eapply lookup_lt_Some.
        split_and!.
        -- split; simpl; [lia|]. intros k Hk.
           destruct (decide (k = e)) as [->|Hke].
           ++ rewrite list_lookup_insert_eq by done.
              split; [intros [=]; done|lia].
           ++ rewrite list_lookup_insert_ne by done.
              rewrite Hempty by done. lia.
        -- exists e. split; [done|]. simpl.
           by apply insert_differs_only_at with (-1).
        -- eexists. split; [done|]. simpl. exists e.
           split_and!; [done|by apply list_lookup_insert_eq|].
           apply list_lookup_insert_eq. lia.
        -- unfold resetIff. simpl. split; [done|].
           intros (_ & Hnone & _). destruct Hnone.
           by eapply list_elem_of_lookup_2.
    + (* the clock picks a victim *)
      destruct (sweep_spec n page (arbPointer st) (arbFrames st) Hn Hptr
                  (arbRefBits st) fuel Hblen H01 Hfuel)
        as (sw & -> & Hok & Hreset).
      destruct Hok as (_ & (v & Hrep & Hv & Hfr & Hbit) & Hl & Hb & Hp & _).
      do 2 eexists. split; [done|].
      split_and!; [|by simpl|simpl; lia|].
      * unfold arbShape. simpl. rewrite Hfr, length_insert, Hl. done.
      * intros Hpage [Hrange Hempty].
        assert (is_Some (arbFrames st !! v)) as [y Hy]
          by (apply lookup_lt_is_Some; lia).
        assert (∀ k : nat, Z.of_nat k < n → arbFrames st !! k ≠ Some (-1))
          as Hnone.
        { intros k Hk Hk'. apply Hempty in Hk'; lia. }
        split_and!.
        -- split; simpl; [lia|]. intros k Hk. rewrite Hfr.
           split; [|lia]. intros Hk'. exfalso.
           destruct (decide (k = v)) as [->|Hkv].
           ++ rewrite list_lookup_insert_eq in Hk' by lia. congruence.
           ++ rewrite list_lookup_insert_ne in Hk' by done.
              by eapply Hnone.
        -- exists v. split; [done|]. simpl. rewrite Hfr.
           apply insert_differs_only_at with y; [done|].
           intros ->. apply Habsent. by eapply list_elem_of_lookup_2.
        -- eexists. split; [done|]. simpl. exists v.
           split_and!; [done| |done].
           rewrite Hfr. apply list_lookup_insert_eq. lia.
        -- unfold resetIff. simpl. split.
           ++ intros [= Hr]. apply Hreset in Hr.
              split_and!; [done| |eauto].
              intros (k & Hk)%list_elem_of_lookup_1.
              eapply Hnone; [|done]. apply lookup_lt_Some in Hk. lia.
           ++ intros (_ & _ & bits & [= <-] & Hall). f_equal.
              by apply Hreset.
  - (* hit *)
    rewrite decide_True by lia.
    assert (k < length (arbFrames st))%nat by by eapply lookup_lt_Some.
    do 2 eexists. split; [done|].
    split_and!; [|by simpl|simpl; lia|].
    + unfold arbShape. simpl. rewrite arraySet_length.
      split_and!; [done|done|lia|lia|].
      apply Forall_arraySet; [done|by right].
    + intros Hpage Hfilled. split_and!; [done|done| |].
      * eexists. split; [done|]. simpl. exists k. split; [done|].
        rewrite arraySet_nat. apply list_lookup_insert_eq. lia.
      * unfold resetIff. simpl. split; [done|]. by intros [? _].
Qed.

(** The whole loop. *)
Lemma loopARB_spec fuel refString st :
  (Z.to_nat n + 1 ≤ fuel)%nat → arbShape n st →
  ∃ st' new, loopARB fuel n refString st = Some st'
    ∧ arbShape n st'
    ∧ steps (arbResult st') = steps (arbResult st) ++ new
    ∧ length new = length refString
    ∧ faults (arbResult st') + hits (arbResult st')
      = faults (arbResult st) + hits (arbResult st)
        + Z.of_nat (length refString)
    ∧ (Forall (λ p, p ≠ -1) refString → arbFilled n st →
       arbFilled n st'
       ∧ Forall (λ s, frameEffect s ∧ bitSetAfter s ∧ resetIff s) new).
Proof.
  intros Hfuel. revert st.
  induction refString as [|page rest IH]; intros st Hshape.
  - exists st, []. simpl.
    split_and!; [done|done|by rewrite app_nil_r|done|lia|done].
  - destruct (stepARB_spec fuel page st Hfuel Hshape)
      as (st1 & s & Hstep & Hshape1 & Hs & Hc & Hrest).
    destruct (IH st1 Hshape1)
      as (st' & new & Hloop & Hshape' & Hs' & Hl & Hc' & Hrest').
    exists st', (s :: new). simpl. rewrite Hstep.
    split_and!; [done|done| | |lia|].
    + rewrite Hs', Hs. by rewrite <-app_assoc.
    + by rewrite Hl.
    + intros [Hpage Hpages]%Forall_cons Hfilled.
      destruct (Hrest Hpage Hfilled) as (Hfilled1 & Hprops).
      destruct (Hrest' Hpages Hfilled1) as (Hfilled' & Hprops').
      split; [done|]. by constructor.
Qed.

Lemma simulateARB_spec fuel refString :
  (Z.to_nat n + 1 ≤ fuel)%nat →
  ∃ r, simulateARB fuel n refString = Some r
    ∧ length (steps r) = length refString
    ∧ faults r + hits r = Z.of_nat (length refString)
    ∧ (Forall (λ p, p ≠ -1) refString →
       Forall (λ s, frameEffect s ∧ bitSetAfter s ∧ resetIff s) (steps r)).
Proof.
  intros Hfuel.
  destruct (loopARB_spec fuel refString (initARB n) Hfuel initARB_shape)
    as (st' & new & Hloop & _ & Hs & Hl & Hc & Hrest).
  exists (arbResult st'). unfold simulateARB. rewrite Hloop.
  simpl in *. split_and!; [done|by rewrite Hs|lia|].
  intros Hpages. rewrite Hs. by apply Hrest, initARB_filled.
Qed.

(** More fuel does not change the outcome of a search, of a step or of
    the loop. *)
Lemma sweep_mono fuel fuel' page s frames bits p lc rb sw :
  (fuel ≤ fuel')%nat →
  sweep fuel n page s frames bits p lc rb = Some sw →
  sweep fuel' n page s frames bits p lc rb = Some sw.
Proof.
  revert fuel' bits p lc rb.
  induction fuel as [|fuel IH]; intros fuel' bits p lc rb Hle; [done|].
  destruct fuel' as [|fuel']; [lia|]. cbn [sweep].
  repeat case_decide; try done; apply IH; lia.
Qed.

Lemma stepARB_mono fuel fuel' page st st' :
  (fuel ≤ fuel')%nat →
  stepARB fuel n page st = Some st' → stepARB fuel' n page st = Some st'.
Proof.
  intros Hle. unfold stepARB. repeat case_decide; try done.
  destruct (sweep fuel _ _ _ _ _ _ _ _) as [sw|] eqn:Hsw; [|done].
  by rewrite (sweep_mono _ _ _ _ _ _ _ _ _ _ Hle Hsw).
Qed.

Lemma loopARB_mono fuel fuel' refString st st' :
  (fuel ≤ fuel')%nat →
  loopARB fuel n refString st = Some st' →
  loopARB fuel' n refString st = Some st'.
Proof.
  intros Hle. revert st.
  induction refString as [|page rest IH]; intros st; [done|]. simpl.
  destruct (stepARB fuel n page st) as [st1|] eqn:Hstep; [|done].
  rewrite (stepARB_mono _ _ _ _ _ Hle Hstep). apply IH.
Qed.

Lemma reachableARB_shape st : reachableARB n st → arbShape n st.
Proof.
  intros (fuel & refString & Hloop).
  apply (loopARB_mono _ (fuel + (Z.to_nat n + 1))) in Hloop; [|lia].
  destruct (loopARB_spec (fuel + (Z.to_nat n + 1)) refString (initARB n))
    as (st' & _ & Hloop' & Hshape & _); [lia|apply initARB_shape|].
  congruence.
Qed.
End arb_facts.

(* --------------------------------------------------------------------- *)
(** ** Page replacement: the stated properties *)
(* --------------------------------------------------------------------- *)

(** C1. For every frame count of at least 1 and every reference sequence,
    [simulateLRU] and [simulateARB] return a result whose faults and hits
    add up to the length of the reference sequence ([simulateARB] returns
    as soon as each victim search may run [frameCount + 1] iterations). *)
Theorem faults_plus_hits (frameCount : Z) (refString : list Z) :
  1 ≤ frameCount →
  faults (simulateLRU frameCount refString)
    + hits (simulateLRU frameCount refString)
  = Z.of_nat (length refString)
  ∧ ∀ fuel, (Z.to_nat frameCount + 1 ≤ fuel)%nat →
      ∃ r, simulateARB fuel frameCount refString = Some r
           ∧ faults r + hits r = Z.of_nat (length refString).
Proof.
  intros Hfc. split.
  - by destruct (simulateLRU_spec frameCount refString Hfc) as (_ & ? & _).
  - intros fuel Hfuel.
    destruct (simulateARB_spec frameCount Hfc fuel refString Hfuel)
      as (r & Hr & _ & Hc & _).
    by exists r.
Qed.

Lemma faults_plus_hits_witness :
  faults (simulateLRU 3 [7;0;1;2;0;3;0;4;2;3;0;3;2])
    + hits (simulateLRU 3 [7;0;1;2;0;3;0;4;2;3;0;3;2])
  = Z.of_nat (length [7;0;1;2;0;3;0;4;2;3;0;3;2]).
Proof.
  refine (proj1 (faults_plus_hits 3 [7;0;1;2;0;3;0;4;2;3;0;3;2] _)). lia.
Defined.

(** C2. On 3 frames and the references 7,0,1,2,0,3,0,4,2,3,0,3,2,
    [simulateLRU] counts 9 faults and 4 hits, and every fault on a full
    table replaces the frame at the front of the order list (the list the
    previous step recorded); the first step finds the table empty. *)
Theorem lru_textbook_scenario :
  let r := simulateLRU 3 [7;0;1;2;0;3;0;4;2;3;0;3;2] in
  faults r = 9 ∧ hits r = 4
  ∧ (∀ cur, steps r !! 0%nat = Some cur → includes (frames cur) (-1) = true)
  ∧ ∀ (k : nat) prev cur,
      steps r !! k = Some prev → steps r !! S k = Some cur →
      isFault cur = true → includes (frames cur) (-1) = false →
      ∃ v, replacedFrame cur = Some v
           ∧ orderOfUse prev ≫= head = Some (Some v).
Proof.
  cbv zeta. split_and!; [by vm_compute|by vm_compute| |].
  - intros cur Hcur. vm_compute in Hcur. by injection Hcur as <-.
  - intros k prev cur Hprev Hcur.
    do 13 (destruct k as [|k];
           [vm_compute in Hprev, Hcur;
            first [discriminate Hcur
                  |injection Hprev as <-; injection Hcur as <-;
                   vm_compute; intros Hf Hfull;
                   first [discriminate Hf|discriminate Hfull|eauto]]|]).
    vm_compute in Hcur. discriminate Hcur.
Qed.

(** C10. For every frame count of at least 1 and every sequence of
    non-negative references, every step of [simulateLRU] and of
    [simulateARB] leaves the frame table as it was on a hit, and on a fault
    changes it at exactly one index, the step's [replacedFrame]. *)
Theorem frame_effect (frameCount : Z) (refString : list Z) :
  1 ≤ frameCount → Forall (λ p, 0 ≤ p) refString →
  Forall frameEffect (steps (simulateLRU frameCount refString))
  ∧ ∀ fuel, (Z.to_nat frameCount + 1 ≤ fuel)%nat →
      ∃ r, simulateARB fuel frameCount refString = Some r
           ∧ Forall frameEffect (steps r).
Proof.
  intros Hfc Hpages. split.
  - by destruct (simulateLRU_spec frameCount refString Hfc) as (_ & _ & ?).
  - intros fuel Hfuel.
    destruct (simulateARB_spec frameCount Hfc fuel refString Hfuel)
      as (r & Hr & _ & _ & Hprops).
    exists r. split; [done|].
    eapply Forall_impl; [apply Hprops|by intros s (? & _)].
    eapply Forall_impl; [done|]. simpl. lia.
Qed.

Lemma frame_effect_witness :
  Forall frameEffect (steps (simulateLRU 3 [7;0;1;2;0;3;0;4;2;3;0;3;2])).
Proof.
  refine (proj1 (frame_effect 3 [7;0;1;2;0;3;0;4;2;3;0;3;2] _ _)).
  - lia.
  - repeat (constructor; [lia|]). constructor.
Defined.

(* --------------------------------------------------------------------- *)
(** ** Input validation *)
(* --------------------------------------------------------------------- *)

(** The rejections the specification lists for [validateMemoryInput], each
    with the message of its failure class. *)
Example memory_validator_rejections :
  validateMemoryInput "0" "7 0 1"
    = MemoryValidation.reject "Number of frames must be a positive integer"
  ∧ validateMemoryInput "-5" "7 0 1"
    = MemoryValidation.reject "Number of frames must be a positive integer"
  ∧ validateMemoryInput "abc" "7 0 1"
    = MemoryValidation.reject "Number of frames must be a positive integer"
  ∧ validateMemoryInput "3" ""
    = MemoryValidation.reject "Reference string is required"
  ∧ validateMemoryInput "3" "1 -2 3"
    = MemoryValidation.reject
        "Reference string must contain non-negative integers"
  ∧ validateMemoryInput "3" "1 x 3"
    = MemoryValidation.reject
        "Reference string must contain only numbers separated by spaces".
Proof. by vm_compute. Qed.

(** C5, where the code departs from it. The frame count 3 and the
    reference text 1.5 pass [validateMemoryInput]: the one token converts
    to the number 3/2, which is neither [NaN] nor negative, and no test
    asks for an integer. *)
Theorem memory_validator_accepts_fraction :
  JS.splitSpaces (JS.trim "1.5") = ["1.5"%string]
  ∧ JS.Number "1.5" = JS.Num (3 # 2)
  ∧ validateMemoryInput "3" "1.5"
    = {| MemoryValidation.valid := true;
         MemoryValidation.message := "";
         MemoryValidation.frameCount := Some 3;
         MemoryValidation.refArray := Some [JS.Num (3 # 2)] |}.
Proof. by vm_compute. Qed.

Section disk_validator_facts.
Lemma existsb_Exists_out_of_range (count : Z) (requests : list Z) :
  existsb (λ num, bool_decide (num < 0 ∨ count ≤ num)) requests = true
  ↔ Exists (λ r, r < 0 ∨ count - 1 < r) requests.
Proof.
  rewrite existsb_exists, Exists_exists. split.
  - intros (r & Hin%list_elem_of_In & Hr%bool_decide_eq_true).
    exists r. split; [done|lia].
  - intros (r & Hin & Hr). exists r.
    split; [by apply list_elem_of_In|]. apply bool_decide_eq_true. lia.
Qed.

Lemma mapM_id_fmap_Some (requests : list Z) :
  mapM id (Some <$> requests) = Some requests.
Proof.
  apply mapM_Some.
  by apply Forall2_fmap_l, Forall_Forall2_diag, Forall_true.
Qed.

Lemma mapM_id_Some_inv (l : list (option Z)) (requests : list Z) :
  mapM id l = Some requests → l = Some <$> requests.
Proof.
  intros H%mapM_Some. induction H as [|o r l k Ho _ IH]; [done|].
  simpl in *. by rewrite Ho, IH.
Qed.
End disk_validator_facts.

(** C9. Once the cylinder count is a positive integer [count] and the head
    position parses as the integer [head]: a head position of [count] or
    more is rejected with a message naming the range 0 to [count - 1]; with
    the head in range, a request queue of integers one of which lies
    outside [0, count - 1] is rejected with a message naming that range;
    and no input is accepted unless the head and every request lie in that
    range. *)
Theorem disk_range_rejections
    (cylinders headPosition requestQueue : string) (count head : Z) :
  JS.parseInt cylinders = Some count → 0 < count →
  JS.parseInt headPosition = Some head →
  (count ≤ head →
   validateDiskInput cylinders headPosition requestQueue
   = DiskValidation.reject
       ("Head position must be less than total cylinders (0-"
          +:+ JS.toString (count - 1) +:+ ")"))
  ∧ (0 ≤ head < count →
     ∀ requests,
       JS.trim requestQueue ≠ ""%string →
       parseRequests (JS.trim requestQueue) = Some <$> requests →
       Exists (λ r, r < 0 ∨ count - 1 < r) requests →
       validateDiskInput cylinders headPosition requestQueue
       = DiskValidation.reject
           ("Request queue must contain integers between 0 and "
              +:+ JS.toString (count - 1)))
  ∧ (DiskValidation.valid
       (validateDiskInput cylinders headPosition requestQueue) = true →
     0 ≤ head < count
     ∧ ∃ requests,
         parseRequests (JS.trim requestQueue) = Some <$> requests
         ∧ Forall (λ r, 0 ≤ r ≤ count - 1) requests).
Proof.
  intros Hcyl Hcount Hhead. unfold validateDiskInput.
  rewrite Hcyl, Hhead.
  rewrite (decide_False (P := count = 0 ∨ count ≤ 0)) by lia.
  split_and!.
  - intros Hge. rewrite decide_False by lia. by rewrite decide_True by lia.
  - intros Hin requests Hne Hparse Hout.
    rewrite decide_False by lia. rewrite decide_False by lia.
    rewrite decide_False by done.
    rewrite Hparse, mapM_id_fmap_Some.
    apply existsb_Exists_out_of_range in Hout. by rewrite Hout.
  - destruct (decide (head < 0)); [done|].
    destruct (decide (count ≤ head)); [done|].
    destruct (decide (JS.trim requestQueue = ""%string)); [done|].
    destruct (mapM id (parseRequests (JS.trim requestQueue)))
      as [requests|] eqn:Hparse; [|done].
    destruct (existsb _ requests) eqn:Hout; [done|]. intros _.
    split; [lia|]. exists requests.
    split; [by apply mapM_id_Some_inv|].
    apply Forall_forall. intros r Hr.
    destruct (decide (0 ≤ r ≤ count - 1)) as [|Hbad]; [done|].
    assert (existsb (λ num, bool_decide (num < 0 ∨ count ≤ num)) requests
            = true) as Hex; [|congruence].
    apply existsb_Exists_out_of_range, Exists_exists.
    exists r. split; [done|lia].
Qed.

Lemma disk_range_rejections_witness :
  validateDiskInput "200" "200" "82,170,43"
  = DiskValidation.reject
      ("Head position must be less than total cylinders (0-"
         +:+ JS.toString (200 - 1) +:+ ")").
Proof.
  refine (proj1 (disk_range_rejections "200" "200" "82,170,43" 200 200 _ _ _) _).
  - reflexivity.
  - lia.
  - reflexivity.
  - lia.
Defined.

(* --------------------------------------------------------------------- *)
(** ** Disk scheduling: further properties *)
(* --------------------------------------------------------------------- *)

Section disk_more_facts.
Implicit Types (st : DiskState) (reqs l : list Z).

Lemma higher_in_range cylinders start requests x :
  validDisk cylinders start requests →
  x ∈ higher start requests → start < x ≤ cylinders - 1.
Proof.
  intros (_ & _ & Hreq) [? Hx]%elem_of_higher.
  eapply Forall_forall in Hreq; [|done]. simpl in Hreq. lia.
Qed.

Lemma lower_in_range cylinders start requests x :
  validDisk cylinders start requests →
  x ∈ lower start requests → 0 ≤ x < start.
Proof.
  intros (_ & _ & Hreq) [? Hx]%elem_of_lower.
  eapply Forall_forall in Hreq; [|done]. simpl in Hreq. lia.
Qed.

Lemma sortedRequests_perm_eq requests requests' :
  requests ≡ₚ requests' → sortedRequests requests = sortedRequests requests'.
Proof.
  intros Hperm. apply (StronglySorted_unique Z.le);
    [apply sortedRequests_sorted..|].
  unfold sortedRequests. by rewrite !merge_sort_Permutation.
Qed.

Lemma split_around start requests :
  higher start requests ++ lower start requests
  ≡ₚ filter (λ r, r ≠ start) requests.
Proof.
  rewrite higher_perm, lower_perm.
  induction requests as [|r requests IH]; [done|].
  rewrite !filter_cons.
  destruct (decide (start < r)), (decide (r < start)), (decide (r ≠ start));
    try lia; simpl; rewrite <-?Permutation_middle; by rewrite IH.
Qed.

Lemma pathInv_init start : pathInv (initDisk start).
Proof. by split. Qed.

Lemma pathInv_visit delta req st : pathInv st → pathInv (visit delta req st).
Proof.
  intros [Hpath Hstep]. split; simpl.
  - unfold pathOf in *. rewrite imap_app, Hpath. simpl.
    rewrite Hstep. do 3 f_equal. lia.
  - rewrite length_app, Hstep. simpl. lia.
Qed.

Lemma pathInv_serve reqs st : pathInv st → pathInv (serve reqs st).
Proof.
  revert st. induction reqs as [|req reqs IH]; intros st Hst; [done|].
  simpl. by apply IH, pathInv_visit.
Qed.
End disk_more_facts.

Lemma sequence_in_range (cylinders start : Z) (requests : list Z)
    (dir : bool) :
  validDisk cylinders start requests →
  Forall (λ x, 0 ≤ x ≤ cylinders - 1)
         (sequence (simulateLOOK cylinders start requests dir))
  ∧ Forall (λ x, 0 ≤ x ≤ cylinders - 1)
           (sequence (simulateCSCAN cylinders start requests dir)).
Proof.
  intros Hvalid. pose proof Hvalid as (Hpos & Hs & _).
  assert (Forall (λ x, 0 ≤ x ≤ cylinders - 1) (higher start requests)) as Hhi.
  { apply Forall_forall. intros x Hx%(higher_in_range cylinders); [lia|done]. }
  assert (Forall (λ x, 0 ≤ x ≤ cylinders - 1) (lower start requests)) as Hlo.
  { apply Forall_forall. intros x Hx%(lower_in_range cylinders); [lia|done]. }
  assert (0 ≤ start ≤ cylinders - 1) as Hstart by lia.
  assert (0 ≤ 0 ≤ cylinders - 1) as H0 by lia.
  assert (0 ≤ cylinders - 1 ≤ cylinders - 1) as Hc by lia.
  split.
  - rewrite look_sequence. destruct dir;
      (constructor; [done|]); apply Forall_app;
      (split; [done || by apply Forall_reverse
              |done || by apply Forall_reverse]).
  - rewrite cscan_sequence. cbv zeta. destruct dir;
      (constructor; [done|]); apply Forall_app;
      (split; [done || by apply Forall_reverse|]);
      repeat case_decide; simpl;
      repeat (constructor; [done|]);
      try done; by apply Forall_reverse.
Qed.

(** X1. On a validated workload every cylinder LOOK and C-SCAN visit lies on
    the disk. *)
Theorem disk_sequence_in_range (cylinders start : Z) (requests : list Z)
    (dir : bool) :
  validDisk cylinders start requests →
  Forall (λ x, 0 ≤ x ≤ cylinders - 1)
         (sequence (simulateLOOK cylinders start requests dir))
  ∧ Forall (λ x, 0 ≤ x ≤ cylinders - 1)
           (sequence (simulateCSCAN cylinders start requests dir)).
Proof. exact (sequence_in_range cylinders start requests dir). Qed.

Lemma disk_sequence_in_range_witness :
  Forall (λ x, 0 ≤ x ≤ 200 - 1)
         (sequence (simulateCSCAN 200 50 [82;170;43;140;24;16;190] false)).
Proof.
  refine (proj2 (disk_sequence_in_range 200 50 [82;170;43;140;24;16;190]
                   false _)).
  unfold validDisk. split; [lia|]. split; [lia|].
  repeat (constructor; [lia|]). constructor.
Defined.

(** X2. When no request lies on the far side of the start cylinder (below it
    for the direction up, above it for the direction down), C-SCAN makes
    no boundary move and no jump: it returns what LOOK returns. *)
Theorem cscan_is_look_on_one_side (cylinders start : Z) (requests : list Z)
    (dir : bool) :
  Forall (λ r, if dir then start ≤ r else r ≤ start) requests →
  simulateCSCAN cylinders start requests dir
  = simulateLOOK cylinders start requests dir.
Proof.
  intros Hside. unfold simulateCSCAN, simulateLOOK.
  rewrite !serveIfAny_serve. destruct dir.
  - assert (lower start requests = []) as ->.
    { apply elem_of_nil_inv. intros x [Hx Hin]%elem_of_lower.
      eapply Forall_forall in Hside; [|done]. simpl in Hside. lia. }
    by rewrite decide_False by (simpl; lia).
  - assert (higher start requests = []) as ->.
    { apply elem_of_nil_inv. intros x [Hx Hin]%elem_of_higher.
      eapply Forall_forall in Hside; [|done]. simpl in Hside. lia. }
    by rewrite decide_False by (simpl; lia).
Qed.

Lemma cscan_is_look_on_one_side_witness :
  simulateCSCAN 200 50 [82;170;50;140] true
  = simulateLOOK 200 50 [82;170;50;140] true.
Proof.
  refine (cscan_is_look_on_one_side 200 50 [82;170;50;140] true _).
  repeat (constructor; [simpl; lia|]). constructor.
Defined.

(** X3. The order of the request queue does not matter: LOOK and C-SCAN return
    the same result on the queue rearranged. *)
Theorem disk_queue_order_irrelevant (cylinders start : Z)
    (requests requests' : list Z) (dir : bool) :
  requests ≡ₚ requests' →
  simulateLOOK cylinders start requests dir
  = simulateLOOK cylinders start requests' dir
  ∧ simulateCSCAN cylinders start requests dir
    = simulateCSCAN cylinders start requests' dir.
Proof.
  intros Hperm%sortedRequests_perm_eq.
  unfold simulateLOOK, simulateCSCAN, higher, lower. by rewrite Hperm.
Qed.

Lemma disk_queue_order_irrelevant_witness :
  simulateCSCAN 200 50 [82;170;43] true = simulateCSCAN 200 50 [43;82;170] true.
Proof.
  refine (proj2 (disk_queue_order_irrelevant 200 50 [82;170;43] [43;82;170]
                   true _)).
  symmetry. apply (Permutation_cons_append [82;170] 43).
Defined.

(** X4. Every request other than the start cylinder is served, as many times
    as it occurs in the queue: LOOK visits the start and exactly these;
    C-SCAN visits besides at most two more cylinders, each of them 0 or
    [cylinders - 1]. *)
Theorem disk_serves_every_request (cylinders start : Z) (requests : list Z)
    (dir : bool) :
  sequence (simulateLOOK cylinders start requests dir)
  ≡ₚ start :: filter (λ r, r ≠ start) requests
  ∧ ∃ extra,
      sequence (simulateCSCAN cylinders start requests dir)
      ≡ₚ start :: extra ++ filter (λ r, r ≠ start) requests
      ∧ (length extra ≤ 2)%nat
      ∧ Forall (λ x, x = 0 ∨ x = cylinders - 1) extra.
Proof.
  pose proof (split_around start requests) as Hsplit.
  split.
  - rewrite look_sequence. destruct dir.
    + by rewrite reverse_Permutation, Hsplit.
    + by rewrite reverse_Permutation, (comm (++)), Hsplit.
  - rewrite cscan_sequence. cbv zeta. destruct dir.
    + destruct (decide (0 < length (lower start requests))%nat) as [Hlo|Hlo].
      * set (B := if decide (_ < cylinders - 1) then [cylinders - 1] else []).
        exists (B ++ [0]). split_and!.
        -- constructor. rewrite <-Hsplit.
           rewrite (Permutation_app_comm (B ++ [0])), <-app_assoc.
           apply Permutation_app_head.
           rewrite (Permutation_app_comm (lower _ _)). by rewrite <-app_assoc.
        -- subst B. case_decide; simpl; lia.
        -- subst B. case_decide; simpl;
             repeat (apply Forall_cons; split; [lia|]); by apply Forall_nil.
      * exists []. split_and!; [|simpl; lia|done].
        destruct (lower start requests); [|simpl in Hlo; lia].
        simpl. by rewrite <-Hsplit.
    + destruct (decide (0 < length (higher start requests))%nat) as [Hhi|Hhi].
      * set (B := if decide (0 < _) then [0] else []).
        exists (B ++ [cylinders - 1]). split_and!.
        -- constructor. rewrite <-Hsplit, !reverse_Permutation.
           rewrite (Permutation_app_comm (higher _ _) (lower _ _)).
           rewrite (Permutation_app_comm (B ++ [cylinders - 1])), <-app_assoc.
           apply Permutation_app_head.
           rewrite (Permutation_app_comm (higher _ _)). by rewrite <-app_assoc.
        -- subst B. case_decide; simpl; lia.
        -- subst B. case_decide; simpl;
             repeat (apply Forall_cons; split; [lia|]); by apply Forall_nil.
      * exists []. split_and!; [|simpl; lia|done].
        destruct (higher start requests); [|simpl in Hhi; lia].
        simpl. rewrite app_nil_r, reverse_Permutation. by rewrite <-Hsplit.
Qed.

Lemma path_numbers_sequence (cylinders start : Z) (requests : list Z)
    (dir : bool) :
  path (simulateLOOK cylinders start requests dir)
  = pathOf (sequence (simulateLOOK cylinders start requests dir))
  ∧ path (simulateCSCAN cylinders start requests dir)
    = pathOf (sequence (simulateCSCAN cylinders start requests dir)).
Proof.
  split.
  - unfold simulateLOOK. rewrite !serveIfAny_serve.
    destruct dir; apply pathInv_serve, pathInv_serve, pathInv_init.
  - unfold simulateCSCAN.
    destruct dir; repeat case_decide;
      repeat first [apply pathInv_serve | apply pathInv_visit];
      apply pathInv_init.
Qed.

(** X5. The path of a result pairs each visited cylinder with its index in the
    sequence, for LOOK and for C-SCAN. *)
Theorem disk_path_numbers_sequence (cylinders start : Z) (requests : list Z)
    (dir : bool) :
  path (simulateLOOK cylinders start requests dir)
  = pathOf (sequence (simulateLOOK cylinders start requests dir))
  ∧ path (simulateCSCAN cylinders start requests dir)
    = pathOf (sequence (simulateCSCAN cylinders start requests dir)).
Proof. exact (path_numbers_sequence cylinders start requests dir). Qed.

Section disk_distance_facts.
Implicit Types (st : DiskState) (reqs l : list Z).

Lemma serve_seekDistance reqs st :
  seekDistance (result (serve reqs st))
  = seekDistance (result st) + pathLength (currentPosition st :: reqs).
Proof.
  revert st. induction reqs as [|req reqs IH]; intros st; [simpl; lia|].
  cbn [serve]. rewrite IH. simpl. lia.
Qed.

(** An ascending run costs the difference of its ends; so does a
    descending one. *)
Lemma pathLength_ascending a l :
  StronglySorted Z.le (a :: l) →
  pathLength (a :: l) = default a (last l) - a.
Proof.
  revert a. induction l as [|b l IH]; intros a Hs; [simpl; lia|].
  apply StronglySorted_cons in Hs as [Hall Hs].
  apply Forall_cons in Hall as [Hab _].
  change (pathLength (a :: b :: l))
    with (Z.abs (b - a) + pathLength (b :: l)).
  rewrite IH by done. rewrite last_cons.
  assert (b ≤ default b (last l)).
  { destruct (last l) as [z|] eqn:Hl; simpl; [|lia].
    apply last_Some_elem_of in Hl. apply StronglySorted_cons in Hs as [Hall _].
    by eapply Forall_forall in Hall. }
  destruct (last l); simpl in *; lia.
Qed.

Lemma pathLength_descending a l :
  StronglySorted (flip Z.le) (a :: l) →
  pathLength (a :: l) = a - default a (last l).
Proof.
  revert a. induction l as [|b l IH]; intros a Hs; [simpl; lia|].
  apply StronglySorted_cons in Hs as [Hall Hs].
  apply Forall_cons in Hall as [Hab _]. unfold flip in Hab.
  change (pathLength (a :: b :: l))
    with (Z.abs (b - a) + pathLength (b :: l)).
  rewrite IH by done. rewrite last_cons.
  assert (default b (last l) ≤ b).
  { destruct (last l) as [z|] eqn:Hl; simpl; [|lia].
    apply last_Some_elem_of in Hl. apply StronglySorted_cons in Hs as [Hall _].
    by eapply Forall_forall in Hall. }
  destruct (last l); simpl in *; lia.
Qed.

Lemma start_higher_sorted start requests :
  StronglySorted Z.le (start :: higher start requests).
Proof.
  apply StronglySorted_cons. split; [|apply higher_sorted].
  apply Forall_forall. intros x [? _]%elem_of_higher. lia.
Qed.

Lemma reverse_higher_sorted start requests :
  StronglySorted (flip Z.le) (reverse (higher start requests)).
Proof.
  apply Sorted_StronglySorted; [intros x y z; unfold flip; lia|].
  apply Sorted_reverse, StronglySorted_Sorted, higher_sorted.
Qed.

Lemma start_reverse_lower_sorted start requests :
  StronglySorted (flip Z.le) (start :: reverse (lower start requests)).
Proof.
  apply StronglySorted_cons. split; [|apply reverse_lower_sorted].
  apply Forall_forall. intros x [? _]%elem_of_reverse%elem_of_lower.
  unfold flip. lia.
Qed.

(** The ends of a sorted list are its least and greatest elements. *)
Lemma sorted_head_least l x :
  StronglySorted Z.le l → x ∈ l → (∀ y, y ∈ l → x ≤ y) → head l = Some x.
Proof.
  intros Hs Hx Hleast. destruct l as [|h t]; [by apply elem_of_nil in Hx|].
  simpl. f_equal. apply StronglySorted_cons in Hs as [Hall _].
  specialize (Hleast h ltac:(left)).
  apply elem_of_cons in Hx as [->|Hx]; [done|].
  eapply Forall_forall in Hall; [|done]. lia.
Qed.

Lemma sorted_last_greatest l x :
  StronglySorted Z.le l → x ∈ l → (∀ y, y ∈ l → y ≤ x) → last l = Some x.
Proof.
  intros Hs Hx Hgreatest.
  destruct (last l) as [z|] eqn:Hl;
    [|apply last_None in Hl; subst; by apply elem_of_nil in Hx].
  f_equal. pose proof (Hgreatest z (last_Some_elem_of _ _ Hl)).
  apply last_Some in Hl as [l' ->].
  apply elem_of_app in Hx as [Hx|Hx%list_elem_of_singleton]; [|done].
  pose proof (StronglySorted_app_1_elem_of Z.le l' [z] x z Hs Hx ltac:(left)).
  lia.
Qed.

Lemma maxCylinder_spec start requests :
  start ≤ maxCylinder start requests
  ∧ Forall (λ r, r ≤ maxCylinder start requests) requests
  ∧ (maxCylinder start requests = start
     ∨ maxCylinder start requests ∈ requests).
Proof.
  unfold maxCylinder. induction requests as [|r requests (IH1 & IH2 & IH3)];
    simpl; [by split_and!; [lia|constructor|left]|].
  split_and!; [lia| |].
  - constructor; [lia|]. eapply Forall_impl; [done|]. simpl. lia.
  - destruct (Z.max_spec r (foldr Z.max start requests)) as [[_ ->]|[_ ->]].
    + destruct IH3 as [?|?]; [by left|right; by right].
    + right. left.
Qed.

Lemma minCylinder_spec start requests :
  minCylinder start requests ≤ start
  ∧ Forall (λ r, minCylinder start requests ≤ r) requests
  ∧ (minCylinder start requests = start
     ∨ minCylinder start requests ∈ requests).
Proof.
  unfold minCylinder. induction requests as [|r requests (IH1 & IH2 & IH3)];
    simpl; [by split_and!; [lia|constructor|left]|].
  split_and!; [lia| |].
  - constructor; [lia|]. eapply Forall_impl; [done|]. simpl. lia.
  - destruct (Z.min_spec r (foldr Z.min start requests)) as [[_ ->]|[_ ->]].
    + right. left.
    + destruct IH3 as [?|?]; [by left|right; by right].
Qed.

(** The top of the upward sweep is the highest cylinder, the bottom of the
    downward sweep the lowest. *)
Lemma top_is_max start requests :
  default start (last (higher start requests)) = maxCylinder start requests.
Proof.
  destruct (maxCylinder_spec start requests) as (Hge & Hall & Hin).
  destruct (decide (maxCylinder start requests = start)) as [Heq|Hne].
  - assert (higher start requests = []) as ->; [|by rewrite Heq].
    apply elem_of_nil_inv. intros x [Hx Hxin]%elem_of_higher.
    eapply Forall_forall in Hall; [|done]. simpl in Hall. lia.
  - destruct Hin as [?|Hin]; [done|].
    rewrite (sorted_last_greatest _ (maxCylinder start requests)); [done|..].
    + apply higher_sorted.
    + apply elem_of_higher. split; [lia|done].
    + intros y [_ Hy]%elem_of_higher.
      by eapply Forall_forall in Hall.
Qed.

Lemma bottom_is_min start requests :
  default start (head (lower start requests)) = minCylinder start requests.
Proof.
  destruct (minCylinder_spec start requests) as (Hle & Hall & Hin).
  destruct (decide (minCylinder start requests = start)) as [Heq|Hne].
  - assert (lower start requests = []) as ->; [|by rewrite Heq].
    apply elem_of_nil_inv. intros x [Hx Hxin]%elem_of_lower.
    eapply Forall_forall in Hall; [|done]. simpl in Hall. lia.
  - destruct Hin as [?|Hin]; [done|].
    rewrite (sorted_head_least _ (minCylinder start requests)); [done|..].
    + apply lower_sorted.
    + apply elem_of_lower. split; [lia|done].
    + intros y [_ Hy]%elem_of_lower.
      by eapply Forall_forall in Hall.
Qed.

Lemma lower_nonempty_iff start requests :
  lower start requests ≠ [] ↔ minCylinder start requests < start.
Proof.
  destruct (minCylinder_spec start requests) as (Hle & Hall & Hin). split.
  - intros Hne. destruct (lower start requests) as [|x l] eqn:Hl; [done|].
    assert (x ∈ lower start requests) as [Hx Hxin]%elem_of_lower
      by (rewrite Hl; left).
    eapply Forall_forall in Hall; [|done]. simpl in Hall. lia.
  - intros Hlt Hnil. destruct Hin as [?|Hin]; [lia|].
    assert (minCylinder start requests ∈ lower start requests) as Hm
      by by apply elem_of_lower.
    rewrite Hnil in Hm. by apply elem_of_nil in Hm.
Qed.

Lemma higher_nonempty_iff start requests :
  higher start requests ≠ [] ↔ start < maxCylinder start requests.
Proof.
  destruct (maxCylinder_spec start requests) as (Hle & Hall & Hin). split.
  - intros Hne. destruct (higher start requests) as [|x l] eqn:Hl; [done|].
    assert (x ∈ higher start requests) as [Hx Hxin]%elem_of_higher
      by (rewrite Hl; left).
    eapply Forall_forall in Hall; [|done]. simpl in Hall. lia.
  - intros Hlt Hnil. destruct Hin as [?|Hin]; [lia|].
    assert (maxCylinder start requests ∈ higher start requests) as Hm
      by by apply elem_of_higher.
    rewrite Hnil in Hm. by apply elem_of_nil in Hm.
Qed.

Lemma sorted_last_max l l' d :
  StronglySorted Z.le l → l ≡ₚ l' → Forall (λ r, d ≤ r) l' →
  default d (last l) = maxCylinder d l'.
Proof.
  intros Hs Hperm Hge.
  destruct (maxCylinder_spec d l') as (Hd & Hall & Hin).
  destruct (last l) as [z|] eqn:Hl; simpl.
  - pose proof (last_Some_elem_of _ _ Hl) as Hz. rewrite Hperm in Hz.
    destruct Hin as [Heq|Hin].
    + eapply Forall_forall in Hall, Hge; [|done..]. simpl in *. lia.
    + assert (maxCylinder d l' ∈ l) as Hin' by by rewrite Hperm.
      rewrite (sorted_last_greatest l (maxCylinder d l')) in Hl;
        [congruence|done..|].
      intros y Hy. rewrite Hperm in Hy. by eapply Forall_forall in Hall.
  - apply last_None in Hl. subst l. apply Permutation_nil_l in Hperm.
    by subst l'.
Qed.

Lemma sorted_head_min l l' d :
  StronglySorted Z.le l → l ≡ₚ l' → Forall (λ r, r ≤ d) l' →
  default d (head l) = minCylinder d l'.
Proof.
  intros Hs Hperm Hle.
  destruct (minCylinder_spec d l') as (Hd & Hall & Hin).
  destruct (head l) as [z|] eqn:Hl; simpl.
  - pose proof (head_Some_elem_of _ _ Hl) as Hz. rewrite Hperm in Hz.
    destruct Hin as [Heq|Hin].
    + eapply Forall_forall in Hall, Hle; [|done..]. simpl in *. lia.
    + assert (minCylinder d l' ∈ l) as Hin' by by rewrite Hperm.
      rewrite (sorted_head_least l (minCylinder d l')) in Hl;
        [congruence|done..|].
      intros y Hy. rewrite Hperm in Hy. by eapply Forall_forall in Hall.
  - apply head_None in Hl. subst l. apply Permutation_nil_l in Hperm.
    by subst l'.
Qed.

(** The seek distance of LOOK, sweep by sweep. *)
Lemma look_seek_sweeps cylinders start requests dir :
  seekDistance (simulateLOOK cylinders start requests dir)
  = if dir
    then pathLength (start :: higher start requests)
         + pathLength (default start (last (higher start requests))
                         :: reverse (lower start requests))
    else pathLength (start :: reverse (lower start requests))
         + pathLength (default start (last (reverse (lower start requests)))
                         :: higher start requests).
Proof.
  unfold simulateLOOK. rewrite !serveIfAny_serve.
  destruct dir; rewrite !serve_seekDistance, serve_position; simpl; lia.
Qed.

(** The seek distance of C-SCAN and the length of the path it draws differ
    by the jump, when there is one. *)
Lemma cscan_path_length cylinders start requests dir :
  validDisk cylinders start requests →
  pathLength (sequence (simulateCSCAN cylinders start requests dir))
  = seekDistance (simulateCSCAN cylinders start requests dir)
    + (if decide (0 < length (if dir then lower start requests
                              else higher start requests))%nat
       then cylinders - 1 else 0).
Proof.
  intros Hvalid.
  pose proof (top_bounds _ _ _ Hvalid) as Htop.
  pose proof (bottom_bounds _ _ _ Hvalid) as Hbot.
  destruct Hvalid as (Hc & Hstart & _).
  unfold simulateCSCAN. destruct dir.
  - set (st1 := serve (higher start requests) (initDisk start)).
    assert (coherent 0 st1) as Hst1 by apply coherent_serve, coherent_init.
    assert (currentPosition st1 = default start (last (higher start requests)))
      as Hpos1 by apply serve_position.
    destruct (decide (0 < length (lower start requests))%nat);
      [|destruct Hst1 as [_ Hd]; lia].
    set (st2 := if decide (currentPosition st1 < cylinders - 1)
                then visit (Z.abs (cylinders - 1 - currentPosition st1))
                           (cylinders - 1) st1
                else st1).
    assert (coherent 0 st2 ∧ currentPosition st2 = cylinders - 1)
      as [Hst2 Hpos2].
    { subst st2.
      destruct (decide (currentPosition st1 < cylinders - 1));
        [|split; [done|lia]].
      split; [|done].
      replace 0 with (0 + Z.abs (cylinders - 1 - currentPosition st1)
                        - Z.abs (cylinders - 1 - currentPosition st1)) at 1
        by lia.
      by apply coherent_visit. }
    pose proof (coherent_visit 0 0 0 st2 Hst2) as Hst3.
    rewrite Hpos2 in Hst3.
    apply (coherent_serve _ (lower start requests)) in Hst3 as [_ Hd].
    lia.
  - set (st1 := serve (reverse (lower start requests)) (initDisk start)).
    assert (coherent 0 st1) as Hst1 by apply coherent_serve, coherent_init.
    assert (currentPosition st1
            = default start (last (reverse (lower start requests))))
      as Hpos1 by apply serve_position.
    destruct (decide (0 < length (higher start requests))%nat);
      [|destruct Hst1 as [_ Hd]; lia].
    set (st2 := if decide (0 < currentPosition st1)
                then visit (currentPosition st1) 0 st1
                else st1).
    assert (coherent 0 st2 ∧ currentPosition st2 = 0) as [Hst2 Hpos2].
    { subst st2.
      destruct (decide (0 < currentPosition st1)); [|split; [done|lia]].
      split; [|done].
      replace 0 with (0 + Z.abs (0 - currentPosition st1)
                        - currentPosition st1) at 1 by lia.
      by apply coherent_visit. }
    pose proof (coherent_visit 0 0 (cylinders - 1) st2 Hst2) as Hst3.
    rewrite Hpos2 in Hst3.
    apply (coherent_serve _ (reverse (higher start requests))) in Hst3
      as [_ Hd].
    lia.
Qed.

(** The seek distance of C-SCAN, sweep by sweep. *)
Lemma cscan_seek_sweeps cylinders start requests dir :
  validDisk cylinders start requests →
  seekDistance (simulateCSCAN cylinders start requests dir)
  = if dir then
      if decide (0 < length (lower start requests))%nat
      then (cylinders - 1 - start)
           + pathLength (0 :: lower start requests)
      else pathLength (start :: higher start requests)
    else
      if decide (0 < length (higher start requests))%nat
      then start + pathLength (cylinders - 1
                                 :: reverse (higher start requests))
      else pathLength (start :: reverse (lower start requests)).
Proof.
  intros Hvalid.
  pose proof (top_bounds _ _ _ Hvalid) as Htop.
  pose proof (bottom_bounds _ _ _ Hvalid) as Hbot.
  unfold simulateCSCAN. destruct dir.
  - case_decide; [|by rewrite serve_seekDistance].
    rewrite serve_seekDistance, serve_position.
    pose proof (pathLength_ascending _ _ (start_higher_sorted start requests))
      as Hup.
    destruct (decide (_ < cylinders - 1));
      cbn [visit result seekDistance currentPosition];
      rewrite serve_seekDistance; simpl (seekDistance _);
      simpl (currentPosition _); cbn [currentPosition initDisk] in *; lia.
  - case_decide; [|by rewrite serve_seekDistance].
    rewrite serve_seekDistance, serve_position.
    pose proof (pathLength_descending _ _
                  (start_reverse_lower_sorted start requests)) as Hdown.
    destruct (decide (0 < _));
      cbn [visit result seekDistance currentPosition];
      rewrite serve_seekDistance; simpl (seekDistance _);
      simpl (currentPosition _); cbn [currentPosition initDisk] in *; lia.
Qed.
End disk_distance_facts.

Lemma look_seek_closed_form (cylinders start : Z) (requests : list Z)
    (dir : bool) :
  let M := maxCylinder start requests in
  let m := minCylinder start requests in
  seekDistance (simulateLOOK cylinders start requests dir)
  = if dir
    then (M - start) + (if decide (m < start) then M - m else 0)
    else (start - m) + (if decide (start < M) then M - m else 0).
Proof.
  cbv zeta. rewrite look_seek_sweeps.
  pose proof (top_is_max start requests) as Htop.
  pose proof (bottom_is_min start requests) as Hbot.
  pose proof (lower_nonempty_iff start requests) as Hlo.
  pose proof (higher_nonempty_iff start requests) as Hhi.
  destruct (maxCylinder_spec start requests) as (HM & _ & _).
  destruct (minCylinder_spec start requests) as (Hm & _ & _).
  destruct dir.
  - rewrite (pathLength_ascending _ _ (start_higher_sorted start requests)).
    rewrite pathLength_descending.
    2:{ apply StronglySorted_cons. split; [|apply reverse_lower_sorted].
        apply Forall_forall. intros x [? _]%elem_of_reverse%elem_of_lower.
        unfold flip. lia. }
    rewrite last_reverse, Htop.
    destruct (lower start requests) as [|h l] eqn:Hl; simpl in *.
    + rewrite decide_False; [lia|]. intros ?%Hlo. done.
    + rewrite decide_True; [lia|]. by apply Hlo.
  - rewrite (pathLength_descending _ _
               (start_reverse_lower_sorted start requests)).
    rewrite pathLength_ascending.
    2:{ apply StronglySorted_cons. split; [|apply higher_sorted].
        apply Forall_forall. intros x [? _]%elem_of_higher.
        rewrite last_reverse. lia. }
    rewrite last_reverse, Hbot.
    destruct (higher start requests) as [|h l] eqn:Hl.
    + rewrite decide_False; [simpl; lia|]. intros ?%Hhi. done.
    + rewrite decide_True; [|by apply Hhi].
      destruct (last (h :: l)) eqn:Hlast; simpl in *; [lia|].
      by apply last_None in Hlast.
Qed.

(** X6. The seek distance of LOOK in closed form, [M] and [m] being the highest
    and the lowest cylinder among the start and the requests: going up
    first, the head climbs to [M] and, when a request lies below the
    start, comes down to [m]; going down first it is the mirror image. *)
Theorem look_seek_distance (cylinders start : Z) (requests : list Z)
    (dir : bool) :
  let M := maxCylinder start requests in
  let m := minCylinder start requests in
  seekDistance (simulateLOOK cylinders start requests dir)
  = if dir
    then (M - start) + (if decide (m < start) then M - m else 0)
    else (start - m) + (if decide (start < M) then M - m else 0).
Proof. exact (look_seek_closed_form cylinders start requests dir). Qed.

Lemma cscan_seek_closed_form (cylinders start : Z) (requests : list Z)
    (dir : bool) :
  validDisk cylinders start requests →
  seekDistance (simulateCSCAN cylinders start requests dir)
  = if dir then
      if decide (minCylinder start requests < start)
      then (cylinders - 1 - start)
           + maxCylinder 0 (filter (λ r, r < start) requests)
      else maxCylinder start requests - start
    else
      if decide (start < maxCylinder start requests)
      then start
           + (cylinders - 1
              - minCylinder (cylinders - 1) (filter (λ r, start < r) requests))
      else start - minCylinder start requests.
Proof.
  intros Hvalid. rewrite cscan_seek_sweeps by done.
  pose proof (lower_nonempty_iff start requests) as Hlo.
  pose proof (higher_nonempty_iff start requests) as Hhi.
  destruct dir.
  - destruct (lower start requests) as [|h l] eqn:Hl.
    + rewrite decide_False by (simpl; lia).
      rewrite decide_False by (intros ?%Hlo; done).
      rewrite (pathLength_ascending _ _ (start_higher_sorted start requests)).
      by rewrite top_is_max.
    + rewrite decide_True by (simpl; lia).
      rewrite decide_True by by apply Hlo.
      rewrite <-Hl. rewrite pathLength_ascending.
      2:{ apply StronglySorted_cons. split; [|apply lower_sorted].
          apply Forall_forall.
          intros x Hx%(lower_in_range cylinders); [lia|done]. }
      rewrite (sorted_last_max _ (filter (λ r, r < start) requests));
        [lia|apply lower_sorted|apply lower_perm|].
      apply Forall_forall. intros x [_ Hx]%list_elem_of_filter.
      destruct Hvalid as (_ & _ & Hreq).
      eapply Forall_forall in Hreq; [|done]. simpl in Hreq. lia.
  - destruct (higher start requests) as [|h l] eqn:Hl.
    + rewrite decide_False by (simpl; lia).
      rewrite decide_False by (intros ?%Hhi; done).
      rewrite (pathLength_descending _ _
                 (start_reverse_lower_sorted start requests)).
      by rewrite last_reverse, bottom_is_min.
    + rewrite decide_True by (simpl; lia).
      rewrite decide_True by by apply Hhi.
      rewrite <-Hl. rewrite pathLength_descending.
      2:{ apply StronglySorted_cons. split; [|apply reverse_higher_sorted].
          apply Forall_forall.
          intros x Hx%elem_of_reverse%(higher_in_range cylinders); [|done].
          unfold flip. lia. }
      rewrite last_reverse.
      rewrite (sorted_head_min _ (filter (λ r, start < r) requests));
        [lia|apply higher_sorted|apply higher_perm|].
      apply Forall_forall. intros x [_ Hx]%list_elem_of_filter.
      destruct Hvalid as (_ & _ & Hreq).
      eapply Forall_forall in Hreq; [|done]. simpl in Hreq. lia.
Qed.

(** X7. The seek distance of C-SCAN in closed form, on a validated workload.
    Going up first with a request below the start: up to the last cylinder,
    then from 0 up to the highest request below the start; with none below:
    up to the highest request. Going down first it is the mirror image. *)
Theorem cscan_seek_distance (cylinders start : Z) (requests : list Z)
    (dir : bool) :
  validDisk cylinders start requests →
  seekDistance (simulateCSCAN cylinders start requests dir)
  = if dir then
      if decide (minCylinder start requests < start)
      then (cylinders - 1 - start)
           + maxCylinder 0 (filter (λ r, r < start) requests)
      else maxCylinder start requests - start
    else
      if decide (start < maxCylinder start requests)
      then start
           + (cylinders - 1
              - minCylinder (cylinders - 1) (filter (λ r, start < r) requests))
      else start - minCylinder start requests.
Proof. exact (cscan_seek_closed_form cylinders start requests dir). Qed.

Lemma cscan_seek_distance_witness :
  seekDistance (simulateCSCAN 200 50 [82;170;43;140;24;16;190] true)
  = if decide (minCylinder 50 [82;170;43;140;24;16;190] < 50)
    then (200 - 1 - 50)
         + maxCylinder 0 (filter (λ r, r < 50) [82;170;43;140;24;16;190])
    else maxCylinder 50 [82;170;43;140;24;16;190] - 50.
Proof.
  refine (cscan_seek_distance 200 50 [82;170;43;140;24;16;190] true _).
  unfold validDisk. split; [lia|]. split; [lia|].
  repeat (constructor; [lia|]). constructor.
Defined.

Lemma seekDistance_bounds (cylinders start : Z) (requests : list Z)
    (dir : bool) :
  validDisk cylinders start requests →
  0 ≤ seekDistance (simulateLOOK cylinders start requests dir)
    ≤ 2 * (cylinders - 1)
  ∧ 0 ≤ seekDistance (simulateCSCAN cylinders start requests dir)
      ≤ cylinders - 1.
Proof.
  intros Hvalid.
  pose proof (look_seek_closed_form cylinders start requests dir) as Hlook.
  pose proof (cscan_seek_closed_form cylinders start requests dir Hvalid)
    as Hcscan.
  cbv zeta in Hlook. rewrite Hlook, Hcscan.
  destruct Hvalid as (Hc & Hstart & Hreq).
  destruct (maxCylinder_spec start requests) as (HM1 & _ & HM).
  destruct (minCylinder_spec start requests) as (Hm1 & _ & Hm).
  assert (maxCylinder start requests ≤ cylinders - 1).
  { destruct HM as [->|HM]; [lia|].
    eapply Forall_forall in Hreq; [|done]. simpl in Hreq. lia. }
  assert (0 ≤ minCylinder start requests).
  { destruct Hm as [->|Hm]; [lia|].
    eapply Forall_forall in Hreq; [|done]. simpl in Hreq. lia. }
  assert (0 ≤ maxCylinder 0 (filter (λ r, r < start) requests)
              ≤ Z.max 0 (start - 1)).
  { destruct (maxCylinder_spec 0 (filter (λ r, r < start) requests))
      as (? & _ & [->|[? _]%list_elem_of_filter]); lia. }
  assert (Z.min (cylinders - 1) (start + 1)
          ≤ minCylinder (cylinders - 1) (filter (λ r, start < r) requests)
          ≤ cylinders - 1).
  { destruct (minCylinder_spec (cylinders - 1)
                (filter (λ r, start < r) requests))
      as (? & _ & [->|[? _]%list_elem_of_filter]); lia. }
  destruct dir; repeat case_decide; lia.
Qed.

(** X8. On a validated workload the seek distance of LOOK lies between 0 and
    twice [cylinders - 1], and the seek distance of C-SCAN between 0 and
    [cylinders - 1]. *)
Theorem seek_distance_bounds (cylinders start : Z) (requests : list Z)
    (dir : bool) :
  validDisk cylinders start requests →
  0 ≤ seekDistance (simulateLOOK cylinders start requests dir)
    ≤ 2 * (cylinders - 1)
  ∧ 0 ≤ seekDistance (simulateCSCAN cylinders start requests dir)
      ≤ cylinders - 1.
Proof. exact (seekDistance_bounds cylinders start requests dir). Qed.

Lemma seek_distance_bounds_witness :
  0 ≤ seekDistance (simulateLOOK 200 50 [82;170;43;140;24;16;190] true)
    ≤ 2 * (200 - 1).
Proof.
  refine (proj1 (seek_distance_bounds 200 50 [82;170;43;140;24;16;190]
                   true _)).
  unfold validDisk. split; [lia|]. split; [lia|].
  repeat (constructor; [lia|]). constructor.
Defined.

(** X9. The mirror image of the upward C-SCAN trace. On a validated workload
    with initial direction down and a request strictly above the start
    cylinder, C-SCAN serves the strictly-lower requests in descending
    order, moves to cylinder 0 unless the head already stands there (a
    move that counts), jumps to cylinder [cylinders - 1] (a move that does
    not count), then serves the strictly-higher requests in descending
    order. *)
Theorem cscan_down_trace (cylinders start : Z) (requests : list Z) :
  validDisk cylinders start requests →
  (∃ r, r ∈ requests ∧ start < r) →
  let res := simulateCSCAN cylinders start requests false in
  let hi := reverse (higher start requests) in
  let lo := reverse (lower start requests) in
  let bottom := default start (last lo) in
  let boundary := if decide (bottom = 0) then [] else [0] in
  sequence res = start :: lo ++ boundary ++ (cylinders - 1) :: hi
  ∧ StronglySorted (flip Z.le) lo ∧ lo ≡ₚ filter (λ r, r < start) requests
  ∧ StronglySorted (flip Z.le) hi ∧ hi ≡ₚ filter (λ r, start < r) requests
  ∧ seekDistance res
    = pathLength (start :: lo ++ boundary)
      + pathLength (cylinders - 1 :: hi)
  ∧ seekDistance res
    = pathLength (sequence res) - Z.abs (cylinders - 1 - 0).
Proof.
  intros Hvalid (r & Hr & Hlt). cbv zeta.
  pose proof (bottom_bounds _ _ _ Hvalid) as Hbot.
  pose proof Hvalid as (Hc & Hstart & _).
  assert (0 < length (higher start requests))%nat as Hhi.
  { assert (r ∈ higher start requests) as Hin by by apply elem_of_higher.
    destruct (higher start requests); [by apply elem_of_nil in Hin|simpl; lia]. }
  split_and!.
  - rewrite (cscan_sequence cylinders start requests false). cbv zeta.
    rewrite decide_True by done. do 2 f_equal.
    repeat case_decide; (done || lia).
  - apply reverse_lower_sorted.
  - rewrite reverse_Permutation. apply lower_perm.
  - apply reverse_higher_sorted.
  - rewrite reverse_Permutation. apply higher_perm.
  - rewrite cscan_seek_sweeps by done. rewrite decide_True by done.
    f_equal.
    assert (∃ l', start :: reverse (lower start requests)
                  = l' ++ [default start
                             (last (reverse (lower start requests)))])
      as [l' Hl'].
    { apply last_Some. rewrite last_cons.
      by destruct (last (reverse (lower start requests))). }
    rewrite app_comm_cons, Hl', pathLength_app, <-Hl'.
    rewrite (pathLength_descending _ _
               (start_reverse_lower_sorted start requests)).
    case_decide; simpl; lia.
  - rewrite (cscan_path_length cylinders start requests false) by done.
    rewrite decide_True by done. lia.
Qed.

Lemma cscan_down_trace_witness :
  seekDistance (simulateCSCAN 200 50 [82;170;43;140;24;16;190] false)
  = pathLength (sequence
                  (simulateCSCAN 200 50 [82;170;43;140;24;16;190] false))
    - Z.abs (200 - 1 - 0).
Proof.
  refine (proj2 (proj2 (proj2 (proj2 (proj2 (proj2
    (cscan_down_trace 200 50 [82;170;43;140;24;16;190] _ _))))))).
  - unfold validDisk. split; [lia|]. split; [lia|].
    repeat (constructor; [lia|]). constructor.
  - exists 82. split; [left|lia].
Defined.

(* --------------------------------------------------------------------- *)
(** ** The disk visualization *)
(* --------------------------------------------------------------------- *)

Section seek_counter_facts.

Lemma take_snoc_last (seq : list Z) (j : nat) y :
  seq !! j = Some y → ∃ l', take (S j) seq = l' ++ [y].
Proof. intros Hy. exists (take j seq). by apply take_S_r. Qed.

Lemma seekDistanceSoFar_prefix (seq : list Z) (j : nat) :
  (S j ≤ length seq)%nat →
  seekDistanceSoFar seq (Z.of_nat (S j))
  = Some (pathLength (take (S j) seq)).
Proof.
  unfold seekDistanceSoFar.
  replace (Z.of_nat (S j) - 1) with (Z.of_nat j) by lia.
  induction j as [|j IH]; intros Hlen.
  - simpl. by destruct seq as [|? []].
  - rewrite seqZ_S, foldl_app, IH by lia. simpl.
    destruct (lookup_lt_is_Some_2 seq (S j)) as [x Hx]; [lia|].
    destruct (lookup_lt_is_Some_2 seq j) as [y Hy]; [lia|].
    replace (1 + Z.of_nat j) with (Z.of_nat (S j)) by lia.
    rewrite arrayGet_nat, Hx. simpl.
    replace (Z.of_nat (S j) - 1) with (Z.of_nat j) by lia.
    rewrite arrayGet_nat, Hy. simpl.
    rewrite (take_S_r seq (S j) x Hx).
    destruct (take_snoc_last seq j y Hy) as [l' ->].
    by rewrite pathLength_snoc.
Qed.
End seek_counter_facts.

Lemma seekDistanceSoFar_take (seq : list Z) (animationStep : Z) :
  1 ≤ animationStep ≤ Z.of_nat (length seq) →
  seekDistanceSoFar seq animationStep
  = Some (pathLength (take (Z.to_nat animationStep) seq)).
Proof.
  intros Hstep.
  destruct (Z.to_nat animationStep) as [|j] eqn:Hj; [lia|].
  replace animationStep with (Z.of_nat (S j)) by lia.
  apply seekDistanceSoFar_prefix. lia.
Qed.

(** X10. The counter "Seek Distance So Far" at an animation step within the
    sequence is the length of the path through the cylinders drawn so
    far. *)
Theorem seek_counter_is_path_length (seq : list Z) (animationStep : Z) :
  1 ≤ animationStep ≤ Z.of_nat (length seq) →
  seekDistanceSoFar seq animationStep
  = Some (pathLength (take (Z.to_nat animationStep) seq)).
Proof. exact (seekDistanceSoFar_take seq animationStep). Qed.

Lemma seek_counter_is_path_length_witness :
  seekDistanceSoFar [50; 82; 140; 43] 3
  = Some (pathLength (take (Z.to_nat 3) [50; 82; 140; 43])).
Proof.
  refine (seek_counter_is_path_length [50; 82; 140; 43] 3 _). simpl. lia.
Defined.

(** X11. At the last animation step the counter "Seek Distance So Far" equals
    the total [seekDistance] for LOOK; for C-SCAN on a validated workload
    it exceeds the total by [cylinders - 1] whenever the trace contains the
    jump (a request on the far side of the start), and equals it
    otherwise. *)
Theorem seek_counter_at_the_end (cylinders start : Z) (requests : list Z)
    (dir : bool) :
  validDisk cylinders start requests →
  let rl := simulateLOOK cylinders start requests dir in
  let rc := simulateCSCAN cylinders start requests dir in
  seekDistanceSoFar (sequence rl) (Z.of_nat (length (sequence rl)))
  = Some (seekDistance rl)
  ∧ seekDistanceSoFar (sequence rc) (Z.of_nat (length (sequence rc)))
    = Some (seekDistance rc
            + (if dir
               then if decide (minCylinder start requests < start)
                    then cylinders - 1 else 0
               else if decide (start < maxCylinder start requests)
                    then cylinders - 1 else 0)).
Proof.
  intros Hvalid. cbv zeta. split.
  - rewrite seekDistanceSoFar_take.
    2:{ rewrite look_sequence. destruct dir; simpl; lia. }
    rewrite Nat2Z.id, firstn_all. by rewrite look_seekDistance.
  - rewrite seekDistanceSoFar_take.
    2:{ rewrite cscan_sequence. destruct dir; simpl; lia. }
    rewrite Nat2Z.id, firstn_all.
    rewrite cscan_path_length by done. do 2 f_equal.
    pose proof (lower_nonempty_iff start requests) as Hlo.
    pose proof (higher_nonempty_iff start requests) as Hhi.
    destruct dir.
    + destruct (lower start requests) as [|h l] eqn:Hl.
      * rewrite decide_False by (simpl; lia).
        by rewrite decide_False by (intros ?%Hlo; done).
      * rewrite decide_True by (simpl; lia).
        by rewrite decide_True by by apply Hlo.
    + destruct (higher start requests) as [|h l] eqn:Hl.
      * rewrite decide_False by (simpl; lia).
        by rewrite decide_False by (intros ?%Hhi; done).
      * rewrite decide_True by (simpl; lia).
        by rewrite decide_True by by apply Hhi.
Qed.

Lemma seek_counter_at_the_end_witness :
  seekDistanceSoFar
    (sequence (simulateCSCAN 200 50 [82;170;43;140;24;16;190] true))
    (Z.of_nat (length
       (sequence (simulateCSCAN 200 50 [82;170;43;140;24;16;190] true))))
  = Some (seekDistance (simulateCSCAN 200 50 [82;170;43;140;24;16;190] true)
          + (if decide (minCylinder 50 [82;170;43;140;24;16;190] < 50)
             then 200 - 1 else 0)).
Proof.
  refine (proj2 (seek_counter_at_the_end 200 50 [82;170;43;140;24;16;190]
                   true _)).
  unfold validDisk. split; [lia|]. split; [lia|].
  repeat (constructor; [lia|]). constructor.
Defined.

(* --------------------------------------------------------------------- *)
(** ** Page replacement: the traces *)
(* --------------------------------------------------------------------- *)

Section trace_facts.
Implicit Types (l : list MemoryStep) (s : MemoryStep).

Lemma consecutive_nil P : consecutive P [].
Proof. by intros k prev cur Hk. Qed.

Lemma consecutive_snoc P l s :
  consecutive P l → (∀ prev, last l = Some prev → P prev s) →
  consecutive P (l ++ [s]).
Proof.
  intros Hl Hlast k prev cur Hprev Hcur.
  destruct (decide (S k < length l)%nat) as [Hlt|Hge].
  - rewrite lookup_app_l in Hprev, Hcur by lia. by eapply Hl.
  - assert (S k = length l) as Hk.
    { apply lookup_lt_Some in Hcur. rewrite length_app in Hcur.
      simpl in Hcur. lia. }
    rewrite lookup_app_l in Hprev by lia.
    rewrite lookup_app_r, Hk, Nat.sub_diag in Hcur by lia.
    injection Hcur as <-. apply Hlast.
    rewrite last_lookup, <-Hk. done.
Qed.

Lemma lookup_snoc_0 l s s0 :
  (l ++ [s]) !! 0%nat = Some s0 →
  (l = [] ∧ s0 = s) ∨ l !! 0%nat = Some s0.
Proof. destruct l; simpl; [intros [= ->]; by left|by right]. Qed.

Lemma countFaults_snoc l s :
  countFaults (l ++ [s]) = countFaults l + (if isFault s then 1 else 0).
Proof.
  unfold countFaults. rewrite filter_app, length_app, filter_cons, filter_nil.
  destruct (isFault s); simpl; lia.
Qed.

Lemma countHits_snoc l s :
  countHits (l ++ [s]) = countHits l + (if isFault s then 0 else 1).
Proof.
  unfold countHits. rewrite filter_app, length_app, filter_cons, filter_nil.
  destruct (isFault s); simpl; lia.
Qed.
End trace_facts.

Section lru_trace_facts.
Implicit Types (st : LRUState) (page : Z).

(** What one iteration of the loop of [simulateLRU] appends and changes. *)
Lemma stepLRU_emits page st :
  ∃ s, steps (lruResult (stepLRU page st)) = steps (lruResult st) ++ [s]
    ∧ reference s = page
    ∧ frames s = lruFrames st
    ∧ framesAfter s = lruFrames (stepLRU page st)
    ∧ orderOfUse s = Some (lruOrderOfUse (stepLRU page st))
    ∧ isFault s = bool_decide (page ∉ lruFrames st)
    ∧ faults (lruResult (stepLRU page st))
      = faults (lruResult st) + (if isFault s then 1 else 0)
    ∧ hits (lruResult (stepLRU page st))
      = hits (lruResult st) + (if isFault s then 0 else 1)
    ∧ replacedFrame s
      = (if isFault s
         then if includes (lruFrames st) (-1)
              then Some (indexOf (lruFrames st) (-1))
              else mjoin (head (lruOrderOfUse st))
         else None).
Proof.
  unfold stepLRU.
  destruct (indexOf_spec (lruFrames st) page)
    as [[-> Habsent]|(k & -> & Hk & _)].
  - rewrite decide_False by lia.
    destruct (includes (lruFrames st) (-1)) eqn:Hinc;
      eexists; (split; [done|]); simpl;
      rewrite bool_decide_eq_true_2 by done; split_and!; (done || lia).
  - rewrite decide_True by lia.
    assert (page ∈ lruFrames st) by by eapply list_elem_of_lookup_2.
    eexists; (split; [done|]); simpl.
    rewrite bool_decide_eq_false_2 by (by intros []). split_and!; (done || lia).
Qed.

Lemma loopLRU_ind (R : LRUState → Prop) refString st :
  R st → (∀ page st, page ∈ refString → R st → R (stepLRU page st)) →
  R (loopLRU refString st).
Proof.
  unfold loopLRU. revert st.
  induction refString as [|page rest IH]; intros st Hst Hstep; [done|].
  simpl. apply IH.
  - apply Hstep; [left|done].
  - intros page' st' Hin. apply Hstep. by right.
Qed.

Lemma stepLRU_frames_length page st :
  length (lruFrames (stepLRU page st)) = length (lruFrames st).
Proof.
  unfold stepLRU. repeat case_match; simpl; by rewrite ?arraySet_length.
Qed.

(** The table after a step of LRU holds the page referenced, on a table
    of at least one frame. *)
Lemma stepLRU_resident n page st :
  (0 < n)%nat → lruInv n st → page ∈ lruFrames (stepLRU page st).
Proof.
  intros Hn (Hlen & Horder & Hocc). unfold stepLRU.
  destruct (indexOf_spec (lruFrames st) page)
    as [[-> Habsent]|(k & -> & Hk & _)].
  - rewrite decide_False by lia.
    destruct (includes (lruFrames st) (-1)) eqn:Hinc; simpl.
    + apply includes_true, indexOf_present in Hinc as (e & -> & He & _).
      rewrite arraySet_nat. eapply list_elem_of_lookup_2.
      apply list_lookup_insert_eq. by eapply lookup_lt_Some.
    + assert ((-1) ∉ lruFrames st) as Hfull.
      { intros Hin%includes_true. congruence. }
      assert (Some (Z.of_nat 0) ∈ lruOrderOfUse st) as Hin.
      { apply Hocc; [done|]. intros H0. apply Hfull.
        by eapply list_elem_of_lookup_2. }
      destruct (lruOrderOfUse st) as [|o rest];
        [by apply elem_of_nil in Hin|].
      apply Forall_cons in Horder as [(r & -> & Hr) _]. simpl.
      rewrite arraySet_nat. eapply list_elem_of_lookup_2.
      apply list_lookup_insert_eq. lia.
  - rewrite decide_True by lia. simpl. by eapply list_elem_of_lookup_2.
Qed.

Lemma stepLRU_inv n page st :
  (0 < n)%nat → lruInv n st → lruInv n (stepLRU page st).
Proof.
  intros Hn Hinv. by destruct (stepLRU_spec n page st Hn Hinv) as (_ & ? & _).
Qed.
End lru_trace_facts.

Section arb_trace_facts.
Implicit Types (st : ARBState) (page : Z) (fuel : nat).

(** What a victim search does, however long it runs: it replaces one frame
    with the page, sets that frame's bit, and leaves the hand just after
    it. *)
Lemma sweep_structure fuel n page s frames bits p lc rb sw :
  sweep fuel n page s frames bits p lc rb = Some sw →
  ∃ v bits', swReplacedFrame sw = Some v
    ∧ swFrames sw = arraySet frames v page
    ∧ swRefBits sw = arraySet bits' v 1
    ∧ swPointer sw = Z.rem (v + 1) n.
Proof.
  revert bits p lc rb.
  induction fuel as [|fuel IH]; intros bits p lc rb; [done|].
  cbn [sweep]. repeat case_decide; try (by apply IH).
  all: intros [= <-]; by eexists _, _.
Qed.

Lemma elem_of_arraySet (a : list Z) (i : Z) (v x : Z) :
  x ∈ arraySet a i v → x = v ∨ x ∈ a.
Proof.
  unfold arraySet. case_decide; [|by right].
  intros (k & Hk)%list_elem_of_lookup_1.
  destruct (decide (k = Z.to_nat i)) as [->|Hne].
  - destruct (decide (Z.to_nat i < length a)%nat).
    + rewrite list_lookup_insert_eq in Hk by done. left. congruence.
    + rewrite list_insert_ge in Hk by lia. right.
      by eapply list_elem_of_lookup_2.
  - rewrite list_lookup_insert_ne in Hk by done. right.
    by eapply list_elem_of_lookup_2.
Qed.

(** What one iteration of the loop of [simulateARB] appends and changes. *)
Lemma stepARB_emits fuel n page st st' :
  stepARB fuel n page st = Some st' →
  ∃ s, steps (arbResult st') = steps (arbResult st) ++ [s]
    ∧ reference s = page
    ∧ frames s = arbFrames st
    ∧ framesAfter s = arbFrames st'
    ∧ refBits s = Some (arbRefBits st)
    ∧ refBitsAfter s = Some (arbRefBits st')
    ∧ pointerPosition s = Some (arbPointer st)
    ∧ pointerPositionAfter s = Some (arbPointer st')
    ∧ orderOfUse s = None
    ∧ isFault s = bool_decide (page ∉ arbFrames st)
    ∧ faults (arbResult st')
      = faults (arbResult st) + (if isFault s then 1 else 0)
    ∧ hits (arbResult st')
      = hits (arbResult st) + (if isFault s then 0 else 1)
    ∧ (isFault s = false →
       replacedFrame s = None ∧ arbPointer st' = arbPointer st)
    ∧ (isFault s = true →
       ∃ v, replacedFrame s = Some v
            ∧ arbFrames st' = arraySet (arbFrames st) v page
            ∧ arbPointer st' = Z.rem (v + 1) n).
Proof.
  unfold stepARB.
  destruct (indexOf_spec (arbFrames st) page)
    as [[-> Habsent]|(k & -> & Hk & _)].
  - rewrite decide_False by lia. case_decide.
    + intros [= <-]. eexists. split; [done|]. simpl.
      rewrite bool_decide_eq_true_2 by done.
      split_and!; try (done || lia). eauto.
    + destruct (sweep fuel _ _ _ _ _ _ _ _) as [sw|] eqn:Hsw; [|done].
      intros [= <-]. eexists. split; [done|]. simpl.
      rewrite bool_decide_eq_true_2 by done.
      split_and!; try (done || lia). intros _.
      apply sweep_structure in Hsw as (v & _ & -> & -> & _ & ->). eauto.
  - rewrite decide_True by lia.
    assert (page ∈ arbFrames st) by by eapply list_elem_of_lookup_2.
    intros [= <-]. eexists. split; [done|]. simpl.
    rewrite bool_decide_eq_false_2 by (by intros []).
    split_and!; (done || lia).
Qed.

Lemma loopARB_ind (R : ARBState → Prop) fuel n refString st st' :
  R st →
  (∀ page st st', page ∈ refString → R st →
     stepARB fuel n page st = Some st' → R st') →
  loopARB fuel n refString st = Some st' → R st'.
Proof.
  revert st. induction refString as [|page rest IH]; intros st Hst Hstep.
  - by intros [= <-].
  - simpl. destruct (stepARB fuel n page st) as [st1|] eqn:Hst1; [|done].
    apply IH.
    + eapply Hstep; [left|done..].
    + intros page' st2 st3 Hin. apply Hstep. by right.
Qed.

(** A property of the result of the loop, from a property every iteration
    preserves; the victim searches need [n + 1] iterations at most. *)
Lemma simulateARB_ind (R : ARBState → Prop) fuel n refString :
  1 ≤ n → (Z.to_nat n + 1 ≤ fuel)%nat →
  R (initARB n) →
  (∀ page st st', page ∈ refString → arbShape n st → R st →
     stepARB fuel n page st = Some st' → R st') →
  ∃ st', loopARB fuel n refString (initARB n) = Some st'
         ∧ simulateARB fuel n refString = Some (arbResult st')
         ∧ R st'.
Proof.
  intros Hn Hfuel Hinit Hstep.
  destruct (loopARB_spec n Hn fuel refString (initARB n) Hfuel
              (initARB_shape n Hn)) as (st' & _ & Hloop & _).
  exists st'. split; [done|]. split; [unfold simulateARB; by rewrite Hloop|].
  eapply (loopARB_ind (λ st, arbShape n st ∧ R st)); [| |done].
  - split; [by apply initARB_shape|done].
  - intros page st1 st2 Hin [Hshape HR] Hst. split; [|by eapply Hstep].
    destruct (stepARB_spec n Hn fuel page st1 Hfuel Hshape)
      as (st2' & _ & Hst' & ? & _).
    congruence.
Qed.
End arb_trace_facts.

Section trace_shape_facts.

Lemma traceShape_snoc n init now l s :
  length now = n → traceShape n init l → tableLinked init now l →
  frames s = now → length (framesAfter s) = n →
  isFault s = bool_decide (reference s ∉ frames s) →
  traceShape n init (l ++ [s]) ∧ tableLinked init (framesAfter s) (l ++ [s]).
Proof.
  intros Hlen (Hall & Hfirst & Hcons) Hlink Hfr Hlen' Hfault.
  unfold tableLinked in *. split; [|by rewrite last_snoc].
  split_and!.
  - apply Forall_app. split; [done|]. repeat constructor; congruence.
  - intros s0 [[-> ->]|H0]%lookup_snoc_0; [|by apply Hfirst].
    simpl in Hlink. congruence.
  - apply consecutive_snoc; [done|].
    intros prev Hprev. rewrite Hprev in Hlink. congruence.
Qed.

Lemma countFaults_countHits (l : list MemoryStep) :
  countFaults l + countHits l = Z.of_nat (length l).
Proof.
  unfold countFaults, countHits.
  induction l as [|s l IH]; [done|]. rewrite !filter_cons.
  destruct (isFault s); simpl in *; lia.
Qed.
End trace_shape_facts.

Section lru_results.
Variable frameCount : Z.
Variable refString : list Z.

Lemma loopLRU_references (st : LRUState) :
  ∃ new, steps (lruResult (loopLRU refString st))
         = steps (lruResult st) ++ new
         ∧ reference <$> new = refString.
Proof.
  unfold loopLRU. revert st.
  induction refString as [|page rest IH]; intros st.
  - exists []. by rewrite app_nil_r.
  - destruct (stepLRU_emits page st) as (s & Hs & Hpage & _).
    destruct (IH (stepLRU page st)) as (new & Hnew & Hrefs).
    exists (s :: new). split; [|by rewrite fmap_cons, Hpage, Hrefs].
    simpl. by rewrite Hnew, Hs, <-app_assoc.
Qed.

Lemma simulateLRU_counts :
  faults (simulateLRU frameCount refString)
  = countFaults (steps (simulateLRU frameCount refString))
  ∧ hits (simulateLRU frameCount refString)
    = countHits (steps (simulateLRU frameCount refString)).
Proof.
  unfold simulateLRU.
  apply (loopLRU_ind (λ st, faults (lruResult st)
                            = countFaults (steps (lruResult st))
                            ∧ hits (lruResult st)
                              = countHits (steps (lruResult st))));
    [done|].
  intros page st _ [Hf Hh].
  destruct (stepLRU_emits page st)
    as (s & -> & _ & _ & _ & _ & _ & -> & -> & _).
  rewrite countFaults_snoc, countHits_snoc. lia.
Qed.

Lemma simulateLRU_shape :
  traceShape (Z.to_nat frameCount) (newArray frameCount (-1))
             (steps (simulateLRU frameCount refString)).
Proof.
  unfold simulateLRU.
  apply (loopLRU_ind
           (λ st, length (lruFrames st) = Z.to_nat frameCount
                  ∧ traceShape (Z.to_nat frameCount)
                               (newArray frameCount (-1))
                               (steps (lruResult st))
                  ∧ tableLinked (newArray frameCount (-1)) (lruFrames st)
                                (steps (lruResult st)))).
  - split_and!; [apply newArray_length| |done].
    split_and!; [done|done|apply consecutive_nil].
  - intros page st _ (Hlen & Hshape & Hlink).
    destruct (stepLRU_emits page st)
      as (s & -> & Hpage & Hfr & Hafter & _ & Hfault & _).
    rewrite <-Hafter. split; [by rewrite Hafter, stepLRU_frames_length|].
    eapply traceShape_snoc; [done..| |].
    + by rewrite Hafter, stepLRU_frames_length.
    + by rewrite Hfault, Hpage, Hfr.
Qed.

Lemma simulateLRU_resident :
  1 ≤ frameCount →
  Forall (λ s, reference s ∈ framesAfter s)
         (steps (simulateLRU frameCount refString)).
Proof.
  intros Hfc. unfold simulateLRU.
  apply (loopLRU_ind
           (λ st, lruInv (Z.to_nat frameCount) st
                  ∧ Forall (λ s, reference s ∈ framesAfter s)
                           (steps (lruResult st)))).
  - split; [apply initLRU_inv|done].
  - intros page st _ [Hinv Hall].
    split; [apply stepLRU_inv; [lia|done]|].
    destruct (stepLRU_emits page st) as (s & -> & Hpage & _ & Hafter & _).
    apply Forall_app. split; [done|]. repeat constructor.
    rewrite Hpage, Hafter. eapply stepLRU_resident; [|done]. lia.
Qed.
End lru_results.

Section arb_results.
Variable frameCount : Z.
Hypothesis Hfc : 1 ≤ frameCount.
Variable refString : list Z.
Variable fuel : nat.
Hypothesis Hfuel : (Z.to_nat frameCount + 1 ≤ fuel)%nat.

Lemma loopARB_references (st st' : ARBState) :
  loopARB fuel frameCount refString st = Some st' →
  ∃ new, steps (arbResult st') = steps (arbResult st) ++ new
         ∧ reference <$> new = refString.
Proof.
  revert st. induction refString as [|page rest IH]; intros st.
  - intros [= <-]. exists []. by rewrite app_nil_r.
  - simpl. destruct (stepARB fuel frameCount page st) as [st1|] eqn:Hst1;
      [|done].
    intros Hloop.
    destruct (stepARB_emits _ _ _ _ _ Hst1) as (s & Hs & Hpage & _).
    destruct (IH st1 Hloop) as (new & Hnew & Hrefs).
    exists (s :: new). split; [|by rewrite fmap_cons, Hpage, Hrefs].
    by rewrite Hnew, Hs, <-app_assoc.
Qed.

Lemma simulateARB_counts_shape :
  ∃ r, simulateARB fuel frameCount refString = Some r
    ∧ reference <$> steps r = refString
    ∧ faults r = countFaults (steps r)
    ∧ hits r = countHits (steps r)
    ∧ traceShape (Z.to_nat frameCount) (newArray frameCount (-1)) (steps r).
Proof.
  destruct (simulateARB_ind
    (λ st, faults (arbResult st) = countFaults (steps (arbResult st))
           ∧ hits (arbResult st) = countHits (steps (arbResult st))
           ∧ traceShape (Z.to_nat frameCount) (newArray frameCount (-1))
                        (steps (arbResult st))
           ∧ tableLinked (newArray frameCount (-1)) (arbFrames st)
                         (steps (arbResult st)))
    fuel frameCount refString Hfc Hfuel)
    as (st' & Hloop & Hsim & Hf & Hh & Hshape & _).
  - split_and!; [done|done| |done].
    split_and!; [done|done|apply consecutive_nil].
  - intros page st st1 _ Hshape0 (Hf & Hh & Hshape & Hlink) Hst.
    pose proof Hshape0 as (Hlen & _).
    assert (arbShape frameCount st1) as (Hlen1 & _).
    { destruct (stepARB_spec frameCount Hfc fuel page st Hfuel Hshape0)
        as (st2 & _ & Hst2 & ? & _). congruence. }
    destruct (stepARB_emits _ _ _ _ _ Hst)
      as (s & -> & Hpage & Hfr & Hafter & _ & _ & _ & _ & _ & Hfault
          & -> & -> & _).
    rewrite countFaults_snoc, countHits_snoc.
    split; [lia|]. split; [lia|]. rewrite <-Hafter.
    eapply traceShape_snoc; [|done|done|done| |].
    + lia.
    + rewrite Hafter. lia.
    + by rewrite Hfault, Hpage, Hfr.
  - exists (arbResult st'). split_and!; [done| |done..].
    apply loopARB_references in Hloop as (new & Hnew & Hrefs).
    simpl in Hnew. by rewrite Hnew.
Qed.
End arb_results.

(** X12. The fault and hit totals of a result are the numbers of fault steps and
    of hit steps of its trace, for LRU and for ARB. *)
Theorem totals_count_the_steps (frameCount : Z) (refString : list Z) :
  1 ≤ frameCount →
  (faults (simulateLRU frameCount refString)
   = countFaults (steps (simulateLRU frameCount refString))
   ∧ hits (simulateLRU frameCount refString)
     = countHits (steps (simulateLRU frameCount refString)))
  ∧ ∀ fuel, (Z.to_nat frameCount + 1 ≤ fuel)%nat →
      ∃ r, simulateARB fuel frameCount refString = Some r
           ∧ faults r = countFaults (steps r)
           ∧ hits r = countHits (steps r).
Proof.
  intros Hfc. split; [apply simulateLRU_counts|].
  intros fuel Hfuel.
  destruct (simulateARB_counts_shape frameCount Hfc refString fuel Hfuel)
    as (r & ? & _ & ? & ? & _).
  by exists r.
Qed.

Lemma totals_count_the_steps_witness :
  faults (simulateLRU 3 [7;0;1;2;0;3;0;4;2;3;0;3;2])
  = countFaults (steps (simulateLRU 3 [7;0;1;2;0;3;0;4;2;3;0;3;2])).
Proof.
  refine (proj1 (proj1
    (totals_count_the_steps 3 [7;0;1;2;0;3;0;4;2;3;0;3;2] _))). lia.
Defined.

(** X13. A trace has one step per reference, in order; every snapshot of the
    frame table has [frameCount] slots; the first step starts from the
    empty table and every later one from the table its predecessor left;
    and a step is a fault exactly when its page is not in the table it
    starts from. For LRU and for ARB. *)
Theorem trace_is_well_formed (frameCount : Z) (refString : list Z) :
  1 ≤ frameCount →
  (reference <$> steps (simulateLRU frameCount refString) = refString
   ∧ traceShape (Z.to_nat frameCount) (newArray frameCount (-1))
                (steps (simulateLRU frameCount refString)))
  ∧ ∀ fuel, (Z.to_nat frameCount + 1 ≤ fuel)%nat →
      ∃ r, simulateARB fuel frameCount refString = Some r
           ∧ reference <$> steps r = refString
           ∧ traceShape (Z.to_nat frameCount) (newArray frameCount (-1))
                        (steps r).
Proof.
  intros Hfc. split.
  - split; [|apply simulateLRU_shape].
    destruct (loopLRU_references refString (initLRU frameCount))
      as (new & Hnew & Hrefs).
    unfold simulateLRU. by rewrite Hnew.
  - intros fuel Hfuel.
    destruct (simulateARB_counts_shape frameCount Hfc refString fuel Hfuel)
      as (r & ? & ? & _ & _ & ?).
    by exists r.
Qed.

Lemma trace_is_well_formed_witness :
  reference <$> steps (simulateLRU 3 [7;0;1;2;0;3;0;4;2;3;0;3;2])
  = [7;0;1;2;0;3;0;4;2;3;0;3;2].
Proof.
  refine (proj1 (proj1
    (trace_is_well_formed 3 [7;0;1;2;0;3;0;4;2;3;0;3;2] _))). lia.
Defined.

Section first_reference_facts.

Lemma stepLRU_frames_subset page st x :
  x ∈ lruFrames (stepLRU page st) → x = page ∨ x ∈ lruFrames st.
Proof.
  unfold stepLRU. repeat case_match; simpl; try (by right);
    apply elem_of_arraySet.
Qed.

Lemma stepARB_frames_subset fuel n page st st' x :
  stepARB fuel n page st = Some st' →
  x ∈ arbFrames st' → x = page ∨ x ∈ arbFrames st.
Proof.
  unfold stepARB. repeat case_decide.
  - intros [= <-]. by right.
  - intros [= <-]. apply elem_of_arraySet.
  - destruct (sweep fuel _ _ _ _ _ _ _ _) as [sw|] eqn:Hsw; [|done].
    intros [= <-]. simpl.
    apply sweep_structure in Hsw as (v & _ & _ & -> & _).
    apply elem_of_arraySet.
Qed.

Lemma residentsWereReferenced_snoc (now : list Z) l s :
  residentsWereReferenced l →
  (∀ p, p ∈ now → p ≠ -1 → p ∈ reference <$> l) →
  frames s = now →
  residentsWereReferenced (l ++ [s]).
Proof.
  intros Hl Hnow Hfr k s0 Hk p Hp Hne.
  destruct (decide (k < length l)%nat) as [Hlt|Hge].
  - rewrite lookup_app_l in Hk by done.
    rewrite take_app_le by lia. by eapply Hl.
  - assert (k = length l) as ->.
    { apply lookup_lt_Some in Hk. rewrite length_app in Hk. simpl in Hk. lia. }
    rewrite lookup_app_r, Nat.sub_diag in Hk by lia. injection Hk as <-.
    rewrite take_app_length. apply Hnow; [congruence|done].
Qed.

Lemma simulateLRU_residents frameCount refString :
  residentsWereReferenced (steps (simulateLRU frameCount refString)).
Proof.
  unfold simulateLRU.
  apply (loopLRU_ind
           (λ st, residentsWereReferenced (steps (lruResult st))
                  ∧ tableLinked (newArray frameCount (-1)) (lruFrames st)
                                (steps (lruResult st))
                  ∧ ∀ p, p ∈ lruFrames st → p ≠ -1 →
                         p ∈ reference <$> steps (lruResult st))).
  - split_and!; [by intros k s Hk|done|].
    intros p Hp Hne. simpl in Hp. unfold newArray in Hp.
    by apply elem_of_replicate in Hp as [-> _].
  - intros page st _ (Hres & Hlink & Hnow).
    destruct (stepLRU_emits page st) as (s & -> & Hpage & Hfr & Hafter & _).
    split_and!.
    + by eapply residentsWereReferenced_snoc.
    + unfold tableLinked. by rewrite last_snoc.
    + intros p [->|Hp]%stepLRU_frames_subset Hne;
        rewrite fmap_app, elem_of_app; [right|left; by apply Hnow].
      rewrite <-Hpage. left.
Qed.

Lemma simulateARB_residents frameCount refString fuel :
  1 ≤ frameCount → (Z.to_nat frameCount + 1 ≤ fuel)%nat →
  ∃ r, simulateARB fuel frameCount refString = Some r
       ∧ residentsWereReferenced (steps r).
Proof.
  intros Hfc Hfuel.
  destruct (simulateARB_ind
    (λ st, residentsWereReferenced (steps (arbResult st))
           ∧ ∀ p, p ∈ arbFrames st → p ≠ -1 →
                  p ∈ reference <$> steps (arbResult st))
    fuel frameCount refString Hfc Hfuel)
    as (st' & _ & Hsim & Hres & _).
  - split; [by intros k s Hk|].
    intros p Hp Hne. simpl in Hp. unfold newArray in Hp.
    by apply elem_of_replicate in Hp as [-> _].
  - intros page st st1 _ _ (Hres & Hnow) Hst.
    destruct (stepARB_emits _ _ _ _ _ Hst) as (s & -> & Hpage & Hfr & _).
    split.
    + by eapply residentsWereReferenced_snoc.
    + intros p [->|Hp]%(stepARB_frames_subset _ _ _ _ _ _ Hst) Hne;
        rewrite fmap_app, elem_of_app; [right|left; by apply Hnow].
      rewrite <-Hpage. left.
  - by exists (arbResult st').
Qed.

Lemma first_reference_is_fault n init refString (l : list MemoryStep) :
  reference <$> l = refString → traceShape n init l →
  residentsWereReferenced l →
  ∀ (k : nat) s, l !! k = Some s → reference s ≠ -1 →
    reference s ∉ take k refString → isFault s = true.
Proof.
  intros Hrefs (Hall & _) Hres k s Hk Hne Hnew.
  eapply Forall_lookup_1 in Hall as (_ & _ & ->); [|done].
  apply bool_decide_eq_true. intros Hin. apply Hnew.
  rewrite <-Hrefs, <-fmap_take. by eapply Hres.
Qed.
End first_reference_facts.

(** X14. A page that no earlier reference named always faults (a compulsory
    miss), under LRU and under ARB, for non-negative references. *)
Theorem first_reference_faults (frameCount : Z) (refString : list Z) :
  1 ≤ frameCount → Forall (λ p, 0 ≤ p) refString →
  (∀ (k : nat) s, steps (simulateLRU frameCount refString) !! k = Some s →
     reference s ∉ take k refString → isFault s = true)
  ∧ ∀ fuel, (Z.to_nat frameCount + 1 ≤ fuel)%nat →
      ∃ r, simulateARB fuel frameCount refString = Some r
           ∧ ∀ (k : nat) s, steps r !! k = Some s →
               reference s ∉ take k refString → isFault s = true.
Proof.
  intros Hfc Hpages.
  assert (∀ l, reference <$> l = refString →
            ∀ (k : nat) s, l !! k = Some s → reference s ≠ -1) as Hne.
  { intros l Hl k s Hk.
    assert (reference s ∈ refString) as Hin.
    { rewrite <-Hl. apply list_elem_of_fmap. exists s. split; [done|].
      by eapply list_elem_of_lookup_2. }
    eapply Forall_forall in Hpages; [|done]. simpl in Hpages. lia. }
  split.
  - destruct (loopLRU_references refString (initLRU frameCount))
      as (new & Hnew & Hrefs).
    intros k s Hk. eapply first_reference_is_fault; [..|done|].
    + unfold simulateLRU. rewrite Hnew. done.
    + apply simulateLRU_shape.
    + apply simulateLRU_residents.
    + eapply Hne; [|done]. unfold simulateLRU. by rewrite Hnew.
  - intros fuel Hfuel.
    destruct (simulateARB_counts_shape frameCount Hfc refString fuel Hfuel)
      as (r & Hr & Hrefs & _ & _ & Hshape).
    destruct (simulateARB_residents frameCount refString fuel Hfc Hfuel)
      as (r' & Hr' & Hres).
    assert (r' = r) as -> by congruence.
    exists r. split; [done|].
    intros k s Hk. eapply first_reference_is_fault; [done..|].
    by eapply Hne.
Qed.

Lemma first_reference_faults_witness :
  ∃ r, simulateARB 4%nat 3 [7;0;1;2;0;3;0;4;2;3;0;3;2] = Some r
       ∧ ∀ (k : nat) s, steps r !! k = Some s →
           reference s ∉ take k [7;0;1;2;0;3;0;4;2;3;0;3;2] →
           isFault s = true.
Proof.
  refine (proj2 (first_reference_faults 3 [7;0;1;2;0;3;0;4;2;3;0;3;2] _ _)
            4%nat _).
  - lia.
  - repeat (constructor; [lia|]). constructor.
  - simpl. lia.
Defined.

(** X15. After every step the page referenced is in the frame table: under LRU
    for every reference sequence, under ARB for non-negative references. *)
Theorem referenced_page_is_resident (frameCount : Z) (refString : list Z) :
  1 ≤ frameCount →
  Forall (λ s, reference s ∈ framesAfter s)
         (steps (simulateLRU frameCount refString))
  ∧ (Forall (λ p, 0 ≤ p) refString →
     ∀ fuel, (Z.to_nat frameCount + 1 ≤ fuel)%nat →
       ∃ r, simulateARB fuel frameCount refString = Some r
            ∧ Forall (λ s, reference s ∈ framesAfter s) (steps r)).
Proof.
  intros Hfc. split; [by apply simulateLRU_resident|].
  intros Hpages fuel Hfuel.
  destruct (simulateARB_spec frameCount Hfc fuel refString Hfuel)
    as (r & Hr & _ & _ & Hprops).
  destruct (simulateARB_counts_shape frameCount Hfc refString fuel Hfuel)
    as (r' & Hr' & _ & _ & _ & (Hshape & _)).
  assert (r' = r) as -> by congruence.
  exists r. split; [done|].
  assert (Forall (λ p, p ≠ -1) refString) as Hne.
  { eapply Forall_impl; [done|]. simpl. lia. }
  specialize (Hprops Hne).
  apply Forall_forall. intros s Hs.
  eapply Forall_forall in Hprops as (Heff & (bits & _ & Hbit) & _); [|done].
  eapply Forall_forall in Hshape as (_ & _ & Hfault); [|done].
  unfold frameEffect in Heff. destruct (isFault s).
  - destruct Hbit as (v & _ & Hv & _). by eapply list_elem_of_lookup_2.
  - rewrite Heff. symmetry in Hfault.
    apply bool_decide_eq_false in Hfault. by apply dec_stable.
Qed.

Lemma referenced_page_is_resident_witness :
  Forall (λ s, reference s ∈ framesAfter s)
         (steps (simulateLRU 3 [7;0;1;2;0;3;0;4;2;3;0;3;2])).
Proof.
  refine (proj1
    (referenced_page_is_resident 3 [7;0;1;2;0;3;0;4;2;3;0;3;2] _)). lia.
Defined.

(* --------------------------------------------------------------------- *)
(** ** The memory visualization *)
(* --------------------------------------------------------------------- *)

Section shown_counters_facts.

Lemma slice0_prefix {A} (a : list A) (c : Z) :
  0 ≤ c < Z.of_nat (length a) →
  length (slice0 a (c + 1)) = Z.to_nat (c + 1).
Proof.
  intros Hc. unfold slice0. rewrite decide_True by lia.
  rewrite length_take. lia.
Qed.

Lemma slice0_all {A} (a : list A) :
  slice0 a (Z.of_nat (length a) - 1 + 1) = a.
Proof.
  unfold slice0. rewrite decide_True by lia.
  replace (Z.of_nat (length a) - 1 + 1) with (Z.of_nat (length a)) by lia.
  by rewrite Nat2Z.id, firstn_all.
Qed.

Lemma shown_counters (r : MemoryResult) :
  faults r = countFaults (steps r) → hits r = countHits (steps r) →
  (∀ c, 0 ≤ c < Z.of_nat (length (steps r)) →
        currentFaults r c + currentHits r c = c + 1)
  ∧ currentFaults r (Z.of_nat (length (steps r)) - 1) = faults r
  ∧ currentHits r (Z.of_nat (length (steps r)) - 1) = hits r.
Proof.
  intros Hf Hh. unfold currentFaults, currentHits. split_and!.
  - intros c Hc.
    pose proof (countFaults_countHits (slice0 (steps r) (c + 1))) as Hsum.
    unfold countFaults, countHits in Hsum. rewrite Hsum.
    rewrite slice0_prefix by done. lia.
  - by rewrite slice0_all, Hf.
  - by rewrite slice0_all, Hh.
Qed.
End shown_counters_facts.

(** X16. The fault and hit counters the memory visualization shows at a step
    add up to the number of steps shown, and at the last step they are the
    totals [faults] and [hits] of the result, for LRU and for ARB. *)
Theorem shown_counters_reach_totals (frameCount : Z) (refString : list Z) :
  1 ≤ frameCount →
  (let r := simulateLRU frameCount refString in
   (∀ c, 0 ≤ c < Z.of_nat (length (steps r)) →
         currentFaults r c + currentHits r c = c + 1)
   ∧ currentFaults r (Z.of_nat (length (steps r)) - 1) = faults r
   ∧ currentHits r (Z.of_nat (length (steps r)) - 1) = hits r)
  ∧ ∀ fuel, (Z.to_nat frameCount + 1 ≤ fuel)%nat →
      ∃ r, simulateARB fuel frameCount refString = Some r
        ∧ (∀ c, 0 ≤ c < Z.of_nat (length (steps r)) →
                currentFaults r c + currentHits r c = c + 1)
        ∧ currentFaults r (Z.of_nat (length (steps r)) - 1) = faults r
        ∧ currentHits r (Z.of_nat (length (steps r)) - 1) = hits r.
Proof.
  intros Hfc. split.
  - cbv zeta. apply shown_counters; apply simulateLRU_counts.
  - intros fuel Hfuel.
    destruct (simulateARB_counts_shape frameCount Hfc refString fuel Hfuel)
      as (r & Hr & _ & Hf & Hh & _).
    exists r. split; [done|]. by apply shown_counters.
Qed.

Lemma shown_counters_reach_totals_witness :
  ∃ r, simulateARB 4%nat 3 [7;0;1;2;0;3;0;4;2;3;0;3;2] = Some r
    ∧ (∀ c, 0 ≤ c < Z.of_nat (length (steps r)) →
            currentFaults r c + currentHits r c = c + 1)
    ∧ currentFaults r (Z.of_nat (length (steps r)) - 1) = faults r
    ∧ currentHits r (Z.of_nat (length (steps r)) - 1) = hits r.
Proof.
  refine (proj2 (shown_counters_reach_totals 3 [7;0;1;2;0;3;0;4;2;3;0;3;2] _)
            4%nat _).
  - lia.
  - simpl. lia.
Defined.

(* --------------------------------------------------------------------- *)
(** ** Page replacement: the frame table *)
(* --------------------------------------------------------------------- *)

Section table_facts.

Lemma NoDup_residentPages_arraySet (a : list Z) (i page : Z) :
  NoDup (residentPages a) → page ∉ a →
  NoDup (residentPages (arraySet a i page)).
Proof.
  intros Hnd Hfresh. unfold arraySet. case_decide; [|done].
  destruct (decide (Z.to_nat i < length a)%nat) as [Hlt|Hge];
    [|by rewrite list_insert_ge by lia].
  rewrite insert_take_drop by done.
  destruct (lookup_lt_is_Some_2 a (Z.to_nat i) Hlt) as [x Hx].
  rewrite <-(take_drop_middle a (Z.to_nat i) x Hx) in Hnd, Hfresh.
  unfold residentPages in *. rewrite filter_app in *.
  set (before := take (Z.to_nat i) a) in *.
  set (after := drop (S (Z.to_nat i)) a) in *.
  apply NoDup_app in Hnd as (Hnd1 & Hdisj & Hnd2).
  assert (filter (λ p, p ≠ -1) after
          `sublist_of` filter (λ p, p ≠ -1) (x :: after)) as Hsub.
  { rewrite filter_cons. case_decide; [by apply sublist_cons|done]. }
  assert ((page ∉ before) ∧ (page ∉ after)) as [Hb Ha].
  { rewrite elem_of_app, elem_of_cons in Hfresh. tauto. }
  apply NoDup_app. split_and!; [done| |].
  - intros y Hy Hin. rewrite filter_cons in Hin.
    assert (y ∈ filter (λ p, p ≠ -1) after → False) as Hno.
    { intros Hya. eapply Hdisj; [done|]. by eapply elem_of_sublist. }
    case_decide; [|done].
    apply elem_of_cons in Hin as [->|Hin]; [|done].
    apply list_elem_of_filter in Hy as [_ Hy]. done.
  - rewrite filter_cons.
    assert (NoDup (filter (λ p, p ≠ -1) after)) by by eapply sublist_NoDup.
    case_decide; [|done]. apply NoDup_cons. split; [|done].
    intros [_ ?]%list_elem_of_filter. done.
Qed.

Lemma stepLRU_frames_cases page st :
  lruFrames (stepLRU page st) = lruFrames st
  ∨ ((page ∉ lruFrames st)
     ∧ ∃ i, lruFrames (stepLRU page st) = arraySet (lruFrames st) i page).
Proof.
  unfold stepLRU.
  destruct (indexOf_spec (lruFrames st) page)
    as [[-> Habsent]|(k & -> & Hk & _)].
  - rewrite decide_False by lia. repeat case_match; simpl; eauto.
  - rewrite decide_True by lia. by left.
Qed.

Lemma stepARB_frames_cases fuel n page st st' :
  stepARB fuel n page st = Some st' →
  arbFrames st' = arbFrames st
  ∨ ((page ∉ arbFrames st)
     ∧ ∃ i, arbFrames st' = arraySet (arbFrames st) i page).
Proof.
  unfold stepARB.
  destruct (indexOf_spec (arbFrames st) page)
    as [[-> Habsent]|(k & -> & Hk & _)].
  - rewrite decide_False by lia. case_decide.
    + intros [= <-]. simpl. eauto.
    + destruct (sweep fuel _ _ _ _ _ _ _ _) as [sw|] eqn:Hsw; [|done].
      intros [= <-]. simpl.
      apply sweep_structure in Hsw as (v & _ & _ & -> & _). eauto.
  - rewrite decide_True by lia. intros [= <-]. by left.
Qed.
End table_facts.

(** X17. No page is ever in two frames at once: in every step of LRU and of ARB
    the pages resident after the step are pairwise distinct. *)
Theorem no_page_held_twice (frameCount : Z) (refString : list Z) :
  1 ≤ frameCount →
  Forall (λ s, NoDup (residentPages (framesAfter s)))
         (steps (simulateLRU frameCount refString))
  ∧ ∀ fuel, (Z.to_nat frameCount + 1 ≤ fuel)%nat →
      ∃ r, simulateARB fuel frameCount refString = Some r
           ∧ Forall (λ s, NoDup (residentPages (framesAfter s))) (steps r).
Proof.
  intros Hfc.
  assert (NoDup (residentPages (newArray frameCount (-1)))) as Hinit.
  { unfold residentPages, newArray.
    induction (Z.to_nat frameCount) as [|n IH]; simpl; [constructor|].
    by rewrite filter_cons_False by lia. }
  split.
  - unfold simulateLRU.
    apply (loopLRU_ind
             (λ st, NoDup (residentPages (lruFrames st))
                    ∧ Forall (λ s, NoDup (residentPages (framesAfter s)))
                             (steps (lruResult st)))); [by split|].
    intros page st _ [Hnd Hall].
    assert (NoDup (residentPages (lruFrames (stepLRU page st)))) as Hnd'.
    { destruct (stepLRU_frames_cases page st) as [->|(Hfresh & i & ->)];
        [done|by apply NoDup_residentPages_arraySet]. }
    split; [done|].
    destruct (stepLRU_emits page st) as (s & -> & _ & _ & Hafter & _).
    apply Forall_app. split; [done|]. repeat constructor. by rewrite Hafter.
  - intros fuel Hfuel.
    destruct (simulateARB_ind
      (λ st, NoDup (residentPages (arbFrames st))
             ∧ Forall (λ s, NoDup (residentPages (framesAfter s)))
                      (steps (arbResult st)))
      fuel frameCount refString Hfc Hfuel)
      as (st' & _ & Hsim & _ & Hall); [by split| |by exists (arbResult st')].
    intros page st st1 _ _ [Hnd Hall] Hst.
    assert (NoDup (residentPages (arbFrames st1))) as Hnd'.
    { destruct (stepARB_frames_cases _ _ _ _ _ Hst)
        as [->|(Hfresh & i & ->)];
        [done|by apply NoDup_residentPages_arraySet]. }
    split; [done|].
    destruct (stepARB_emits _ _ _ _ _ Hst) as (s & -> & _ & _ & Hafter & _).
    apply Forall_app. split; [done|]. repeat constructor. by rewrite Hafter.
Qed.

Lemma no_page_held_twice_witness :
  Forall (λ s, NoDup (residentPages (framesAfter s)))
         (steps (simulateLRU 3 [7;0;1;2;0;3;0;4;2;3;0;3;2])).
Proof.
  refine (proj1 (no_page_held_twice 3 [7;0;1;2;0;3;0;4;2;3;0;3;2] _)). lia.
Defined.

(* --------------------------------------------------------------------- *)
(** ** The order of use of LRU *)
(* --------------------------------------------------------------------- *)

Section lru_order_facts.
Implicit Types (st : LRUState) (page : Z) (order : list (option Z)).

Lemma NoDup_delete_notin {A} (l : list A) (i : nat) (x : A) :
  NoDup l → l !! i = Some x → x ∉ delete i l.
Proof.
  intros Hnd Hi Hin.
  apply list_elem_of_lookup in Hin as (j & Hj).
  destruct (decide (j < i)%nat).
  - rewrite list_lookup_delete_lt in Hj by done.
    pose proof (NoDup_lookup _ _ _ _ Hnd Hi Hj). lia.
  - rewrite list_lookup_delete_ge in Hj by lia.
    pose proof (NoDup_lookup _ _ _ _ Hnd Hi Hj). lia.
Qed.

Lemma indexOf_insert_fresh (a : list Z) (k : nat) page :
  page ∉ a → (k < length a)%nat →
  indexOf (<[k := page]> a) page = Z.of_nat k.
Proof.
  intros Habsent Hk.
  destruct (indexOf_spec (<[k := page]> a) page)
    as [[_ Hnot]|(j & -> & Hj & _)].
  - destruct Hnot. eapply list_elem_of_lookup_2.
    by apply list_lookup_insert_eq.
  - destruct (decide (j = k)) as [->|Hne]; [done|].
    rewrite list_lookup_insert_ne in Hj by done.
    destruct Habsent. by eapply list_elem_of_lookup_2.
Qed.

Lemma occupied_insert (a : list Z) (e : nat) page (k : nat) :
  page ≠ -1 → (e < length a)%nat →
  occupied (<[e := page]> a) k ↔ k = e ∨ occupied a k.
Proof.
  intros Hpage He. unfold occupied.
  destruct (decide (k = e)) as [->|Hne].
  - rewrite list_lookup_insert_eq by done. split; [by left|].
    intros _. by exists page.
  - rewrite list_lookup_insert_ne by done. split; [by right|].
    by intros [?|?].
Qed.

(** The three ways an iteration of the loop of [simulateLRU] goes, on a
    table whose order list is exact. *)
Lemma stepLRU_order_cases n page st :
  (0 < n)%nat → page ≠ -1 → length (lruFrames st) = n →
  exactOrder (lruOrderOfUse st) (lruFrames st) →
  (∃ k pos : nat,
      lruFrames st !! k = Some page
      ∧ indexOf (lruFrames st) page = Z.of_nat k
      ∧ lruOrderOfUse st !! pos = Some (Some (Z.of_nat k))
      ∧ lruFrames (stepLRU page st) = lruFrames st
      ∧ lruOrderOfUse (stepLRU page st)
        = delete pos (lruOrderOfUse st) ++ [Some (Z.of_nat k)])
  ∨ ((page ∉ lruFrames st)
     ∧ ∃ e : nat,
         lruFrames st !! e = Some (-1)
         ∧ lruFrames (stepLRU page st) = <[e := page]> (lruFrames st)
         ∧ lruOrderOfUse (stepLRU page st)
           = lruOrderOfUse st ++ [Some (Z.of_nat e)])
  ∨ ((page ∉ lruFrames st) ∧ ((-1) ∉ lruFrames st)
     ∧ ∃ (r : nat) rest,
         lruOrderOfUse st = Some (Z.of_nat r) :: rest
         ∧ (r < n)%nat
         ∧ lruFrames (stepLRU page st) = <[r := page]> (lruFrames st)
         ∧ lruOrderOfUse (stepLRU page st) = rest ++ [Some (Z.of_nat r)]).
Proof.
  intros Hn Hpage Hlen (Hnd & Hmem). unfold stepLRU.
  destruct (indexOf_spec (lruFrames st) page)
    as [[-> Habsent]|(k & -> & Hk & _)].
  - rewrite decide_False by lia. right.
    destruct (includes (lruFrames st) (-1)) eqn:Hinc.
    + left. split; [done|].
      apply includes_true in Hinc.
      destruct (indexOf_present _ _ Hinc) as (e & -> & He & _).
      exists e. simpl. by rewrite arraySet_nat.
    + right.
      assert ((-1) ∉ lruFrames st) as Hfull.
      { intros Hin. apply includes_true in Hin. congruence. }
      split_and!; [done..|].
      assert (occupied (lruFrames st) 0) as Hocc.
      { destruct (lookup_lt_is_Some_2 (lruFrames st) 0%nat) as [p Hp];
          [lia|].
        exists p. split; [done|]. intros ->. destruct Hfull.
        by eapply list_elem_of_lookup_2. }
      assert (Some (Z.of_nat 0) ∈ lruOrderOfUse st) as Hin
        by (apply Hmem; by exists 0%nat).
      destruct (lruOrderOfUse st) as [|o rest] eqn:Horder;
        [by apply elem_of_nil in Hin|].
      assert (o ∈ o :: rest) as Ho by left.
      apply Hmem in Ho as (r & -> & (p & Hr & _)).
      exists r, rest. simpl. rewrite arraySet_nat.
      split_and!; [done| |done..].
      apply lookup_lt_Some in Hr. lia.
  - rewrite decide_True by lia. left.
    assert (Some (Z.of_nat k) ∈ lruOrderOfUse st) as Hin.
    { apply Hmem. exists k. split; [done|]. by exists page. }
    destruct (indexOf_present _ _ Hin) as (pos & Hpos & Hlook & _).
    exists k, pos. rewrite Hpos. rewrite decide_True by lia.
    rewrite Nat2Z.id. simpl. done.
Qed.

(** An iteration keeps the order list exact and puts the frame of the page
    referenced last. *)
Lemma stepLRU_exactOrder n page st :
  (0 < n)%nat → page ≠ -1 → length (lruFrames st) = n →
  exactOrder (lruOrderOfUse st) (lruFrames st) →
  exactOrder (lruOrderOfUse (stepLRU page st)) (lruFrames (stepLRU page st))
  ∧ last (lruOrderOfUse (stepLRU page st))
    = Some (Some (indexOf (lruFrames (stepLRU page st)) page)).
Proof.
  intros Hn Hpage Hlen Hexact.
  destruct (stepLRU_order_cases n page st Hn Hpage Hlen Hexact)
    as [(k & pos & Hk & Hidx & Hpos & -> & ->)
       |[(Habsent & e & He & -> & ->)
        |(Habsent & Hfull & r & rest & Horder & Hr & -> & ->)]];
    destruct Hexact as (Hnd & Hmem).
  - split; [split|].
    + apply NoDup_app. split_and!.
      * eapply sublist_NoDup; [done|apply sublist_delete].
      * intros x Hx Hx'. apply list_elem_of_singleton in Hx' as ->.
        by eapply NoDup_delete_notin.
      * apply NoDup_singleton.
    + intros x. rewrite <-Hmem, elem_of_app, list_elem_of_singleton.
      split.
      * intros [Hx| ->].
        -- by eapply list_elem_of_delete_inv.
        -- by eapply list_elem_of_lookup_2.
      * intros Hx. destruct (decide (x = Some (Z.of_nat k))); [by right|].
        left. by eapply elem_of_delete_ne.
    + by rewrite last_snoc, Hidx.
  - assert (e < length (lruFrames st))%nat by by eapply lookup_lt_Some.
    split; [split|].
    + apply NoDup_app. split_and!; [done| |apply NoDup_singleton].
      intros x Hx Hx'. apply list_elem_of_singleton in Hx' as ->.
      apply Hmem in Hx as (k & [= Hk] & (p & Hp & Hne)).
      apply Nat2Z.inj in Hk as <-. congruence.
    + intros x. rewrite elem_of_app, list_elem_of_singleton, Hmem. split.
      * intros [(k & -> & Hocc)| ->].
        -- exists k. split; [done|]. apply occupied_insert; auto.
        -- exists e. split; [done|]. apply occupied_insert; auto.
      * intros (k & -> & Hocc).
        apply occupied_insert in Hocc; [|done..].
        destruct Hocc as [->|Hocc]; [by right|]. left. by exists k.
    + by rewrite last_snoc, indexOf_insert_fresh.
  - rewrite Horder in Hnd, Hmem.
    assert (r < length (lruFrames st))%nat by lia.
    apply NoDup_cons in Hnd as (Hnotin & Hnd').
    assert (occupied (lruFrames st) r) as Hoccr.
    { assert (Some (Z.of_nat r) ∈ Some (Z.of_nat r) :: rest) as Hin by left.
      apply Hmem in Hin as (k & [= Hk] & Hocc).
      by apply Nat2Z.inj in Hk as <-. }
    split; [split|].
    + apply NoDup_app. split_and!; [done| |apply NoDup_singleton].
      intros x Hx Hx'. by apply list_elem_of_singleton in Hx' as ->.
    + intros x.
      assert (x ∈ rest ++ [Some (Z.of_nat r)]
              ↔ x ∈ Some (Z.of_nat r) :: rest) as ->.
      { rewrite elem_of_app, list_elem_of_singleton, elem_of_cons. tauto. }
      rewrite Hmem. split.
      * intros (k & -> & Hocc). exists k. split; [done|].
        apply occupied_insert; auto.
      * intros (k & -> & Hocc). exists k. split; [done|].
        apply occupied_insert in Hocc; [|done..].
        by destruct Hocc as [->|Hocc].
    + by rewrite last_snoc, indexOf_insert_fresh.
Qed.
End lru_order_facts.

Section lru_recency_facts.
Implicit Types (st : LRUState) (page : Z) (order : list (option Z)).

Lemma occupied_snoc (a : list Z) x (k : nat) :
  occupied (a ++ [x]) k ↔ occupied a k ∨ (k = length a ∧ x ≠ -1).
Proof.
  unfold occupied. split.
  - intros (p & Hp & Hne).
    apply lookup_app_Some in Hp as [Hp|[Hge Hp]]; [left; by exists p|].
    right. apply list_lookup_singleton_Some in Hp as [Hk <-].
    split; [lia|done].
  - intros [(p & Hp & Hne)|[-> Hne]].
    + exists p. split; [|done]. by apply lookup_app_l_Some.
    + exists x. split; [|done].
      by rewrite lookup_app_r, Nat.sub_diag by lia.
Qed.

(** An exact order list is as long as the table has pages. *)
Lemma exactOrder_length order (a : list Z) :
  exactOrder order a → length order = length (residentPages a).
Proof.
  revert order. induction a as [|x a IH] using rev_ind;
    intros order (Hnd & Hmem).
  - destruct order as [|o order]; [done|].
    assert (o ∈ o :: order) as Ho by left.
    by apply Hmem in Ho as (k & _ & (p & Hp & _)).
  - unfold residentPages in *.
    rewrite filter_app, length_app, filter_cons, filter_nil.
    destruct (decide (x ≠ -1)) as [Hx|Hx].
    + assert (Some (Z.of_nat (length a)) ∈ order) as Hin.
      { apply Hmem. exists (length a). split; [done|].
        apply occupied_snoc. by right. }
      apply elem_of_Permutation in Hin as (order' & Hperm).
      rewrite Hperm in Hnd. apply NoDup_cons in Hnd as (Hnotin & Hnd').
      rewrite Hperm. simpl. rewrite (IH order'); [lia|].
      split; [done|]. intros y. split.
      * intros Hy.
        assert (y ∈ order) as Hy' by (rewrite Hperm; by right).
        apply Hmem in Hy' as (k & -> & Hocc).
        exists k. split; [done|].
        apply occupied_snoc in Hocc as [?|[-> _]]; done.
      * intros (k & -> & Hocc).
        assert (Some (Z.of_nat k) ∈ order) as Hin.
        { apply Hmem. exists k. split; [done|]. apply occupied_snoc.
          by left. }
        rewrite Hperm in Hin. apply elem_of_cons in Hin as [[= Hk]|?];
          [|done].
        destruct Hocc as (p & Hp & _). apply lookup_lt_Some in Hp. lia.
    + simpl. rewrite Nat.add_0_r. apply IH. split; [done|].
      intros y. rewrite Hmem. split.
      * intros (k & -> & Hocc). exists k. split; [done|].
        apply occupied_snoc in Hocc as [?|[_ ?]]; done.
      * intros (k & -> & Hocc). exists k. split; [done|].
        apply occupied_snoc. by left.
Qed.

Lemma StronglySorted_elem_impl {A} (R R' : relation A) (l : list A) :
  StronglySorted R l → (∀ x y, x ∈ l → y ∈ l → R x y → R' x y) →
  StronglySorted R' l.
Proof.
  induction 1 as [|x l Hl IH Hx]; intros Himpl; constructor.
  - apply IH. intros y z Hy Hz. apply Himpl; by right.
  - apply Forall_forall. intros y Hy. apply Himpl; [left|by right|].
    by eapply Forall_forall in Hx.
Qed.

Lemma StronglySorted_delete {A} (R : relation A) (l : list A) (i : nat) :
  StronglySorted R l → StronglySorted R (delete i l).
Proof.
  intros Hl. destruct (l !! i) as [x|] eqn:Hi.
  - rewrite <-(take_drop_middle l i x Hi) in Hl.
    rewrite delete_take_drop.
    apply StronglySorted_app in Hl as (Hcross & Hl1 & Hl2).
    apply StronglySorted_cons in Hl2 as (_ & Hl2).
    apply StronglySorted_app. split_and!; [|done..].
    intros y z Hy Hz. apply Hcross; [done|by right].
  - apply lookup_ge_None in Hi. rewrite delete_take_drop.
    rewrite take_ge, drop_ge, app_nil_r by lia. done.
Qed.

Lemma usedAfter_now refs p page : usedAfter (refs ++ [page]) p page.
Proof.
  exists (length refs). split.
  - by rewrite lookup_app_r, Nat.sub_diag by lia.
  - intros j Hj. rewrite lookup_ge_None_2; [done|].
    rewrite length_app. simpl. lia.
Qed.

Lemma usedAfter_later refs pa pb page :
  pa ≠ page → usedAfter refs pa pb → usedAfter (refs ++ [page]) pa pb.
Proof.
  intros Hne (i & Hi & Hafter). exists i. split.
  - by apply lookup_app_l_Some.
  - intros j Hj Hlook.
    apply lookup_app_Some in Hlook as [Hlook|[_ Hlook]].
    + by eapply Hafter.
    + apply list_lookup_singleton_Some in Hlook as [_ ?]. congruence.
Qed.

(** The order list after a reference to [page]: entries kept from before,
    whose frames hold other pages, then the frame of [page]. *)
Lemma olderEntry_extend (a a' refs : list Z) page order (t : nat) :
  StronglySorted (olderEntry a refs) order →
  (∀ o, o ∈ order →
     ∃ (f : nat) p, o = Some (Z.of_nat f) ∧ a !! f = Some p
                    ∧ a' !! f = Some p ∧ p ≠ page) →
  a' !! t = Some page →
  StronglySorted (olderEntry a' (refs ++ [page]))
                 (order ++ [Some (Z.of_nat t)]).
Proof.
  intros Hsorted Hkept Ht. apply StronglySorted_app. split_and!.
  - intros o1 o2 Ho1 Ho2. apply list_elem_of_singleton in Ho2 as ->.
    destruct (Hkept o1 Ho1) as (f & p & -> & _ & Hf & _).
    exists f, t, p, page. split_and!; [done..|]. apply usedAfter_now.
  - eapply StronglySorted_elem_impl; [done|].
    intros o1 o2 Ho1 Ho2 (f1 & f2 & p1 & p2 & -> & -> & Hf1 & Hf2 & Hused).
    destruct (Hkept _ Ho1) as (g1 & q1 & [= Hg1] & Hq1 & Hq1' & Hne1).
    destruct (Hkept _ Ho2) as (g2 & q2 & [= Hg2] & Hq2 & Hq2' & Hne2).
    apply Nat2Z.inj in Hg1 as <-. apply Nat2Z.inj in Hg2 as <-.
    exists f1, f2, q1, q2. split_and!; [done..|].
    apply usedAfter_later; [done|]. congruence.
  - repeat constructor.
Qed.

Lemma distinctPages_insert (a : list Z) (t : nat) page :
  page ∉ a → distinctPages a → distinctPages (<[t := page]> a).
Proof.
  intros Habsent Hdistinct i j p Hi Hj Hp.
  destruct (decide (i = t)) as [->|Hit], (decide (j = t)) as [->|Hjt];
    [done|..].
  - apply list_lookup_insert_Some in Hi as [(_ & -> & _)|[? _]]; [|done].
    rewrite list_lookup_insert_ne in Hj by done.
    destruct Habsent. by eapply list_elem_of_lookup_2.
  - apply list_lookup_insert_Some in Hj as [(_ & -> & _)|[? _]]; [|done].
    rewrite list_lookup_insert_ne in Hi by done.
    destruct Habsent. by eapply list_elem_of_lookup_2.
  - rewrite list_lookup_insert_ne in Hi, Hj by done. by eapply Hdistinct.
Qed.

Lemma elem_of_insert_inv (a : list Z) (t : nat) page p :
  p ∈ <[t := page]> a → p = page ∨ p ∈ a.
Proof.
  intros Hin. apply list_elem_of_lookup in Hin as (i & Hi).
  apply list_lookup_insert_Some in Hi as [(_ & -> & _)|[_ Hi]]; [by left|].
  right. by eapply list_elem_of_lookup_2.
Qed.

(** An iteration of the loop of [simulateLRU] keeps the order list in the
    order of the last references. *)
Lemma stepLRU_recency n refs page st :
  (0 < n)%nat → page ≠ -1 → lruRecency n refs st →
  lruRecency n (refs ++ [page]) (stepLRU page st).
Proof.
  intros Hn Hpage (Hlen & Hexact & Hdistinct & Hseen & Hsorted).
  destruct (stepLRU_exactOrder n page st Hn Hpage Hlen Hexact)
    as (Hexact' & _).
  split; [by rewrite stepLRU_frames_length|]. split; [done|]. clear Hexact'.
  pose proof Hexact as (Hnd & Hmem).
  destruct (stepLRU_order_cases n page st Hn Hpage Hlen Hexact)
    as [(k & pos & Hk & Hidx & Hpos & -> & ->)
       |[(Habsent & e & He & -> & ->)
        |(Habsent & Hfull & r & rest & Horder & Hr & -> & ->)]].
  - split_and!; [done| |].
    + intros p Hp Hne. apply elem_of_app. left. by apply Hseen.
    + apply olderEntry_extend with (a := lruFrames st); [|..|done].
      * by apply StronglySorted_delete.
      * intros o Ho.
        pose proof (list_elem_of_delete_inv _ _ _ Ho) as Ho'.
        apply Hmem in Ho' as (f & -> & (p & Hf & Hne)).
        exists f, p. split_and!; [done..|]. intros ->.
        assert (f = k) as -> by by eapply Hdistinct.
        by eapply NoDup_delete_notin.
  - assert (e < length (lruFrames st))%nat by by eapply lookup_lt_Some.
    split_and!.
    + by apply distinctPages_insert.
    + intros p Hp Hne. apply elem_of_app.
      apply elem_of_insert_inv in Hp as [->|Hp];
        [right; by apply list_elem_of_singleton|left; by apply Hseen].
    + apply olderEntry_extend with (a := lruFrames st); [done|..].
      * intros o Ho. apply Hmem in Ho as (f & -> & (p & Hf & Hne)).
        exists f, p. split_and!; [done..| |].
        -- rewrite list_lookup_insert_ne; [done|]. intros ->. congruence.
        -- intros ->. destruct Habsent. by eapply list_elem_of_lookup_2.
      * by apply list_lookup_insert_eq.
  - assert (r < length (lruFrames st))%nat by lia.
    rewrite Horder in Hnd, Hsorted.
    apply NoDup_cons in Hnd as (Hnotin & _).
    apply StronglySorted_cons in Hsorted as (_ & Hsorted).
    split_and!.
    + by apply distinctPages_insert.
    + intros p Hp Hne. apply elem_of_app.
      apply elem_of_insert_inv in Hp as [->|Hp];
        [right; by apply list_elem_of_singleton|left; by apply Hseen].
    + apply olderEntry_extend with (a := lruFrames st); [done|..].
      * intros o Ho.
        assert (o ∈ lruOrderOfUse st) as Ho'
          by (rewrite Horder; by right).
        apply Hmem in Ho' as (f & -> & (p & Hf & Hne)).
        exists f, p. split_and!; [done..| |].
        -- rewrite list_lookup_insert_ne; [done|]. by intros ->.
        -- intros ->. destruct Habsent. by eapply list_elem_of_lookup_2.
      * by apply list_lookup_insert_eq.
Qed.

(** On a full table that lacks the page referenced, the frame replaced is
    the head of the order list, and its page was referenced longest ago. *)
Lemma stepLRU_victim n refs page st :
  (0 < n)%nat → page ≠ -1 → lruRecency n refs st →
  page ∉ lruFrames st → (-1) ∉ lruFrames st →
  ∃ (r : nat) v,
    mjoin (head (lruOrderOfUse st)) = Some (Z.of_nat r)
    ∧ lruFrames st !! r = Some v
    ∧ lruFrames (stepLRU page st) = <[r := page]> (lruFrames st)
    ∧ v ∈ refs
    ∧ ∀ q, q ∈ lruFrames st → q ≠ v → usedAfter refs v q.
Proof.
  intros Hn Hpage (Hlen & Hexact & Hdistinct & Hseen & Hsorted)
    Habsent Hfull.
  pose proof Hexact as (Hnd & Hmem).
  destruct (stepLRU_order_cases n page st Hn Hpage Hlen Hexact)
    as [(k & pos & Hk & _)
       |[(_ & e & He & _)
        |(_ & _ & r & rest & Horder & Hr & Hframes & _)]].
  - destruct Habsent. by eapply list_elem_of_lookup_2.
  - destruct Hfull. by eapply list_elem_of_lookup_2.
  - destruct (lookup_lt_is_Some_2 (lruFrames st) r) as [v Hv]; [lia|].
    assert (v ≠ -1) as Hne.
    { intros ->. destruct Hfull. by eapply list_elem_of_lookup_2. }
    exists r, v. rewrite Horder. split_and!; [done..| |].
    + apply Hseen; [|done]. by eapply list_elem_of_lookup_2.
    + intros q Hq Hqv.
      apply list_elem_of_lookup in Hq as (j & Hj).
      assert (q ≠ -1) as Hq.
      { intros ->. destruct Hfull. by eapply list_elem_of_lookup_2. }
      assert (Some (Z.of_nat j) ∈ lruOrderOfUse st) as Hin.
      { apply Hmem. exists j. split; [done|]. by exists q. }
      rewrite Horder in Hin, Hsorted.
      apply elem_of_cons in Hin as [[= Hjr]|Hin].
      { apply Nat2Z.inj in Hjr as ->. congruence. }
      apply StronglySorted_cons in Hsorted as (Hhead & _).
      eapply Forall_forall in Hhead; [|done].
      destruct Hhead
        as (f1 & f2 & p1 & p2 & [= Hf1] & [= Hf2] & Hp1 & Hp2 & Hused).
      apply Nat2Z.inj in Hf1 as <-. apply Nat2Z.inj in Hf2 as <-.
      congruence.
Qed.

Lemma loopLRU_prefix_ind (R : list Z → LRUState → Prop) refString st :
  R [] st →
  (∀ refs page st, page ∈ refString → R refs st →
                   R (refs ++ [page]) (stepLRU page st)) →
  R refString (loopLRU refString st).
Proof.
  intros Hinit Hstep.
  cut (∀ refs st, R refs st →
         (∀ refs page st, page ∈ refString → R refs st →
                          R (refs ++ [page]) (stepLRU page st)) →
         R (refs ++ refString) (loopLRU refString st)).
  { intros Hgen. by apply (Hgen [] st). }
  clear. unfold loopLRU.
  induction refString as [|page rest IH]; intros refs st Hst Hstep.
  - by rewrite app_nil_r.
  - simpl. rewrite cons_middle, app_assoc. apply IH.
    + apply Hstep; [left|done].
    + intros refs' page' st' Hin. apply Hstep. by right.
Qed.

Lemma initLRU_recency frameCount :
  lruRecency (Z.to_nat frameCount) [] (initLRU frameCount).
Proof.
  assert (∀ (k : nat) p, newArray frameCount (-1) !! k = Some p → p = -1)
    as Hempty.
  { intros k p Hk. apply list_elem_of_lookup_2 in Hk. unfold newArray in Hk.
    by apply elem_of_replicate in Hk as [-> _]. }
  unfold lruRecency, initLRU. simpl. split_and!.
  - unfold newArray. by rewrite length_replicate.
  - split; [constructor|]. intros x. split.
    + by intros ?%elem_of_nil.
    + intros (k & _ & (p & Hp & Hne)). by apply Hempty in Hp.
  - intros i j p Hi _ Hp. by apply Hempty in Hi.
  - intros p Hp Hne. apply list_elem_of_lookup in Hp as (k & Hk).
    by apply Hempty in Hk.
  - constructor.
Qed.
End lru_recency_facts.

Section lru_order_results.
Variable frameCount : Z.
Hypothesis Hfc : 1 ≤ frameCount.
Variable refString : list Z.
Hypothesis Hpages : Forall (λ p, 0 ≤ p) refString.

Lemma page_of_refString page : page ∈ refString → page ≠ -1.
Proof.
  intros Hin. eapply Forall_forall in Hpages; [|done]. simpl in Hpages. lia.
Qed.

Lemma ranks_of_exact n s :
  orderIsExact s → length (framesAfter s) = n → ranksWellFormed n s.
Proof.
  intros (order & Ho & Hexact & Hlast) Hlen.
  pose proof Hexact as (Hnd & Hmem).
  exists order. split; [done|]. split; [by apply exactOrder_length|].
  split_and!.
  - intros i Hi. unfold getLRURank. rewrite Ho, arrayGet_nat.
    destruct (decide (framesAfter s !! i = Some (-1))) as [|Hne]; [done|].
    destruct (lookup_lt_is_Some_2 (framesAfter s) i) as [p Hp]; [lia|].
    assert (Some (Z.of_nat i) ∈ order) as Hin.
    { apply Hmem. exists i. split; [done|]. exists p. split; [done|].
      intros ->. done. }
    destruct (indexOf_present _ _ Hin) as (pos & -> & Hpos & _).
    rewrite decide_False by lia. split; [done|].
    apply lookup_lt_Some in Hpos. lia.
  - intros i j rank. unfold getLRURank. rewrite Ho.
    destruct (decide (arrayGet (framesAfter s) i = Some (-1))); [done|].
    destruct (decide (arrayGet (framesAfter s) j = Some (-1))); [done|].
    destruct (indexOf_spec order (Some i)) as [[-> _]|(pi & -> & Hpi & _)];
      [done|].
    destruct (indexOf_spec order (Some j)) as [[-> _]|(pj & -> & Hpj & _)];
      [done|].
    rewrite !decide_False by lia. intros [= <-] [= Heq].
    assert (pj = pi) as -> by lia. congruence.
  - assert (Some (indexOf (framesAfter s) (reference s)) ∈ order) as Hin.
    { apply last_Some in Hlast as (order' & ->). apply elem_of_app.
      right. by apply list_elem_of_singleton. }
    pose proof Hin as Hin'.
    apply Hmem in Hin' as (k & [= Hk] & (p & Hp & Hne)).
    rewrite Hk in *. unfold getLRURank. rewrite Ho, arrayGet_nat, Hp.
    rewrite decide_False by congruence.
    destruct (indexOf_present _ _ Hin) as (pos & -> & Hpos & _).
    rewrite decide_False by lia.
    rewrite last_lookup in Hlast.
    pose proof (NoDup_lookup _ _ _ _ Hnd Hpos Hlast) as ->.
    apply lookup_lt_Some in Hpos. f_equal. lia.
Qed.

Lemma simulateLRU_orders :
  Forall (λ s, orderIsExact s ∧ length (framesAfter s) = Z.to_nat frameCount)
         (steps (simulateLRU frameCount refString)).
Proof.
  unfold simulateLRU.
  apply (loopLRU_ind
           (λ st, length (lruFrames st) = Z.to_nat frameCount
                  ∧ exactOrder (lruOrderOfUse st) (lruFrames st)
                  ∧ Forall (λ s, orderIsExact s
                                 ∧ length (framesAfter s)
                                   = Z.to_nat frameCount)
                           (steps (lruResult st)))).
  - destruct (initLRU_recency frameCount) as (Hlen & Hexact & _). done.
  - intros page st Hin (Hlen & Hexact & Hall).
    apply page_of_refString in Hin.
    destruct (stepLRU_exactOrder (Z.to_nat frameCount) page st)
      as (Hexact' & Hlast); [lia|done..|].
    destruct (stepLRU_emits page st)
      as (s & -> & Hpage & _ & Hafter & Horder & _).
    split_and!; [by rewrite stepLRU_frames_length|done|].
    apply Forall_app. split; [done|]. repeat constructor.
    + exists (lruOrderOfUse (stepLRU page st)).
      by rewrite Hafter, Hpage.
    + by rewrite Hafter, stepLRU_frames_length.
Qed.

Lemma simulateLRU_evictions :
  ∀ (k : nat) s, steps (simulateLRU frameCount refString) !! k = Some s →
    isFault s = true → (-1) ∉ frames s →
    evictsLeastRecent (take k refString) s.
Proof.
  unfold simulateLRU.
  apply (loopLRU_prefix_ind
           (λ refs st,
              lruRecency (Z.to_nat frameCount) refs st
              ∧ length (steps (lruResult st)) = length refs
              ∧ ∀ (k : nat) s, steps (lruResult st) !! k = Some s →
                  isFault s = true → (-1) ∉ frames s →
                  evictsLeastRecent (take k refs) s)).
  - split_and!; [apply initLRU_recency|done|]. by intros k s Hk.
  - intros refs page st Hin (Hrec & Hlen & Hall).
    apply page_of_refString in Hin.
    destruct (stepLRU_emits page st)
      as (s & -> & Hpage & Hfr & Hafter & _ & Hfault & _ & _ & Hrep).
    split_and!.
    + apply stepLRU_recency; [lia|done..].
    + rewrite !length_app, Hlen. done.
    + intros k s' Hk Hf Hfull.
      apply lookup_app_Some in Hk as [Hk|[Hge Hk]].
      * rewrite take_app_le
          by (apply lookup_lt_Some in Hk; lia).
        by apply Hall.
      * apply list_lookup_singleton_Some in Hk as [Hk <-].
        assert (k = length refs) as -> by lia.
        rewrite take_app_length.
        rewrite Hfault in Hf. apply bool_decide_eq_true in Hf.
        rewrite Hfr in Hfull.
        destruct (stepLRU_victim (Z.to_nat frameCount) refs page st)
          as (r & v & Hhead & Hv & Hframes & Hseen & Hused);
          [lia|done..|].
        exists r, v. rewrite Hrep, Hfault, Hfr, Hafter, Hpage.
        rewrite bool_decide_eq_true_2 by done.
        assert (includes (lruFrames st) (-1) = false) as ->.
        { apply not_true_is_false. intros Hinc.
          by apply includes_true in Hinc. }
        done.
Qed.

Lemma stepLRU_keeps_previous n refs prev page st :
  (2 ≤ n)%nat → page ≠ -1 → prev ≠ -1 →
  lruRecency n (refs ++ [prev]) st → prev ∈ lruFrames st →
  prev ∈ lruFrames (stepLRU page st).
Proof.
  intros Hn Hpage Hprev Hrec Hin.
  pose proof Hrec as (Hlen & Hexact & Hdistinct & _).
  apply list_elem_of_lookup in Hin as (j & Hj).
  destruct (stepLRU_order_cases n page st) as
    [(_ & _ & _ & _ & _ & -> & _)
    |[(_ & e & He & -> & _)|(Habsent & Hfull & _)]]; [lia|done..| | |].
  - by eapply list_elem_of_lookup_2.
  - apply list_elem_of_lookup. exists j.
    rewrite list_lookup_insert_ne; [done|]. intros ->. congruence.
  - destruct (stepLRU_victim n (refs ++ [prev]) page st)
      as (r & v & _ & Hv & -> & _ & Hused); [lia|done..|].
    apply list_elem_of_lookup. exists j.
    rewrite list_lookup_insert_ne; [done|]. intros ->.
    assert (v = prev) as -> by congruence.
    set (j' := if decide (j = 0)%nat then 1%nat else 0%nat).
    assert (j' ≠ j) as Hne by (unfold j'; case_decide; lia).
    destruct (lookup_lt_is_Some_2 (lruFrames st) j') as [q Hq];
      [unfold j'; case_decide; lia|].
    assert (q ∈ lruFrames st) as Hqin by by eapply list_elem_of_lookup_2.
    assert (q ≠ -1) as Hq1 by (by intros ->).
    assert (q ≠ prev) as Hqp.
    { intros ->. apply Hne. by eapply Hdistinct. }
    destruct (Hused q Hqin Hqp) as (i & Hi & Hafter).
    apply lookup_app_Some in Hi as [Hi|[_ Hi]].
    + apply (Hafter (length refs)).
      * by apply lookup_lt_Some in Hi.
      * by rewrite lookup_app_r, Nat.sub_diag by lia.
    + apply list_lookup_singleton_Some in Hi as [_ ?]. congruence.
Qed.

Lemma stepLRU_holds_page n refs page st :
  (0 < n)%nat → page ≠ -1 → lruRecency n refs st →
  page ∈ lruFrames (stepLRU page st).
Proof.
  intros Hn Hpage (Hlen & Hexact & _).
  destruct (stepLRU_order_cases n page st) as
    [(k & _ & Hk & _ & _ & -> & _)
    |[(_ & e & He & -> & _)|(_ & _ & r & _ & _ & Hr & -> & _)]];
    [done..| | |].
  - by eapply list_elem_of_lookup_2.
  - eapply list_elem_of_lookup_2. apply list_lookup_insert_eq.
    by eapply lookup_lt_Some.
  - eapply list_elem_of_lookup_2. apply list_lookup_insert_eq. lia.
Qed.

Lemma simulateLRU_keeps_previous :
  2 ≤ frameCount →
  consecutive (λ prev cur, reference prev ∈ framesAfter cur)
              (steps (simulateLRU frameCount refString)).
Proof.
  intros Hfc2. unfold simulateLRU.
  apply (loopLRU_prefix_ind
           (λ refs st,
              lruRecency (Z.to_nat frameCount) refs st
              ∧ (∀ prev, last (steps (lruResult st)) = Some prev →
                   reference prev ≠ -1
                   ∧ last refs = Some (reference prev)
                   ∧ reference prev ∈ lruFrames st)
              ∧ consecutive (λ prev cur, reference prev ∈ framesAfter cur)
                            (steps (lruResult st)))).
  - split_and!; [apply initLRU_recency|done|apply consecutive_nil].
  - intros refs page st Hin (Hrec & Hlast & Hall).
    apply page_of_refString in Hin.
    destruct (stepLRU_emits page st)
      as (s & -> & Hpage & _ & Hafter & _).
    split_and!.
    + apply stepLRU_recency; [lia|done..].
    + intros prev. rewrite !last_snoc. intros [= <-].
      rewrite Hpage. split_and!; [done..|].
      eapply stepLRU_holds_page; [|done..]. lia.
    + apply consecutive_snoc; [done|].
      intros prev Hprev. rewrite Hafter.
      destruct (Hlast prev Hprev) as (Hne & Hrefs & Hres).
      apply last_Some in Hrefs as (refs' & ->).
      eapply stepLRU_keeps_previous; [|done..]. lia.
Qed.
End lru_order_results.

(** X18. The usage ranks shown for a step of LRU, for non-negative
    references: a frame has a rank exactly if it holds a page, the ranks are
    the numbers from 1 to the number of pages held, no two frames share a
    rank, and the frame of the page just referenced has the highest. *)
Theorem lru_usage_ranks (frameCount : Z) (refString : list Z) :
  1 ≤ frameCount → Forall (λ p, 0 ≤ p) refString →
  Forall (ranksWellFormed (Z.to_nat frameCount))
         (steps (simulateLRU frameCount refString)).
Proof.
  intros Hfc Hpages.
  eapply Forall_impl; [by apply simulateLRU_orders|].
  intros s [Hexact Hlen]. by apply ranks_of_exact.
Qed.

Lemma lru_usage_ranks_witness :
  Forall (ranksWellFormed (Z.to_nat 3))
         (steps (simulateLRU 3 [7;0;1;2;0;3;0;4])).
Proof.
  apply lru_usage_ranks.
  - lia.
  - repeat constructor; lia.
Defined.

(** X19. LRU replaces the least recently used page: on a fault with a full
    table, for non-negative references, the frame replaced holds a page that
    every other page of the table has been referenced after. *)
Theorem lru_evicts_least_recently_used (frameCount : Z) (refString : list Z) :
  1 ≤ frameCount → Forall (λ p, 0 ≤ p) refString →
  ∀ (k : nat) s, steps (simulateLRU frameCount refString) !! k = Some s →
    isFault s = true → (-1) ∉ frames s →
    ∃ (r : nat) v,
      replacedFrame s = Some (Z.of_nat r)
      ∧ frames s !! r = Some v
      ∧ framesAfter s = <[r := reference s]> (frames s)
      ∧ v ∈ take k refString
      ∧ ∀ q, q ∈ frames s → q ≠ v →
          ∃ i : nat, (i < k)%nat ∧ refString !! i = Some q
            ∧ ∀ j : nat, (i < j < k)%nat → refString !! j ≠ Some v.
Proof.
  intros Hfc Hpages k s Hk Hfault Hfull.
  destruct (simulateLRU_evictions frameCount Hfc refString Hpages
              k s Hk Hfault Hfull)
    as (r & v & Hrep & Hv & Hafter & Hseen & Hused).
  exists r, v. split_and!; [done..|].
  intros q Hq Hne. destruct (Hused q Hq Hne) as (i & Hi & Hlater).
  apply lookup_take_Some in Hi as [Hi Hik].
  exists i. split_and!; [done..|].
  intros j [Hij Hjk] Hj. apply (Hlater j Hij).
  by rewrite lookup_take_lt.
Qed.

Lemma lru_evicts_least_recently_used_witness :
  ∃ (r : nat) v,
    replacedFrame (lruStepRecord 2 [7;0;1] [2;0;1] true (Some 0)
                     [Some 1; Some 2; Some 0])
    = Some (Z.of_nat r)
    ∧ [7;0;1] !! r = Some v
    ∧ v ∈ take 3 [7;0;1;2].
Proof.
  destruct (lru_evicts_least_recently_used 3 [7;0;1;2]) with (k := 3%nat)
    (s := lruStepRecord 2 [7;0;1] [2;0;1] true (Some 0)
            [Some 1; Some 2; Some 0])
    as (r & v & Hrep & Hv & _ & Hseen & _).
  - lia.
  - repeat constructor; lia.
  - reflexivity.
  - reflexivity.
  - simpl. intros Hin. repeat (apply elem_of_cons in Hin as [?|Hin]; [lia|]).
    by apply elem_of_nil in Hin.
  - exists r, v. split_and!; done.
Defined.

(** X20. With at least two frames and non-negative references, LRU never
    replaces the page of the previous reference: that page is still in the
    table after the next step. *)
Theorem lru_keeps_previous_page (frameCount : Z) (refString : list Z) :
  2 ≤ frameCount → Forall (λ p, 0 ≤ p) refString →
  consecutive (λ prev cur, reference prev ∈ framesAfter cur)
              (steps (simulateLRU frameCount refString)).
Proof.
  intros Hfc Hpages. apply simulateLRU_keeps_previous; [lia|done..].
Qed.

Lemma lru_keeps_previous_page_witness :
  consecutive (λ prev cur, reference prev ∈ framesAfter cur)
              (steps (simulateLRU 2 [1;2;3;1;2])).
Proof.
  apply lru_keeps_previous_page.
  - lia.
  - repeat constructor; lia.
Defined.

(* --------------------------------------------------------------------- *)
(** ** The victim of the clock *)
(* --------------------------------------------------------------------- *)

Section second_chance_facts.
Variables (n page s : Z) (frames : list Z).
Hypothesis Hn : 1 ≤ n.
Hypothesis Hs : 0 ≤ s < n.

Lemma clockPos_wrap j : clockPos n s (n + j) = clockPos n s j.
Proof.
  unfold clockPos. replace (s + (n + j)) with (s + j + 1 * n) by lia.
  by rewrite Z.mod_add by lia.
Qed.

(** The search resumed at probe [i] of the first revolution, the frames
    probed so far having been cleared: where it stops and what it leaves. *)
Lemma sweep_victim_from (k : nat) :
  ∀ (i : Z) (bits : list Z) (fuel : nat),
    0 ≤ i < n → Z.of_nat k = n - i →
    Z.of_nat (length bits) = n → Forall bit01 bits →
    (∀ j, 0 ≤ j < i → arrayGet bits (clockPos n s j) = Some 0) →
    (k + 1 ≤ fuel)%nat →
    ∃ sw d, sweep fuel n page s frames bits (clockPos n s i) 0 false
            = Some sw
      ∧ i ≤ d ≤ n
      ∧ swReplacedFrame sw = Some (clockPos n s d)
      ∧ (∀ j, i ≤ j < d → arrayGet bits (clockPos n s j) = Some 1)
      ∧ (d < n → arrayGet bits (clockPos n s d) = Some 0)
      ∧ arrayGet (swRefBits sw) (clockPos n s d) = Some 1
      ∧ (∀ j, 0 ≤ j < d → clockPos n s j ≠ clockPos n s d →
              arrayGet (swRefBits sw) (clockPos n s j) = Some 0)
      ∧ (∀ j, d < j < n →
              arrayGet (swRefBits sw) (clockPos n s j)
              = arrayGet bits (clockPos n s j))
      ∧ swFrames sw = arraySet frames (clockPos n s d) page
      ∧ swPointer sw = clockPos n s (d + 1).
Proof.
  induction k as [|k IH]; intros i bits fuel Hi Hk Hlen H01 Hdone Hfuel;
    [lia|].
  destruct fuel as [|fuel]; [lia|].
  pose proof (clockPos_range n Hn s i) as Hp.
  destruct (arrayGet_is_Some bits (clockPos n s i)) as [b Hb]; [lia|].
  assert (bit01 b) as Hb01.
  { eapply Forall_forall; [done|]. by eapply arrayGet_elem_of. }
  cbn [sweep]. rewrite Hb.
  destruct Hb01 as [->| ->].
  - (* the bit is 0: this frame is the victim *)
    rewrite decide_True by done. eexists _, i. split; [done|]. simpl.
    split_and!; [lia|lia|done|intros; lia|done| | | |done|].
    + apply arrayGet_arraySet_eq. lia.
    + intros j Hj Hne. rewrite arrayGet_arraySet_ne by done.
      apply Hdone. lia.
    + intros j Hj. apply arrayGet_arraySet_ne. intros Heq.
      assert (i = j) by (apply (clockPos_inj n Hn s); [lia..|done]). lia.
    + apply clockPos_next; lia.
  - (* the bit is 1: it is cleared and the hand moves on *)
    rewrite decide_False by (intros [=]).
    assert (Z.rem (clockPos n s i + 1) n = clockPos n s (i + 1)) as ->
      by (apply clockPos_next; lia).
    assert (∀ j, 0 ≤ j < i + 1 →
              arrayGet (arraySet bits (clockPos n s i) 0) (clockPos n s j)
              = Some 0) as Hdone'.
    { intros j Hj. destruct (decide (j = i)) as [->|Hji].
      - apply arrayGet_arraySet_eq. lia.
      - rewrite arrayGet_arraySet_ne; [apply Hdone; lia|].
        intros Heq. apply Hji. symmetry.
        apply (clockPos_inj n Hn s); [lia..|done]. }
    assert (∀ j, i + 1 ≤ j < n →
              arrayGet (arraySet bits (clockPos n s i) 0) (clockPos n s j)
              = arrayGet bits (clockPos n s j)) as Hlater.
    { intros j Hj. apply arrayGet_arraySet_ne. intros Heq.
      assert (i = j) by (apply (clockPos_inj n Hn s); [lia..|done]). lia. }
    destruct (decide (i + 1 = n)) as [Hlast|Hmore].
    + (* a full revolution: every bit is now 0 *)
      rewrite Hlast, clockPos_full by done.
      rewrite decide_True by done. simpl.
      destruct fuel as [|fuel]; [lia|]. cbn [sweep].
      pose proof (Hdone' 0 ltac:(lia)) as Hfirst.
      rewrite clockPos_0 in Hfirst by done.
      rewrite Hfirst, decide_True by done.
      eexists _, n. split; [done|]. simpl.
      rewrite clockPos_full by done.
      split_and!; [lia|lia|done| |lia| | |intros; lia|done|].
      * intros j Hj. assert (j = i) as -> by lia. done.
      * apply arrayGet_arraySet_eq. rewrite arraySet_length. lia.
      * intros j Hj Hne. rewrite arrayGet_arraySet_ne by done.
        apply Hdone'. lia.
      * rewrite clockPos_wrap. rewrite <-(clockPos_0 n s) at 1 by done.
        apply clockPos_next; lia.
    + (* the revolution goes on *)
      rewrite decide_False.
      2:{ intros Heq. rewrite <-(clockPos_0 n s) in Heq at 2 by done.
          apply (clockPos_inj n Hn s) in Heq; lia. }
      destruct (IH (i + 1) (arraySet bits (clockPos n s i) 0) fuel)
        as (sw & d & Hsw & Hd & Hrep & Hones & Hzero & Hset & Hcleared
            & Hkept & Hframes & Hptr);
        [lia|lia|by rewrite arraySet_length
        |apply Forall_arraySet; [done|by left]|done|lia|].
      exists sw, d. split; [done|].
      split_and!; [lia|lia|done| | |done|done| |done|done].
      * intros j Hj. destruct (decide (j = i)) as [->|Hji]; [done|].
        rewrite <-Hlater by lia. apply Hones. lia.
      * intros Hdn. rewrite <-Hlater by lia. by apply Hzero.
      * intros j Hj. rewrite Hkept by done. apply Hlater. lia.
Qed.

(** One whole search from the hand [s]. *)
Lemma sweep_victim (bits : list Z) (fuel : nat) :
  Z.of_nat (length bits) = n → Forall bit01 bits →
  (Z.to_nat n + 1 ≤ fuel)%nat →
  ∃ sw d, sweep fuel n page s frames bits s 0 false = Some sw
    ∧ 0 ≤ d ≤ n
    ∧ swReplacedFrame sw = Some (clockPos n s d)
    ∧ (∀ j, 0 ≤ j < d → arrayGet bits (clockPos n s j) = Some 1)
    ∧ (d < n → arrayGet bits (clockPos n s d) = Some 0)
    ∧ arrayGet (swRefBits sw) (clockPos n s d) = Some 1
    ∧ (∀ j, 0 ≤ j < d → clockPos n s j ≠ clockPos n s d →
            arrayGet (swRefBits sw) (clockPos n s j) = Some 0)
    ∧ (∀ j, d < j < n →
            arrayGet (swRefBits sw) (clockPos n s j)
            = arrayGet bits (clockPos n s j))
    ∧ swFrames sw = arraySet frames (clockPos n s d) page
    ∧ swPointer sw = clockPos n s (d + 1).
Proof.
  intros Hlen H01 Hfuel.
  destruct (sweep_victim_from (Z.to_nat n) 0 bits fuel)
    as (sw & d & Hsw & Hrest); [lia|lia|done|done|intros; lia|done|].
  rewrite clockPos_0 in Hsw by done. by exists sw, d.
Qed.
End second_chance_facts.

Section second_chance_results.
Variable n : Z.
Hypothesis Hn : 1 ≤ n.
Variable fuel : nat.
Hypothesis Hfuel : (Z.to_nat n + 1 ≤ fuel)%nat.

Lemma stepARB_second_chance page st st' :
  arbShape n st → arbFilled n st → stepARB fuel n page st = Some st' →
  ∃ s, steps (arbResult st') = steps (arbResult st) ++ [s]
       ∧ (isFault s = true → (-1) ∉ frames s → secondChance n s).
Proof.
  intros Hshape Hfilled. pose proof Hshape as (Hlen & Hblen & Hptr & H01).
  unfold stepARB.
  destruct (indexOf_spec (arbFrames st) page)
    as [[-> Habsent]|(k & -> & Hk & _)].
  - rewrite decide_False by lia.
    destruct (decide (arbFramesFilled st < n)) as [Hroom|Hfull].
    + destruct (first_empty n st Hshape Hfilled Hroom) as (e & _ & _ & He).
      intros [= <-]. eexists. split; [done|]. simpl.
      intros _ Hnone. destruct Hnone. by eapply list_elem_of_lookup_2.
    + destruct (sweep_victim n page (arbPointer st) (arbFrames st) Hn Hptr
                  (arbRefBits st) fuel Hblen H01 Hfuel)
        as (sw & d & -> & Hd & Hrep & Hones & Hzero & Hset & Hcleared
            & Hkept & Hframes & Hhand).
      intros [= <-]. eexists. split; [done|]. simpl. intros _ _.
      exists (arbRefBits st), (swRefBits sw), (arbPointer st), d. simpl.
      split_and!; (done || lia || by f_equal).
  - rewrite decide_True by lia. intros [= <-].
    eexists. split; [done|]. by simpl.
Qed.

Lemma simulateARB_second_chance refString :
  Forall (λ p, 0 ≤ p) refString →
  ∃ r, simulateARB fuel n refString = Some r
       ∧ Forall (λ s, isFault s = true → (-1) ∉ frames s → secondChance n s)
                (steps r).
Proof.
  intros Hpages.
  destruct (simulateARB_ind
              (λ st, arbFilled n st
                     ∧ Forall (λ s, isFault s = true → (-1) ∉ frames s →
                                    secondChance n s)
                              (steps (arbResult st)))
              fuel n refString Hn Hfuel) as (st' & _ & Hr & _ & Hall).
  - split; [by apply initARB_filled|by constructor].
  - intros page st st' Hin Hshape [Hfilled Hall] Hstep.
    assert (page ≠ -1) as Hpage.
    { eapply Forall_forall in Hpages; [|done]. simpl in Hpages. lia. }
    destruct (stepARB_spec n Hn fuel page st Hfuel Hshape)
      as (st'' & s0 & Hstep' & _ & _ & _ & Hrest).
    assert (st'' = st') as Heq by congruence. rewrite Heq in Hrest.
    destruct (Hrest Hpage Hfilled) as (Hfilled' & _). split; [done|].
    destruct (stepARB_second_chance page st st' Hshape Hfilled Hstep)
      as (s & -> & Hs).
    apply Forall_app. split; [done|]. by repeat constructor.
  - by exists (arbResult st').
Qed.
End second_chance_results.

(** C7. For every frame count of at least 1 and every reference sequence,
    [simulateARB] returns as soon as each victim search may run
    [frameCount + 1] iterations. From every state its loop can be in, for
    every page, the victim search finds its victim at probe [d] from the
    hand, with [d] at most [frameCount], the first probe after one full
    revolution: the frame under that probe is the one replaced, every
    frame probed before it had its bit set, the frame itself had its bit
    clear unless the search went all the way round, and the page is written
    to it with its bit set. The search ends by the ordinary replacement,
    never by the forced one, with a [loopCount] of at most 1. *)
Theorem arb_sweep_terminates (frameCount : Z) :
  1 ≤ frameCount →
  (∀ refString fuel, (Z.to_nat frameCount + 1 ≤ fuel)%nat →
     is_Some (simulateARB fuel frameCount refString))
  ∧ ∀ st page fuel,
      reachableARB frameCount st →
      (Z.to_nat frameCount + 1 ≤ fuel)%nat →
      ∃ sw d, sweep fuel frameCount page (arbPointer st) (arbFrames st)
                (arbRefBits st) (arbPointer st) 0 false = Some sw
        ∧ swForced sw = false ∧ swLoopCount sw ≤ 1
        ∧ 0 ≤ d ≤ frameCount
        ∧ swReplacedFrame sw
          = Some (clockPos frameCount (arbPointer st) d)
        ∧ (∀ j, 0 ≤ j < d →
             arrayGet (arbRefBits st) (clockPos frameCount (arbPointer st) j)
             = Some 1)
        ∧ (d < frameCount →
           arrayGet (arbRefBits st) (clockPos frameCount (arbPointer st) d)
           = Some 0)
        ∧ swFrames sw
          = arraySet (arbFrames st) (clockPos frameCount (arbPointer st) d)
                     page
        ∧ arrayGet (swRefBits sw) (clockPos frameCount (arbPointer st) d)
          = Some 1.
Proof.
  intros Hfc. split.
  - intros refString fuel Hfuel.
    destruct (simulateARB_spec frameCount Hfc fuel refString Hfuel)
      as (r & -> & _).
    by eexists.
  - intros st page fuel (_ & Hblen & Hptr & H01)%reachableARB_shape Hfuel;
      [|done].
    destruct (sweep_spec frameCount page (arbPointer st) (arbFrames st) Hfc
                Hptr (arbRefBits st) fuel Hblen H01 Hfuel)
      as (sw & Hsw & ((Hforced & Hlc) & _) & _).
    destruct (sweep_victim frameCount page (arbPointer st) (arbFrames st)
                Hfc Hptr (arbRefBits st) fuel Hblen H01 Hfuel)
      as (sw' & d & Hsw' & Hd & Hrep & Hones & Hzero & Hset & _ & _
          & Hframes & _).
    assert (sw' = sw) as -> by congruence.
    exists sw, d. split_and!; (done || lia).
Qed.

Lemma arb_sweep_terminates_witness :
  is_Some (simulateARB 4%nat 3 [7;0;1;2;0;3;0;4;2;3;0;3;2])
  ∧ ∃ sw d, sweep 4%nat 3 2 0 [7;0;1] [1;1;1] 0 0 false = Some sw
      ∧ swForced sw = false
      ∧ 0 ≤ d ≤ 3
      ∧ swReplacedFrame sw = Some (clockPos 3 0 d).
Proof.
  destruct (arb_sweep_terminates 3) as [Hreturns Hfinds]; [lia|]. split.
  - apply Hreturns. simpl. lia.
  - destruct (Hfinds (default (initARB 3)
                        (loopARB 4%nat 3 [7;0;1] (initARB 3))) 2 4%nat)
      as (sw & d & Hsw & Hforced & _ & Hd & Hrep & _).
    + by exists 4%nat, [7;0;1].
    + simpl. lia.
    + by exists sw, d.
Defined.

(** X21. The clock version of ARB gives second chances: on a fault with a
    full table, for non-negative references, the frame replaced is the
    first one, going round from the hand, whose reference bit is 0 (the
    frame under the hand when every bit is 1); every frame passed over has
    its bit cleared, the frame loaded has its bit set, the frames not
    reached keep their bits, and the hand ends just after the frame
    replaced. *)
Theorem arb_second_chance (frameCount : Z) (refString : list Z)
    (fuel : nat) :
  1 ≤ frameCount → Forall (λ p, 0 ≤ p) refString →
  (Z.to_nat frameCount + 1 ≤ fuel)%nat →
  ∃ r, simulateARB fuel frameCount refString = Some r
       ∧ Forall (λ s, isFault s = true → (-1) ∉ frames s →
                      secondChance frameCount s)
                (steps r).
Proof.
  intros Hfc Hpages Hfuel. by apply simulateARB_second_chance.
Qed.

Lemma arb_second_chance_witness :
  ∃ r, simulateARB 4%nat 3 [7;0;1;2;0;3;0;4;2;3;0;3;2] = Some r
       ∧ Forall (λ s, isFault s = true → (-1) ∉ frames s → secondChance 3 s)
                (steps r).
Proof.
  refine (arb_second_chance 3 [7;0;1;2;0;3;0;4;2;3;0;3;2] 4%nat _ _ _).
  - lia.
  - repeat (constructor; [lia|]). constructor.
  - simpl. lia.
Defined.

(* --------------------------------------------------------------------- *)
(** ** Page replacement: ARB (aging) *)
(* --------------------------------------------------------------------- *)

Section aging_bits.

Lemma shiftr_history x :
  0 ≤ x ≤ 255 →
  0 ≤ Z.shiftr x 1 ≤ 255 ∧ Z.land (Z.shiftr x 1) 128 = 0.
Proof.
  intros Hx. rewrite Z.shiftr_div_pow2 by lia. change (2 ^ 1) with 2.
  assert (0 ≤ x `div` 2 ≤ 127) as Hy.
  { split; [apply Z.div_pos; lia|].
    apply Z.lt_succ_r, Z.div_lt_upper_bound; lia. }
  split; [lia|].
  apply Z.bits_inj'. intros k Hk.
  rewrite Z.land_spec, Z.bits_0. change 128 with (2 ^ 7).
  rewrite Z.pow2_bits_eqb by lia.
  destruct (Z.eqb_spec 7 k) as [<-|]; [|by rewrite andb_false_r].
  rewrite andb_true_r. apply Z.testbit_false; [lia|].
  rewrite Z.div_small; [done|]. change (2 ^ 7) with 128. lia.
Qed.

Lemma lor_history x : 0 ≤ x ≤ 255 → 0 ≤ Z.lor x 128 ≤ 255.
Proof.
  intros Hx.
  assert (0 ≤ Z.lor x 128) as Hlow by (apply Z.lor_nonneg; lia).
  split; [done|].
  destruct (decide (Z.lor x 128 = 0)) as [->|Hne]; [lia|].
  apply Z.lt_succ_r. change (Z.succ 255) with (2 ^ 8).
  apply Z.log2_lt_pow2; [lia|].
  rewrite Z.log2_lor by lia. change (Z.log2 128) with 7.
  destruct (decide (x = 0)) as [->|Hx0]; [simpl; lia|].
  assert (Z.log2 x < 8); [|lia].
  apply Z.log2_lt_pow2; [lia|]. change (2 ^ 8) with 256. lia.
Qed.
End aging_bits.

Section aging_loops.
Variable n : Z.
Implicit Types (frames h b : list Z).

(** The shift of every occupied frame, frame by frame. *)
Lemma shiftBits_spec frames h b :
  Z.of_nat (length frames) = n → Z.of_nat (length h) = n →
  Z.of_nat (length b) = n →
  length (Aging.shiftBits n frames (h, b)).1 = length h
  ∧ length (Aging.shiftBits n frames (h, b)).2 = length b
  ∧ ∀ (k : nat) f, frames !! k = Some f →
      if decide (f ≠ -1)
      then ∃ x, h !! k = Some x
             ∧ (Aging.shiftBits n frames (h, b)).1 !! k
               = Some (Z.shiftr x 1)
             ∧ (Aging.shiftBits n frames (h, b)).2 !! k
               = Some (if decide (0 < Z.land (Z.shiftr x 1) 128)
                       then 1 else 0)
      else (Aging.shiftBits n frames (h, b)).1 !! k = h !! k
           ∧ (Aging.shiftBits n frames (h, b)).2 !! k = b !! k.
Proof.
  intros Hlf Hlh Hlb. unfold Aging.shiftBits.
  set (F := λ '(refBitHistory, refBits) j, _).
  cut (∀ m : nat, Z.of_nat m ≤ n →
         length (foldl F (h, b) (seqZ 0 (Z.of_nat m))).1 = length h
         ∧ length (foldl F (h, b) (seqZ 0 (Z.of_nat m))).2 = length b
         ∧ ∀ (k : nat) f, frames !! k = Some f →
             if decide ((k < m)%nat ∧ f ≠ -1)
             then ∃ x, h !! k = Some x
                    ∧ (foldl F (h, b) (seqZ 0 (Z.of_nat m))).1 !! k
                      = Some (Z.shiftr x 1)
                    ∧ (foldl F (h, b) (seqZ 0 (Z.of_nat m))).2 !! k
                      = Some (if decide (0 < Z.land (Z.shiftr x 1) 128)
                              then 1 else 0)
             else (foldl F (h, b) (seqZ 0 (Z.of_nat m))).1 !! k = h !! k
                  ∧ (foldl F (h, b) (seqZ 0 (Z.of_nat m))).2 !! k = b !! k).
  { intros Hgen.
    destruct (Hgen (Z.to_nat n)) as (H1 & H2 & H3); [lia|].
    rewrite Z2Nat.id in H1, H2, H3 by lia.
    split_and!; [done..|]. intros k f Hk.
    specialize (H3 k f Hk).
    assert (k < Z.to_nat n)%nat by (apply lookup_lt_Some in Hk; lia).
    destruct (decide (f ≠ -1)).
    - by rewrite decide_True in H3 by done.
    - by rewrite decide_False in H3 by (by intros [_ ?]). }
  induction m as [|m IH]; intros Hm.
  { split_and!; [done..|]. intros k f Hk.
    destruct (decide ((k < 0)%nat ∧ f ≠ -1)) as [[? _]|]; [lia|done]. }
  destruct IH as (IH1 & IH2 & IH3); [lia|].
  rewrite seqZ_S, foldl_snoc. rewrite Z.add_0_l.
  destruct (foldl F (h, b) (seqZ 0 (Z.of_nat m))) as [h1 b1] eqn:Hfold.
  simpl in IH1, IH2, IH3.
  destruct (lookup_lt_is_Some_2 frames m) as [fm Hfm]; [lia|].
  destruct (lookup_lt_is_Some_2 h m) as [xm Hxm]; [lia|].
  pose proof (IH3 m fm Hfm) as Hm'.
  rewrite decide_False in Hm' by lia. destruct Hm' as [Hh1m Hb1m].
  assert (F (h1, b1) (Z.of_nat m)
          = if decide (fm ≠ -1)
            then (<[m := Z.shiftr xm 1]> h1,
                  <[m := if decide (0 < Z.land (Z.shiftr xm 1) 128)
                         then 1 else 0]> b1)
            else (h1, b1)) as ->.
  { unfold F. rewrite !arrayGet_nat, Hfm, Hh1m, Hxm.
    case_decide; [by rewrite !arraySet_nat|done]. }
  destruct (decide (fm ≠ -1)) as [Hocc|Hempty]; simpl.
  - rewrite !length_insert.
    split_and!; [done..|]. intros k f Hk. specialize (IH3 k f Hk).
    destruct (decide (k = m)) as [->|Hkm].
    + assert (f = fm) as -> by congruence.
      rewrite decide_True by (split; [lia|done]).
      exists xm. rewrite !list_lookup_insert_eq by lia. done.
    + rewrite !list_lookup_insert_ne by done.
      destruct (decide ((k < m)%nat ∧ f ≠ -1)) as [[? ?]|Hno].
      * by rewrite decide_True by (split; [lia|done]).
      * rewrite decide_False; [done|]. intros [? ?]. apply Hno.
        split; [lia|done].
  - split_and!; [done..|]. intros k f Hk. specialize (IH3 k f Hk).
    destruct (decide ((k < m)%nat ∧ f ≠ -1)) as [[? ?]|Hno].
    + by rewrite decide_True by (split; [lia|done]).
    + rewrite decide_False; [done|]. intros [? ?].
      destruct (decide (k = m)) as [->|]; [apply Hempty; congruence|].
      apply Hno. split; [lia|done].
Qed.

(** The victim is the first frame whose history is the lowest. *)
Lemma findVictim_spec h :
  1 ≤ n → Z.of_nat (length h) = n →
  Forall (λ x, x < 9007199254740991) h →
  ∃ (v : nat) hv,
    Aging.findVictim n h = Z.of_nat v
    ∧ h !! v = Some hv
    ∧ Forall (λ x, hv ≤ x) h
    ∧ ∀ (j : nat) x, (j < v)%nat → h !! j = Some x → hv < x.
Proof.
  intros Hn Hlen Hbound. unfold Aging.findVictim.
  set (G := λ '(minValue, victimIndex) j, _).
  cut (∀ m : nat, Z.of_nat m ≤ n →
         (m = 0%nat ∨
          ∃ (v : nat) hv,
            foldl G (9007199254740991, 0) (seqZ 0 (Z.of_nat m))
            = (hv, Z.of_nat v)
            ∧ h !! v = Some hv
            ∧ (∀ (j : nat) x, (j < m)%nat → h !! j = Some x → hv ≤ x)
            ∧ ∀ (j : nat) x, (j < v)%nat → h !! j = Some x → hv < x)).
  { intros Hgen. destruct (Hgen (Z.to_nat n)) as [?|(v & hv & Hf & Hv & Hmin
      & Hfirst)]; [lia|lia|].
    rewrite Z2Nat.id in Hf by lia. exists v, hv. rewrite Hf.
    split_and!; [done..| |done].
    apply Forall_lookup. intros j x Hj. eapply Hmin; [|done].
    apply lookup_lt_Some in Hj. lia. }
  induction m as [|m IH]; intros Hm; [by left|]. right.
  rewrite seqZ_S, foldl_snoc, Z.add_0_l.
  destruct (lookup_lt_is_Some_2 h m) as [xm Hxm]; [lia|].
  assert (xm < 9007199254740991) as Hxb
    by (by eapply Forall_lookup_1 in Hbound).
  destruct IH as [->|(v & hv & -> & Hv & Hmin & Hfirst)]; [lia| |].
  - simpl. rewrite arrayGet_nat, Hxm. rewrite decide_True by done.
    exists 0%nat, xm. split_and!; [done..| |intros; lia].
    intros j x Hj Hx. assert (j = 0%nat) as -> by lia.
    assert (x = xm) by congruence. lia.
  - unfold G at 1. rewrite arrayGet_nat, Hxm.
    destruct (decide (xm < hv)) as [Hlt|Hge].
    + exists m, xm. split_and!; [done..| |].
      * intros j x Hj Hx. destruct (decide (j = m)) as [->|].
        -- assert (x = xm) by congruence. lia.
        -- assert (hv ≤ x) by (eapply Hmin; [|done]; lia). lia.
      * intros j x Hj Hx.
        assert (hv ≤ x) by (eapply Hmin; [|done]; lia). lia.
    + exists v, hv. split_and!; [done..| |done].
      intros j x Hj Hx. destruct (decide (j = m)) as [->|].
      * assert (x = xm) by congruence. lia.
      * eapply Hmin; [|done]. lia.
Qed.
End aging_loops.

Section aging_facts.
Variable n : Z.
Hypothesis Hn : 1 ≤ n.
Implicit Types (st : Aging.ARBState) (page i : Z).

Lemma initARB_agingInv : agingInv n (Aging.initARB n).
Proof.
  unfold agingInv. simpl. rewrite !newArray_length.
  split_and!; [lia..| |lia|lia| |].
  - apply Forall_replicate. lia.
  - intros k Hk. rewrite newArray_lookup by lia. split; [lia|done].
  - intros k Hk. apply lookup_lt_Some in Hk.
    rewrite newArray_length in Hk. apply newArray_lookup. lia.
Qed.

Lemma first_empty_index (a : list Z) (filled : Z) :
  Z.of_nat (length a) = n → 0 ≤ filled < n →
  (∀ k : nat, Z.of_nat k < n → (a !! k = Some (-1) ↔ filled ≤ Z.of_nat k)) →
  ∃ e : nat, filled = Z.of_nat e ∧ indexOf a (-1) = Z.of_nat e
             ∧ a !! e = Some (-1).
Proof.
  intros Hlen Hrange Hempty.
  exists (Z.to_nat filled). rewrite Z2Nat.id by lia.
  assert (a !! Z.to_nat filled = Some (-1)) as He by (apply Hempty; lia).
  split_and!; [done| |done].
  destruct (indexOf_present a (-1)) as (k & -> & Hk & Hfirst);
    [by eapply list_elem_of_lookup_2|].
  f_equal.
  assert (Z.of_nat k < n) by (apply lookup_lt_Some in Hk; lia).
  apply Hempty in Hk; [|done].
  destruct (decide (Z.to_nat filled < k)%nat) as [Hlt'|]; [|lia].
  by apply Hfirst in Hlt'.
Qed.

(** The histories and the displayed bits once the loop has shifted them:
    every displayed bit is 0. *)
Lemma shifted_bits st i h1 b1 :
  agingInv n st → 0 < i ∨ Aging.arbFramesFilled st = 0 →
  (if bool_decide (0 < i)
   then Aging.shiftBits n (Aging.arbFrames st)
          (Aging.arbRefBitHistory st, Aging.arbRefBits st)
   else (Aging.arbRefBitHistory st, Aging.arbRefBits st)) = (h1, b1) →
  Z.of_nat (length h1) = n ∧ Forall (λ h, 0 ≤ h ≤ 255) h1
  ∧ b1 = newArray n 0.
Proof.
  intros (Hlf & Hlh & Hlb & Hrange & Hfilled & Hempty & Hzero) Hi Hhb.
  assert (∀ b, Z.of_nat (length b) = n →
            (∀ k : nat, Z.of_nat k < n → b !! k = Some 0) →
            b = newArray n 0) as Hzeros.
  { intros b Hb Hall. symmetry. apply replicate_as_Forall_2; [lia|].
    apply Forall_lookup. intros k x Hk. rewrite Hall in Hk; [congruence|].
    apply lookup_lt_Some in Hk. lia. }
  destruct (bool_decide (0 < i)) eqn:Hshift.
  - destruct (shiftBits_spec n (Aging.arbFrames st)
                (Aging.arbRefBitHistory st) (Aging.arbRefBits st))
      as (Hl1 & Hl2 & Hpoint); [done..|].
    rewrite Hhb in Hl1, Hl2, Hpoint. simpl in Hl1, Hl2, Hpoint.
    split_and!; [lia| |].
    + apply Forall_lookup. intros k x Hk.
      destruct (lookup_lt_is_Some_2 (Aging.arbFrames st) k) as [f Hf].
      { apply lookup_lt_Some in Hk. lia. }
      specialize (Hpoint k f Hf).
      destruct (decide (f ≠ -1)).
      * destruct Hpoint as (x0 & Hx0 & Hx1 & _).
        assert (x = Z.shiftr x0 1) as -> by congruence.
        apply shiftr_history. by eapply Forall_lookup_1 in Hrange.
      * destruct Hpoint as [Hsame _]. rewrite Hsame in Hk.
        by eapply Forall_lookup_1 in Hrange.
    + apply Hzeros; [lia|]. intros k Hk.
      destruct (lookup_lt_is_Some_2 (Aging.arbFrames st) k) as [f Hf];
        [lia|].
      specialize (Hpoint k f Hf).
      destruct (decide (f ≠ -1)) as [|Hf1].
      * destruct Hpoint as (x0 & Hx0 & _ & ->).
        destruct (shiftr_history x0) as [_ ->];
          [by eapply Forall_lookup_1 in Hrange|].
        by rewrite decide_False by lia.
      * destruct Hpoint as [_ ->]. apply Hzero.
        rewrite Hf. f_equal. lia.
  - injection Hhb as <- <-.
    apply bool_decide_eq_false in Hshift.
    destruct Hi as [?|Hnone]; [done|].
    split_and!; [done..|].
    apply Hzeros; [done|]. intros k Hk. apply Hzero, Hempty; lia.
Qed.

Lemma arraySet_zeros_lookup (k v : nat) :
  k ≠ v → Z.of_nat k < n → <[v := 1]> (newArray n 0) !! k = Some 0.
Proof.
  intros Hne Hk. rewrite list_lookup_insert_ne by done.
  apply newArray_lookup. lia.
Qed.

(** One iteration of the loop of the aging version, for the reference at
    index [i]. *)
Lemma aging_step i page st :
  page ≠ -1 → agingInv n st → 0 < i ∨ Aging.arbFramesFilled st = 0 →
  agingInv n (Aging.stepARB n i page st)
  ∧ 0 < Aging.arbFramesFilled (Aging.stepARB n i page st)
  ∧ ∃ s, steps (Aging.arbResult (Aging.stepARB n i page st))
         = steps (Aging.arbResult st) ++ [s]
    ∧ reference s = page
    ∧ frames s = Aging.arbFrames st
    ∧ framesAfter s = Aging.arbFrames (Aging.stepARB n i page st)
    ∧ isFault s = bool_decide (page ∉ Aging.arbFrames st)
    ∧ faults (Aging.arbResult (Aging.stepARB n i page st))
      = faults (Aging.arbResult st) + (if isFault s then 1 else 0)
    ∧ hits (Aging.arbResult (Aging.stepARB n i page st))
      = hits (Aging.arbResult st) + (if isFault s then 0 else 1)
    ∧ resetBits s = Some (bool_decide (0 < i))
    ∧ onlyBitOfReferenced n s
    ∧ frameEffect s
    ∧ bitSetAfter s.
Proof.
  intros Hpage Hinv Hi.
  pose proof Hinv as (Hlf & Hlh & Hlb & Hrange & Hfilled & Hempty & Hzero).
  unfold Aging.stepARB.
  destruct (if bool_decide (0 < i) then _ else _) as [h1 b1] eqn:Hhb.
  destruct (shifted_bits st i h1 b1 Hinv Hi Hhb) as (Hl1 & Hr1 & ->).
  assert (∀ (v : nat) x, Z.of_nat v < n → 0 ≤ x ≤ 255 →
            Forall (λ h, 0 ≤ h ≤ 255) (<[v := x]> h1)) as Hrange'.
  { intros v x Hv Hx. by apply Forall_insert. }
  destruct (indexOf_spec (Aging.arbFrames st) page)
    as [[-> Habsent]|(k & Hidx & Hk & _)].
  - rewrite decide_False by lia.
    assert (∀ (v : nat) old, Aging.arbFrames st !! v = Some old →
              ∀ j : nat, Aging.arbFrames st !! j
                         ≠ <[v := page]> (Aging.arbFrames st) !! j
                         ↔ j = v) as Heffect.
    { intros v old Hv j. destruct (decide (j = v)) as [->|Hne].
      - rewrite list_lookup_insert_eq by (by eapply lookup_lt_Some).
        split; [done|]. intros _. rewrite Hv. intros [= ->].
        destruct Habsent. by eapply list_elem_of_lookup_2.
      - rewrite list_lookup_insert_ne by done. split; [done|lia]. }
    destruct (decide (Aging.arbFramesFilled st < n)) as [Hroom|Hfull].
    + (* an empty frame is filled *)
      destruct (first_empty_index (Aging.arbFrames st)
                  (Aging.arbFramesFilled st))
        as (e & Hfe & -> & He); [done|lia|done|].
      assert (Z.of_nat e < n) by lia.
      rewrite !arraySet_nat. simpl. split_and!.
      * unfold agingInv. simpl. rewrite !length_insert, newArray_length.
        split_and!; [lia|lia|lia| |lia|lia| |].
        -- apply Hrange'; lia.
        -- intros j Hj. destruct (decide (j = e)) as [->|Hne].
           ++ rewrite list_lookup_insert_eq by lia.
              split; [intros [= ?]; lia|lia].
           ++ rewrite list_lookup_insert_ne by done.
              rewrite Hempty by done. lia.
        -- intros j Hj. destruct (decide (j = e)) as [->|Hne].
           ++ rewrite list_lookup_insert_eq in Hj by lia. congruence.
           ++ apply arraySet_zeros_lookup; [done|].
              apply lookup_lt_Some in Hj. rewrite length_insert in Hj. lia.
      * lia.
      * eexists. split; [done|]. simpl.
        rewrite bool_decide_eq_true_2 by done.
        split_and!; [done..|lia|lia|done| | |].
        -- unfold onlyBitOfReferenced. simpl.
           rewrite indexOf_insert_fresh by (done || lia).
           by rewrite arraySet_nat.
        -- unfold frameEffect. simpl. exists e. split; [done|].
           by eapply Heffect.
        -- unfold bitSetAfter. simpl. eexists. split; [done|].
           exists e. split_and!; [done|..];
             apply list_lookup_insert_eq; rewrite ?newArray_length; lia.
    + (* the frame with the lowest history is replaced *)
      destruct (findVictim_spec n h1) as (v & hv & -> & Hv & _);
        [done..| |].
      { eapply Forall_impl; [done|]. simpl. lia. }
      assert (Z.of_nat v < n) by (apply lookup_lt_Some in Hv; lia).
      destruct (lookup_lt_is_Some_2 (Aging.arbFrames st) v) as [old Hold];
        [lia|].
      rewrite !arraySet_nat. simpl. split_and!.
      * unfold agingInv. simpl. rewrite !length_insert, newArray_length.
        split_and!; [lia|lia|lia| |lia|lia| |].
        -- apply Hrange'; lia.
        -- intros j Hj. destruct (decide (j = v)) as [->|Hne].
           ++ rewrite list_lookup_insert_eq by lia.
              split; [intros [= ?]; lia|lia].
           ++ rewrite list_lookup_insert_ne by done. by apply Hempty.
        -- intros j Hj. destruct (decide (j = v)) as [->|Hne].
           ++ rewrite list_lookup_insert_eq in Hj by lia. congruence.
           ++ apply arraySet_zeros_lookup; [done|].
              apply lookup_lt_Some in Hj. rewrite length_insert in Hj. lia.
      * lia.
      * eexists. split; [done|]. simpl.
        rewrite bool_decide_eq_true_2 by done.
        split_and!; [done..|lia|lia|done| | |].
        -- unfold onlyBitOfReferenced. simpl.
           rewrite indexOf_insert_fresh by (done || lia).
           by rewrite arraySet_nat.
        -- unfold frameEffect. simpl. exists v. split; [done|].
           by eapply Heffect.
        -- unfold bitSetAfter. simpl. eexists. split; [done|].
           exists v. split_and!; [done|..];
             apply list_lookup_insert_eq; rewrite ?newArray_length; lia.
  - (* a hit *)
    rewrite Hidx, decide_True by lia.
    assert (page ∈ Aging.arbFrames st) by by eapply list_elem_of_lookup_2.
    assert (Z.of_nat k < n) by (apply lookup_lt_Some in Hk; lia).
    destruct (lookup_lt_is_Some_2 h1 k) as [x Hx]; [lia|].
    rewrite !arrayGet_nat, Hx, !arraySet_nat. simpl. split_and!.
    + unfold agingInv. simpl. rewrite !length_insert, newArray_length.
      split_and!; [lia|lia|lia| |lia|lia|done|].
      * apply Hrange'; [lia|]. apply lor_history.
        by eapply Forall_lookup_1 in Hr1.
      * intros j Hj. apply arraySet_zeros_lookup.
        -- intros ->. congruence.
        -- apply lookup_lt_Some in Hj. lia.
    + destruct Hi as [?|Hnone]; [|exfalso].
      * destruct (decide (0 < Aging.arbFramesFilled st)); [done|].
        assert (Aging.arbFrames st !! k = Some (-1))
          by (apply Hempty; lia).
        congruence.
      * assert (Aging.arbFrames st !! k = Some (-1))
          by (apply Hempty; lia).
        congruence.
    + eexists. split; [done|]. simpl.
      rewrite bool_decide_eq_false_2 by (by intros []).
      split_and!; [done..|lia|lia|done| |done|].
      * unfold onlyBitOfReferenced. simpl. by rewrite Hidx, arraySet_nat.
      * unfold bitSetAfter. simpl. eexists. split; [done|].
        exists k. split; [done|].
        apply list_lookup_insert_eq. rewrite newArray_length. lia.
Qed.
End aging_facts.

Section aging_results.
Variable n : Z.
Hypothesis Hn : 1 ≤ n.
Variable refString : list Z.
Hypothesis Hpages : Forall (λ p, 0 ≤ p) refString.

Lemma aging_loop_ind (R : Z → Aging.ARBState → Prop) (refs : list Z) :
  ∀ i st, R i st →
    (∀ i page st, page ∈ refs → R i st →
                  R (i + 1) (Aging.stepARB n i page st)) →
    R (i + Z.of_nat (length refs)) (Aging.loopARB n i refs st).
Proof.
  induction refs as [|page rest IH]; intros i st Hst Hstep.
  - simpl. by rewrite Z.add_0_r.
  - cbn [Aging.loopARB length].
    replace (i + Z.of_nat (S (length rest)))
      with (i + 1 + Z.of_nat (length rest)) by lia.
    apply IH.
    + apply Hstep; [left|done].
    + intros i' page' st' Hin. apply Hstep. by right.
Qed.

Lemma aging_loop_spec :
  agingInv n (Aging.loopARB n 0 refString (Aging.initARB n))
  ∧ length (steps (Aging.simulateARB n refString)) = length refString
  ∧ faults (Aging.simulateARB n refString)
    = countFaults (steps (Aging.simulateARB n refString))
  ∧ hits (Aging.simulateARB n refString)
    = countHits (steps (Aging.simulateARB n refString))
  ∧ Forall (λ s, isFault s = bool_decide (reference s ∉ frames s)
                 ∧ onlyBitOfReferenced n s ∧ frameEffect s)
           (steps (Aging.simulateARB n refString))
  ∧ ∀ (k : nat) s, steps (Aging.simulateARB n refString) !! k = Some s →
      resetBits s = Some (bool_decide (0 < k)%nat).
Proof.
  unfold Aging.simulateARB.
  pose proof (aging_loop_ind
    (λ i st,
       agingInv n st
       ∧ (0 < i ∨ Aging.arbFramesFilled st = 0)
       ∧ Z.of_nat (length (steps (Aging.arbResult st))) = i
       ∧ faults (Aging.arbResult st)
         = countFaults (steps (Aging.arbResult st))
       ∧ hits (Aging.arbResult st)
         = countHits (steps (Aging.arbResult st))
       ∧ Forall (λ s, isFault s = bool_decide (reference s ∉ frames s)
                      ∧ onlyBitOfReferenced n s ∧ frameEffect s)
                (steps (Aging.arbResult st))
       ∧ ∀ (k : nat) s, steps (Aging.arbResult st) !! k = Some s →
           resetBits s = Some (bool_decide (0 < k)%nat))
    refString 0 (Aging.initARB n)) as Hind.
  destruct Hind as (Hinv & _ & Hlen & Hf & Hh & Hall & Hreset).
  - split_and!; [by apply initARB_agingInv|by right|done..| |].
    + by constructor.
    + by intros k s Hk.
  - intros i page st Hin (Hinv & Hi & Hlen & Hf & Hh & Hall & Hreset).
    assert (page ≠ -1) as Hpage.
    { eapply Forall_forall in Hpages; [|done]. simpl in Hpages. lia. }
    destruct (aging_step n Hn i page st Hpage Hinv Hi)
      as (Hinv' & Hfilled' & s & -> & Hs & Hfr & Hafter & Hfault & -> & ->
          & Hrst & Hbit & Heff & _).
    rewrite countFaults_snoc, countHits_snoc, length_app. simpl.
    split_and!; [done|lia|lia|lia|lia| |].
    + apply Forall_app. split; [done|]. repeat constructor; [|done..].
      by rewrite Hfault, Hs, Hfr.
    + intros k s' Hk.
      apply lookup_app_Some in Hk as [Hk|[Hge Hk]]; [by apply Hreset|].
      apply list_lookup_singleton_Some in Hk as [Hk <-].
      rewrite Hrst. f_equal. apply bool_decide_ext. lia.
  - split_and!; [done|lia|done..].
Qed.

Lemma aging_bits_set :
  Forall bitSetAfter (steps (Aging.simulateARB n refString)).
Proof.
  unfold Aging.simulateARB.
  pose proof (aging_loop_ind
    (λ i st,
       0 ≤ i ∧ agingInv n st
       ∧ (0 < i ∨ Aging.arbFramesFilled st = 0)
       ∧ Forall bitSetAfter (steps (Aging.arbResult st)))
    refString 0 (Aging.initARB n)) as Hind.
  destruct Hind as (_ & _ & _ & Hall); [| |done].
  - split_and!; [lia|by apply initARB_agingInv|by right|by constructor].
  - intros i page st Hin (Hi0 & Hinv & Hi & Hall).
    assert (page ≠ -1) as Hpage.
    { eapply Forall_forall in Hpages; [|done]. simpl in Hpages. lia. }
    destruct (aging_step n Hn i page st Hpage Hinv Hi)
      as (Hinv' & _ & s & -> & _ & _ & _ & _ & _ & _ & _ & _ & _ & Hset).
    split_and!; [lia|done|lia|].
    apply Forall_app. split; [done|]. by repeat constructor.
Qed.
End aging_results.

(** C6, with the [resetBits] part for the clock version of [simulateARB]
    only. For every frame count of at least 1 and every sequence of
    non-negative references: in every step of either version of
    [simulateARB] the reference bit of the frame that is loaded or hit is 1
    after the step; and in every step of the clock version the [resetBits]
    flag is set if and only if the step is a fault on a full frame table
    all of whose reference bits were 1 when the sweep started. *)
Theorem arb_reference_bits (frameCount : Z) (refString : list Z)
    (fuel : nat) :
  1 ≤ frameCount → Forall (λ p, 0 ≤ p) refString →
  (Z.to_nat frameCount + 1 ≤ fuel)%nat →
  (∃ r, simulateARB fuel frameCount refString = Some r
        ∧ Forall (λ s, bitSetAfter s ∧ resetIff s) (steps r))
  ∧ Forall bitSetAfter (steps (Aging.simulateARB frameCount refString)).
Proof.
  intros Hfc Hpages Hfuel. split; [|by apply aging_bits_set].
  destruct (simulateARB_spec frameCount Hfc fuel refString Hfuel)
    as (r & Hr & _ & _ & Hprops).
  exists r. split; [done|].
  eapply Forall_impl; [apply Hprops|by intros s (_ & ? & ?)].
  eapply Forall_impl; [done|]. simpl. lia.
Qed.

Lemma arb_reference_bits_witness :
  (∃ r, simulateARB 4%nat 3 [7;0;1;2;0;3;0;4;2;3;0;3;2] = Some r
        ∧ Forall (λ s, bitSetAfter s ∧ resetIff s) (steps r))
  ∧ Forall bitSetAfter
           (steps (Aging.simulateARB 3 [7;0;1;2;0;3;0;4;2;3;0;3;2])).
Proof.
  refine (arb_reference_bits 3 [7;0;1;2;0;3;0;4;2;3;0;3;2] 4%nat _ _ _).
  - lia.
  - repeat (constructor; [lia|]). constructor.
  - simpl. lia.
Defined.

(** C6 as stated fails for the aging version of [simulateARB], in its
    [resetBits] part: on 3 frames and the references 1,2 the second step is
    a fault that fills an empty frame, and its [resetBits] flag is set. *)
Lemma arb_aging_reset_counterexample :
  ∃ s, steps (Aging.simulateARB 3 [1; 2]) !! 1%nat = Some s
       ∧ isFault s = true ∧ frames s = [1; -1; -1]
       ∧ resetBits s = Some true
       ∧ ¬ resetIff s.
Proof.
  eexists. split; [by vm_compute|]. simpl.
  split_and!; [done..|].
  unfold resetIff. simpl. intros [Himp _].
  destruct (Himp eq_refl) as (_ & Hfull & _).
  apply Hfull. right. left.
Qed.

(** X22. In the aging version of ARB, for non-negative references, the bits
    displayed after a step are all 0 but the bit of the frame that holds the
    page referenced: a history of 8 bits shifted right has its high bit
    clear. *)
Theorem aging_displayed_bits (frameCount : Z) (refString : list Z) :
  1 ≤ frameCount → Forall (λ p, 0 ≤ p) refString →
  Forall (onlyBitOfReferenced frameCount)
         (steps (Aging.simulateARB frameCount refString)).
Proof.
  intros Hfc Hpages.
  destruct (aging_loop_spec frameCount Hfc refString Hpages)
    as (_ & _ & _ & _ & Hall & _).
  eapply Forall_impl; [done|]. by intros s (_ & ? & _).
Qed.

Lemma aging_displayed_bits_witness :
  Forall (onlyBitOfReferenced 3) (steps (Aging.simulateARB 3 [1;2;1;3;4])).
Proof.
  apply aging_displayed_bits.
  - lia.
  - repeat constructor; lia.
Defined.

(** X23. The trace of the aging version of ARB, for non-negative
    references: one step for each reference, the totals count the fault and
    the hit steps and add up to the number of references, a step is a fault
    exactly when its page is not in the table, a hit leaves the table
    alone and a fault changes it at the frame replaced only, and the reset
    flag is set on every step but the first. *)
Theorem aging_trace (frameCount : Z) (refString : list Z) :
  1 ≤ frameCount → Forall (λ p, 0 ≤ p) refString →
  length (steps (Aging.simulateARB frameCount refString)) = length refString
  ∧ faults (Aging.simulateARB frameCount refString)
    = countFaults (steps (Aging.simulateARB frameCount refString))
  ∧ hits (Aging.simulateARB frameCount refString)
    = countHits (steps (Aging.simulateARB frameCount refString))
  ∧ faults (Aging.simulateARB frameCount refString)
    + hits (Aging.simulateARB frameCount refString)
    = Z.of_nat (length refString)
  ∧ Forall (λ s, isFault s = bool_decide (reference s ∉ frames s)
                 ∧ frameEffect s)
           (steps (Aging.simulateARB frameCount refString))
  ∧ ∀ (k : nat) s,
      steps (Aging.simulateARB frameCount refString) !! k = Some s →
      resetBits s = Some (bool_decide (0 < k)%nat).
Proof.
  intros Hfc Hpages.
  destruct (aging_loop_spec frameCount Hfc refString Hpages)
    as (_ & Hlen & Hf & Hh & Hall & Hreset).
  split_and!; [done..| | |done].
  - rewrite Hf, Hh, countFaults_countHits. by rewrite Hlen.
  - eapply Forall_impl; [done|]. by intros s (? & _ & ?).
Qed.

Lemma aging_trace_witness :
  faults (Aging.simulateARB 3 [1;2;1;3;4])
  + hits (Aging.simulateARB 3 [1;2;1;3;4])
  = Z.of_nat (length [1;2;1;3;4]).
Proof.
  apply (aging_trace 3 [1;2;1;3;4]).
  - lia.
  - repeat constructor; lia.
Defined.

(** X24. In the aging version of ARB the histories stay numbers of 8 bits:
    after any non-negative references every history is between 0 and 255,
    and each array has as many elements as there are frames. *)
Theorem aging_history_is_8_bit (frameCount : Z) (refString : list Z) :
  1 ≤ frameCount → Forall (λ p, 0 ≤ p) refString →
  Forall (λ h, 0 ≤ h ≤ 255)
         (Aging.arbRefBitHistory
            (Aging.loopARB frameCount 0 refString
               (Aging.initARB frameCount)))
  ∧ Z.of_nat (length (Aging.arbRefBitHistory
                        (Aging.loopARB frameCount 0 refString
                           (Aging.initARB frameCount)))) = frameCount
  ∧ Z.of_nat (length (Aging.arbFrames
                        (Aging.loopARB frameCount 0 refString
                           (Aging.initARB frameCount)))) = frameCount.
Proof.
  intros Hfc Hpages.
  destruct (aging_loop_spec frameCount Hfc refString Hpages)
    as ((Hlf & Hlh & _ & Hrange & _) & _).
  done.
Qed.

Lemma aging_history_is_8_bit_witness :
  Forall (λ h, 0 ≤ h ≤ 255)
         (Aging.arbRefBitHistory
            (Aging.loopARB 3 0 [1;2;1;3;4] (Aging.initARB 3))).
Proof.
  apply (aging_history_is_8_bit 3 [1;2;1;3;4]).
  - lia.
  - repeat constructor; lia.
Defined.

(** X25. The victim search of the aging version returns the first frame
    whose history is the lowest, on histories below
    [Number.MAX_SAFE_INTEGER], one for each of the frames. *)
Theorem aging_victim_is_first_lowest (frameCount : Z) (history : list Z) :
  1 ≤ frameCount → Z.of_nat (length history) = frameCount →
  Forall (λ x, x < 9007199254740991) history →
  ∃ (v : nat) hv,
    Aging.findVictim frameCount history = Z.of_nat v
    ∧ history !! v = Some hv
    ∧ Forall (λ x, hv ≤ x) history
    ∧ ∀ (j : nat) x, (j < v)%nat → history !! j = Some x → hv < x.
Proof. apply findVictim_spec. Qed.

Lemma aging_victim_is_first_lowest_witness :
  ∃ (v : nat) hv,
    Aging.findVictim 3 [128; 64; 64] = Z.of_nat v
    ∧ [128; 64; 64] !! v = Some hv
    ∧ Forall (λ x, hv ≤ x) [128; 64; 64]
    ∧ ∀ (j : nat) x, (j < v)%nat → [128; 64; 64] !! j = Some x → hv < x.
Proof.
  apply aging_victim_is_first_lowest.
  - lia.
  - reflexivity.
  - repeat constructor; lia.
Defined.

(* --------------------------------------------------------------------- *)
(** ** The validators and the disk tab *)
(* --------------------------------------------------------------------- *)

Section validator_outcomes.

Lemma splitSpacesGo_nonempty cur inRun l : JS.splitSpacesGo cur inRun l ≠ [].
Proof.
  revert cur inRun. induction l as [|c l IH]; intros cur inRun; simpl;
    [done|].
  destruct (Ascii.is_space c); [|apply IH].
  destruct inRun; [apply IH|done].
Qed.

Lemma splitCommaGo_nonempty cur l : JS.splitCommaGo cur l ≠ [].
Proof.
  revert cur. induction l as [|c l IH]; intros cur; simpl; [done|].
  destruct (Ascii.eqb c _); [done|apply IH].
Qed.

Lemma parseRequests_nonempty requestsValue requests :
  parseRequests requestsValue = Some <$> requests → requests ≠ [].
Proof.
  unfold parseRequests, JS.splitComma. intros Hparse ->.
  apply fmap_nil_inv in Hparse. by apply splitCommaGo_nonempty in Hparse.
Qed.

(** What an accepted disk input is. *)
Lemma validateDiskInput_accepts cylinders headPosition requestQueue :
  DiskValidation.valid
    (validateDiskInput cylinders headPosition requestQueue) = true →
  ∃ count start requests,
    validateDiskInput cylinders headPosition requestQueue
    = {| DiskValidation.valid := true; DiskValidation.message := "";
         DiskValidation.cylinders := Some count;
         DiskValidation.start := Some start;
         DiskValidation.requestArray := Some requests |}
    ∧ JS.parseInt cylinders = Some count
    ∧ JS.parseInt headPosition = Some start
    ∧ parseRequests (JS.trim requestQueue) = Some <$> requests
    ∧ requests ≠ []
    ∧ validDisk count start requests.
Proof.
  unfold validateDiskInput.
  destruct (JS.parseInt cylinders) as [count|]; [|done].
  destruct (decide (count = 0 ∨ count ≤ 0)); [done|].
  destruct (JS.parseInt headPosition) as [start|]; [|done].
  destruct (decide (start < 0)); [done|].
  destruct (decide (count ≤ start)); [done|].
  destruct (decide (JS.trim requestQueue = ""%string)); [done|].
  destruct (mapM id (parseRequests (JS.trim requestQueue)))
    as [requests|] eqn:Hparse; [|done].
  destruct (existsb _ requests) eqn:Hout; [done|]. intros _.
  apply mapM_id_Some_inv in Hparse.
  exists count, start, requests. split_and!; [done..| |].
  - by eapply parseRequests_nonempty.
  - unfold validDisk. split_and!; [lia..|].
    apply Forall_forall. intros r Hr.
    destruct (decide (0 ≤ r < count)) as [|Hno]; [done|].
    assert (existsb (λ num, bool_decide (num < 0 ∨ count ≤ num)) requests
            = true); [|congruence].
    apply existsb_exists. exists r.
    split; [by apply list_elem_of_In|]. apply bool_decide_eq_true. lia.
Qed.

(** What a rejected disk input is. *)
Lemma validateDiskInput_rejects cylinders headPosition requestQueue :
  DiskValidation.valid
    (validateDiskInput cylinders headPosition requestQueue) = false →
  ∃ msg,
    validateDiskInput cylinders headPosition requestQueue
    = DiskValidation.reject msg
    ∧ msg ≠ ""%string.
Proof.
  unfold validateDiskInput.
  repeat first [case_match | case_decide]; simpl; try done;
    intros _; by eexists.
Qed.
End validator_outcomes.

Section disk_tab_facts.
Import DiskTab.
Implicit Types (st : State) (e : Event).

Lemma init_sound : sound init.
Proof.
  unfold sound. simpl. split_and!; try done.
  all: split; [done|]; by intros [? ?].
Qed.

Lemma handleReset_sound st : sound st → sound (handleReset st).
Proof.
  intros (_ & _ & Hlook & Hcscan). unfold sound. simpl.
  split_and!; try done.
  all: split; [done|]; by intros [? ?].
Qed.

Lemma handleRun_sound st : sound st → sound (handleRun st).
Proof.
  intros Hsound. pose proof Hsound as (Hshow & Hres & Hlook & Hcscan).
  unfold handleRun.
  destruct (DiskValidation.valid _) eqn:Hvalid; simpl; [|done].
  apply validateDiskInput_accepts
    in Hvalid as (count & start & requests & -> & _ & _ & _ & _ & Hvalid).
  simpl.
  pose proof Hvalid as (Hcount & _).
  destruct (sequence_in_range count start requests (initialDirection st)
              Hvalid) as [Hrl Hrc].
  destruct (path_numbers_sequence count start requests (initialDirection st))
    as [Hpl Hpc].
  destruct (seekDistance_bounds count start requests (initialDirection st)
              Hvalid) as [Hbl Hbc].
  unfold sound. destruct (algorithm st); simpl.
  - split_and!; [done| |by intros d c [= <- <-]; lia|done].
    intros r [= <-]. split_and!; (done || lia).
  - split_and!; [done| |done|by intros d c [= <- <-]; lia].
    intros r [= <-]. split_and!; (done || lia).
Qed.

Lemma handle_sound st e : sound st → sound (handle st e).
Proof.
  destruct e; simpl; try done.
  - apply handleRun_sound.
  - apply handleReset_sound.
Qed.
End disk_tab_facts.

(** X26. The disk validator either accepts or rejects with a message. An
    accepted input carries the three numbers parsed from the texts, the
    request queue is not empty, and the cylinder count is positive with the
    head and every request on the disk; a rejected input carries a message
    that is not empty and no numbers. *)
Theorem disk_validator_outcomes
    (cylinders headPosition requestQueue : string) :
  (∃ count start requests,
      validateDiskInput cylinders headPosition requestQueue
      = {| DiskValidation.valid := true; DiskValidation.message := "";
           DiskValidation.cylinders := Some count;
           DiskValidation.start := Some start;
           DiskValidation.requestArray := Some requests |}
      ∧ JS.parseInt cylinders = Some count
      ∧ JS.parseInt headPosition = Some start
      ∧ parseRequests (JS.trim requestQueue) = Some <$> requests
      ∧ requests ≠ []
      ∧ validDisk count start requests)
  ∨ (∃ msg,
        validateDiskInput cylinders headPosition requestQueue
        = DiskValidation.reject msg
        ∧ msg ≠ ""%string).
Proof.
  destruct (DiskValidation.valid
              (validateDiskInput cylinders headPosition requestQueue))
    eqn:Hvalid.
  - left. by apply validateDiskInput_accepts.
  - right. by apply validateDiskInput_rejects.
Qed.

(** X27. Whatever the user does on the disk tab, what it holds is sound:
    results are shown exactly when a result is held; the result held lies
    on a disk of the cylinder count held, which is what the visualization
    is given, its path numbers its sequence and its seek distance is at
    most twice the last cylinder; and the comparison entries hold a seek
    distance of at most twice the last cylinder for LOOK and at most the
    last cylinder for C-SCAN, over a positive cylinder count. *)
Theorem disk_tab_is_sound (events : list DiskTab.Event) :
  DiskTab.sound (DiskTab.session events).
Proof.
  unfold DiskTab.session.
  induction events as [|e events IH] using rev_ind; [apply init_sound|].
  rewrite foldl_snoc. by apply handle_sound.
Qed.

Example disk_tab_session_example :
  let st := DiskTab.session
              [DiskTab.SetTotalCylinders "200"; DiskTab.SetHeadPosition "50";
               DiskTab.SetRequestQueue "82, 170, 43"; DiskTab.Run] in
  DiskTab.showResults st = true
  ∧ DiskTab.cylinderCount st = 200
  ∧ (sequence <$> DiskTab.result st) = Some [50; 82; 170; 43].
Proof. by vm_compute. Qed.

Section memory_validator_outcomes_facts.

Lemma existsb_false_Forall {A} (f : A → bool) (l : list A) :
  existsb f l = false → Forall (λ x, f x = false) l.
Proof.
  induction l as [|x l IH]; simpl; [by constructor|].
  intros [Hx Hl]%orb_false_iff. constructor; [done|by apply IH].
Qed.

Lemma validateMemoryInput_accepts frames referenceString :
  MemoryValidation.valid (validateMemoryInput frames referenceString) = true →
  ∃ fc refs,
    validateMemoryInput frames referenceString
    = {| MemoryValidation.valid := true; MemoryValidation.message := "";
         MemoryValidation.frameCount := Some fc;
         MemoryValidation.refArray := Some refs |}
    ∧ JS.parseInt frames = Some fc ∧ 1 ≤ fc
    ∧ refs = JS.Number <$> JS.splitSpaces (JS.trim referenceString)
    ∧ refs ≠ []
    ∧ Forall (λ v, JS.isNaN v = false ∧ JS.ltZero v = false) refs.
Proof.
  unfold validateMemoryInput.
  destruct (JS.parseInt frames) as [fc|]; [|done].
  destruct (decide (fc = 0 ∨ fc ≤ 0)); [done|].
  destruct (decide (JS.trim referenceString = ""%string)); [done|].
  destruct (existsb JS.isNaN _) eqn:Hnan; [done|].
  destruct (existsb JS.ltZero _) eqn:Hneg; [done|]. intros _.
  eexists _, _. split_and!; [done|done|lia|done| |].
  - intros Hnil%fmap_nil_inv. by apply splitSpacesGo_nonempty in Hnil.
  - apply existsb_false_Forall in Hnan, Hneg.
    apply Forall_and. by split.
Qed.

Lemma validateMemoryInput_rejects frames referenceString :
  MemoryValidation.valid (validateMemoryInput frames referenceString) = false →
  ∃ msg,
    validateMemoryInput frames referenceString = MemoryValidation.reject msg
    ∧ msg ≠ ""%string.
Proof.
  unfold validateMemoryInput.
  repeat first [case_match | case_decide]; simpl; try done;
    intros _; by eexists.
Qed.
End memory_validator_outcomes_facts.

(** X28. The memory validator either accepts or rejects with a message. An
    accepted input carries the frame count parsed from its text, which is
    at least 1, and the numbers read from the pieces of the trimmed
    reference string, of which there is at least one, none of them [NaN]
    and none negative; a rejected input carries a message that is not empty
    and no numbers. *)
Theorem memory_validator_outcomes (frames referenceString : string) :
  (∃ fc refs,
      validateMemoryInput frames referenceString
      = {| MemoryValidation.valid := true; MemoryValidation.message := "";
           MemoryValidation.frameCount := Some fc;
           MemoryValidation.refArray := Some refs |}
      ∧ JS.parseInt frames = Some fc ∧ 1 ≤ fc
      ∧ refs = JS.Number <$> JS.splitSpaces (JS.trim referenceString)
      ∧ refs ≠ []
      ∧ Forall (λ v, JS.isNaN v = false ∧ JS.ltZero v = false) refs)
  ∨ (∃ msg,
        validateMemoryInput frames referenceString
        = MemoryValidation.reject msg
        ∧ msg ≠ ""%string).
Proof.
  destruct (MemoryValidation.valid
              (validateMemoryInput frames referenceString)) eqn:Hvalid.
  - left. by apply validateMemoryInput_accepts.
  - right. by apply validateMemoryInput_rejects.
Qed.

(* --------------------------------------------------------------------- *)
(** ** The marks of the disk visualization *)
(* --------------------------------------------------------------------- *)

Section mark_facts.
Implicit Types (seq pre post : list Z) (dir : bool).

Lemma sorted_adjacent {A} (R : relation A) (l : list A) (i : nat) x y :
  StronglySorted R l → l !! i = Some x → l !! S i = Some y → R x y.
Proof.
  intros Hl. revert i. induction Hl as [|a l Hl IH Ha]; intros i; [done|].
  destruct i as [|i]; simpl.
  - intros [= ->] Hy. eapply Forall_forall in Ha; [done|].
    by eapply list_elem_of_lookup_2.
  - apply IH.
Qed.

Lemma first_pass (P : Z → Prop) `{!∀ i, Decision (P i)} (bound : Z)
    (k : nat) :
  (1 ≤ k)%nat → Z.of_nat k ≤ bound → P (Z.of_nat k) →
  (∀ i : nat, (1 ≤ i < k)%nat → ¬ P (Z.of_nat i)) →
  list_find P (seqZ 1 bound) = Some (pred k, Z.of_nat k).
Proof.
  intros Hk Hbound HP Hfirst. apply list_find_Some. split_and!.
  - apply lookup_seqZ. lia.
  - done.
  - intros j y [-> Hj]%lookup_seqZ Hlt.
    replace (1 + Z.of_nat j) with (Z.of_nat (S j)) by lia.
    apply Hfirst. lia.
Qed.

Lemma none_passes (P : Z → Prop) `{!∀ i, Decision (P i)} (bound : Z) :
  (∀ i : nat, (1 ≤ i)%nat → Z.of_nat i ≤ bound → ¬ P (Z.of_nat i)) →
  list_find P (seqZ 1 bound) = None.
Proof.
  intros Hnone. apply list_find_None, Forall_forall.
  intros i [Hi1 Hi2]%elem_of_seqZ.
  replace i with (Z.of_nat (Z.to_nat i)) by lia. apply Hnone; lia.
Qed.

(** The reads of the tests at an index of at least 1. *)
Lemma reads_at seq (i : nat) :
  (1 ≤ i)%nat →
  arrayGet seq (Z.of_nat i) = seq !! i
  ∧ arrayGet seq (Z.of_nat i - 1) = seq !! pred i
  ∧ arrayGet seq (Z.of_nat i + 1) = seq !! S i.
Proof.
  intros Hi. split_and!.
  - apply arrayGet_nat.
  - replace (Z.of_nat i - 1) with (Z.of_nat (pred i)) by lia.
    apply arrayGet_nat.
  - replace (Z.of_nat i + 1) with (Z.of_nat (S i)) by lia.
    apply arrayGet_nat.
Qed.

Lemma along_adjacent dir seq (i : nat) x y :
  StronglySorted (along dir) seq → (1 ≤ i)%nat →
  seq !! pred i = Some x → seq !! i = Some y →
  if dir then x ≤ y else y ≤ x.
Proof.
  intros Hsorted Hi Hx Hy.
  pose proof (sorted_adjacent (along dir) seq (pred i) x y Hsorted Hx)
    as Hxy.
  replace (S (pred i)) with i in Hxy by lia. specialize (Hxy Hy).
  by destruct dir.
Qed.

(** No jump is marked on a sweep that keeps its direction. *)
Lemma no_jump_when_sorted dir cylinders seq :
  StronglySorted (along dir) seq →
  getDirectionChanges cscan dir cylinders seq = [].
Proof.
  intros Hsorted. unfold getDirectionChanges.
  rewrite none_passes; [done|]. intros i Hi _ Hjump.
  destruct (reads_at seq i Hi) as (Hr & Hrp & _).
  unfold isJump in Hjump. rewrite Hr, Hrp in Hjump.
  destruct (seq !! i) as [y|] eqn:Hy, (seq !! pred i) as [x|] eqn:Hx;
    try (by destruct Hjump as [(_ & ? & _)|(_ & ? & _)]).
  pose proof (along_adjacent dir seq i x y Hsorted Hi Hx Hy) as Hxy.
  destruct Hjump as [(-> & Hlt & _)|(-> & Hlt & _)]; simpl in *; lia.
Qed.

(** No jump is marked on a disk of one or two cylinders. *)
Lemma no_jump_when_small dir cylinders seq :
  cylinders ≤ 2 → Forall (λ x, 0 ≤ x ≤ cylinders - 1) seq →
  getDirectionChanges cscan dir cylinders seq = [].
Proof.
  intros Hsmall Hrange. unfold getDirectionChanges.
  rewrite none_passes; [done|]. intros i Hi _ Hjump.
  destruct (reads_at seq i Hi) as (Hr & Hrp & _).
  unfold isJump in Hjump. rewrite Hr, Hrp in Hjump.
  destruct (seq !! i) as [y|] eqn:Hy, (seq !! pred i) as [x|] eqn:Hx;
    try (by destruct Hjump as [(_ & ? & _)|(_ & ? & _)]).
  eapply Forall_lookup_1 in Hx; [|done]. eapply Forall_lookup_1 in Hy; [|done].
  simpl in Hx, Hy.
  destruct Hjump as [(_ & _ & Hfar)|(_ & _ & Hfar)]; simpl in *; lia.
Qed.

(** The jump is marked where the sweep breaks, when the break is wider than
    half the disk. *)
Lemma jump_found dir cylinders pre post a b :
  StronglySorted (along dir) pre → last pre = Some a → head post = Some b →
  (if dir then cylinders < 2 * (a - b) else cylinders < 2 * (b - a)) →
  0 ≤ cylinders →
  getDirectionChanges cscan dir cylinders (pre ++ post)
  = [(Z.of_nat (length pre), jump)].
Proof.
  intros Hsorted Hlast Hhead Hfar Hc. unfold getDirectionChanges.
  assert (1 ≤ length pre)%nat as Hpre.
  { destruct pre; [done|simpl; lia]. }
  assert (1 ≤ length post)%nat as Hpost.
  { destruct post; [done|simpl; lia]. }
  rewrite (first_pass _ _ (length pre)); [done|lia| | |].
  - rewrite length_app. lia.
  - unfold isJump.
    destruct (reads_at (pre ++ post) (length pre) Hpre) as (-> & -> & _).
    rewrite lookup_app_r, Nat.sub_diag by lia.
    rewrite lookup_app_l by lia.
    rewrite <-head_lookup, Hhead, <-last_lookup, Hlast.
    simpl. destruct dir; [left|right]; split_and!; (done || lia).
  - intros i [Hi Hik] Hjump.
    destruct (reads_at (pre ++ post) i Hi) as (Hr & Hrp & _).
    unfold isJump in Hjump. rewrite Hr, Hrp in Hjump.
    rewrite !lookup_app_l in Hjump by lia.
    destruct (pre !! i) as [y|] eqn:Hy, (pre !! pred i) as [x|] eqn:Hx;
      try (by destruct Hjump as [(_ & ? & _)|(_ & ? & _)]).
    pose proof (along_adjacent dir pre i x y Hsorted Hi Hx Hy) as Hxy.
    destruct Hjump as [(-> & Hlt & _)|(-> & Hlt & _)]; simpl in *; lia.
Qed.

(** No turn is marked on a sequence that only rises or only falls. *)
Lemma no_turn_when_sorted dir dir' cylinders seq :
  StronglySorted (along dir') seq →
  getDirectionChanges look dir cylinders seq = [].
Proof.
  intros Hsorted. unfold getDirectionChanges.
  rewrite none_passes; [done|]. intros i Hi Hbound Hturn.
  destruct (reads_at seq i Hi) as (Hr & Hrp & Hrn).
  unfold isTurn in Hturn. rewrite Hr, Hrp, Hrn in Hturn.
  destruct (seq !! i) as [y|] eqn:Hy, (seq !! pred i) as [x|] eqn:Hx,
    (seq !! S i) as [z|] eqn:Hz;
    try (by destruct Hturn as [(_ & ? & ?)|(_ & ? & ?)]).
  pose proof (along_adjacent dir' seq i x y Hsorted Hi Hx Hy) as Hxy.
  pose proof (along_adjacent dir' seq (S i) y z Hsorted ltac:(lia) Hy Hz)
    as Hyz.
  destruct dir'; destruct Hturn as [(_ & ? & ?)|(_ & ? & ?)];
    simpl in *; lia.
Qed.

(** The turn is marked at the peak of the sequence: the entry that comes
    after a rise (a fall, when the initial direction is down) and before a
    fall (a rise). *)
Lemma turn_found dir cylinders pre post a top b :
  StronglySorted (along dir) (pre ++ [top]) →
  last pre = Some a → head post = Some b →
  (if dir then a < top ∧ b < top else top < a ∧ top < b) →
  getDirectionChanges look dir cylinders (pre ++ top :: post)
  = [(Z.of_nat (length pre), if dir then down else up)].
Proof.
  intros Hsorted Hlast Hhead Hpeak. unfold getDirectionChanges.
  assert (1 ≤ length pre)%nat as Hpre.
  { destruct pre; [done|simpl; lia]. }
  assert (1 ≤ length post)%nat as Hpost.
  { destruct post; [done|simpl; lia]. }
  rewrite (first_pass _ _ (length pre)); [done|lia| | |].
  - rewrite length_app. simpl. lia.
  - unfold isTurn.
    destruct (reads_at (pre ++ top :: post) (length pre) Hpre)
      as (-> & -> & ->).
    rewrite (lookup_app_r _ _ (length pre)), Nat.sub_diag by lia.
    rewrite (lookup_app_r _ _ (S (length pre))) by lia.
    replace (S (length pre) - length pre)%nat with 1%nat by lia.
    rewrite lookup_app_l by lia. simpl.
    rewrite <-head_lookup, Hhead, <-last_lookup, Hlast. simpl.
    destruct dir; [left|right]; split_and!; (done || lia).
  - intros i [Hi Hik] Hturn.
    destruct (reads_at (pre ++ top :: post) i Hi) as (Hr & _ & Hrn).
    unfold isTurn in Hturn. rewrite Hr, Hrn in Hturn.
    rewrite cons_middle, app_assoc in Hturn.
    rewrite !(lookup_app_l (pre ++ [top])) in Hturn
      by (rewrite length_app; simpl; lia).
    destruct ((pre ++ [top]) !! i) as [y|] eqn:Hy,
      ((pre ++ [top]) !! S i) as [z|] eqn:Hz;
      try (by destruct Hturn as [(_ & _ & ?)|(_ & _ & ?)]).
    pose proof (along_adjacent dir (pre ++ [top]) (S i) y z Hsorted
                  ltac:(lia) Hy Hz) as Hyz.
    destruct Hturn as [(-> & _ & ?)|(-> & _ & ?)]; simpl in *; lia.
Qed.
End mark_facts.

Section disk_mark_facts.
Variables (cylinders start : Z) (requests : list Z).

Lemma top_in_range :
  validDisk cylinders start requests →
  start ≤ default start (last (higher start requests)) ≤ cylinders - 1.
Proof.
  intros (Hc & Hs & Hreq). rewrite top_is_max.
  destruct (maxCylinder_spec start requests) as (HM & _ & [->|Hin]); [lia|].
  eapply Forall_forall in Hreq; [|done]. simpl in Hreq. lia.
Qed.

Lemma bottom_in_range :
  validDisk cylinders start requests →
  0 ≤ default start (head (lower start requests)) ≤ start.
Proof.
  intros (Hc & Hs & Hreq). rewrite bottom_is_min.
  destruct (minCylinder_spec start requests) as (Hm & _ & [->|Hin]); [lia|].
  eapply Forall_forall in Hreq; [|done]. simpl in Hreq. lia.
Qed.

Lemma last_start_cons (l : list Z) :
  last (start :: l) = Some (default start (last l)).
Proof. rewrite last_cons. by destruct (last l). Qed.

(** The upward C-SCAN sequence with a request below the start: a rising
    part that ends on the last cylinder, then cylinder 0 and the rest. *)
Lemma cscan_up_split :
  validDisk cylinders start requests → lower start requests ≠ [] →
  ∃ pre, sequence (simulateCSCAN cylinders start requests true)
         = pre ++ 0 :: lower start requests
    ∧ StronglySorted (along true) pre
    ∧ last pre = Some (cylinders - 1).
Proof.
  intros Hvalid Hlo. pose proof (top_in_range Hvalid) as Htop.
  rewrite cscan_sequence. cbv zeta.
  rewrite decide_True by (destruct (lower start requests); [done|simpl; lia]).
  destruct (decide (default start (last (higher start requests))
                    < cylinders - 1)) as [Hlt|Hge].
  - exists ((start :: higher start requests) ++ [cylinders - 1]).
    split_and!; [by rewrite <-!app_assoc| |by rewrite last_snoc].
    apply StronglySorted_app. split_and!.
    + intros x y Hx ->%list_elem_of_singleton. simpl.
      apply elem_of_cons in Hx as [->|Hx%(higher_in_range cylinders)];
        [|lia|done].
      destruct Hvalid as (_ & ? & _). lia.
    + apply start_higher_sorted.
    + repeat constructor.
  - exists (start :: higher start requests).
    split_and!; [done|apply start_higher_sorted|].
    rewrite last_start_cons. f_equal. lia.
Qed.

(** The downward C-SCAN sequence with a request above the start: a falling
    part that ends on cylinder 0, then the last cylinder and the rest. *)
Lemma cscan_down_split :
  validDisk cylinders start requests → higher start requests ≠ [] →
  ∃ pre, sequence (simulateCSCAN cylinders start requests false)
         = pre ++ (cylinders - 1) :: reverse (higher start requests)
    ∧ StronglySorted (along false) pre
    ∧ last pre = Some 0.
Proof.
  intros Hvalid Hhi. pose proof (bottom_in_range Hvalid) as Hbot.
  rewrite cscan_sequence. cbv zeta.
  rewrite decide_True by (destruct (higher start requests); [done|simpl; lia]).
  rewrite last_reverse.
  destruct (decide (0 < default start (head (lower start requests))))
    as [Hlt|Hge].
  - exists ((start :: reverse (lower start requests)) ++ [0]).
    split_and!; [by rewrite <-!app_assoc| |by rewrite last_snoc].
    apply StronglySorted_app. split_and!.
    + intros x y Hx ->%list_elem_of_singleton. simpl. unfold flip.
      apply elem_of_cons
        in Hx as [->|Hx%elem_of_reverse%(lower_in_range cylinders)];
        [|lia|done].
      destruct Hvalid as (_ & ? & _). lia.
    + apply start_reverse_lower_sorted.
    + repeat constructor.
  - exists (start :: reverse (lower start requests)).
    split_and!; [done|apply start_reverse_lower_sorted|].
    rewrite last_start_cons, last_reverse. f_equal. lia.
Qed.

Lemma strictly_sorted (R : relation Z) (l : list Z) :
  StronglySorted R l → NoDup l →
  StronglySorted (λ x y, R x y ∧ x ≠ y) l.
Proof.
  induction 1 as [|x l Hl IH Hx]; intros Hnd; [constructor|].
  apply NoDup_cons in Hnd as [Hnotin Hnd]. constructor; [by apply IH|].
  apply Forall_forall. intros y Hy. split.
  - by eapply Forall_forall in Hx.
  - by intros ->.
Qed.

Lemma NoDup_higher : NoDup requests → NoDup (start :: higher start requests).
Proof.
  intros Hnd. apply NoDup_cons. split.
  - intros [? _]%elem_of_higher. lia.
  - rewrite higher_perm. by apply NoDup_filter.
Qed.

Lemma NoDup_reverse_lower :
  NoDup requests → NoDup (start :: reverse (lower start requests)).
Proof.
  intros Hnd. apply NoDup_cons. split.
  - intros [? _]%elem_of_reverse%elem_of_lower. lia.
  - rewrite reverse_Permutation, lower_perm. by apply NoDup_filter.
Qed.

(** LOOK upward with requests on both sides, all different: the sequence
    rises strictly to the highest request and then falls. *)
Lemma look_up_split :
  NoDup requests → higher start requests ≠ [] → lower start requests ≠ [] →
  ∃ pre a top b post,
    sequence (simulateLOOK cylinders start requests true)
    = pre ++ top :: post
    ∧ StronglySorted (along true) (pre ++ [top])
    ∧ last pre = Some a ∧ head post = Some b ∧ a < top ∧ b < top
    ∧ length pre = length (higher start requests).
Proof.
  intros Hnd Hhi Hlo. rewrite look_sequence.
  destruct (last (higher start requests)) as [top|] eqn:Htop;
    [|by apply last_None in Htop].
  pose proof Htop as Hin%last_Some_elem_of%elem_of_higher.
  apply last_Some in Htop as [hi' Hhi'].
  destruct (head (reverse (lower start requests))) as [b|] eqn:Hb.
  2:{ apply head_None in Hb.
      apply (f_equal reverse) in Hb. by rewrite reverse_involutive in Hb. }
  pose proof Hb as Hbin%head_Some_elem_of%elem_of_reverse%elem_of_lower.
  pose proof (start_higher_sorted start requests) as Hsorted.
  pose proof (strictly_sorted _ _ Hsorted (NoDup_higher Hnd)) as Hstrict.
  rewrite Hhi' in *.
  change (start :: hi' ++ [top]) with ((start :: hi') ++ [top]) in *.
  exists (start :: hi'), (default start (last hi')), top, b,
    (reverse (lower start requests)).
  split_and!; [by rewrite <-app_assoc|done|apply last_start_cons|done
              | |lia|].
  - apply StronglySorted_app in Hstrict as (Hcross & _ & _).
    assert (default start (last hi') ∈ start :: hi') as Ha.
    { apply last_Some_elem_of. apply last_start_cons. }
    destruct (Hcross _ top Ha) as [? ?]; [by apply list_elem_of_singleton|].
    lia.
  - rewrite length_app. simpl. lia.
Qed.

(** LOOK downward with requests on both sides, all different: the sequence
    falls strictly to the lowest request and then rises. *)
Lemma look_down_split :
  NoDup requests → higher start requests ≠ [] → lower start requests ≠ [] →
  ∃ pre a bottom b post,
    sequence (simulateLOOK cylinders start requests false)
    = pre ++ bottom :: post
    ∧ StronglySorted (along false) (pre ++ [bottom])
    ∧ last pre = Some a ∧ head post = Some b ∧ bottom < a ∧ bottom < b
    ∧ length pre = length (lower start requests).
Proof.
  intros Hnd Hhi Hlo. rewrite look_sequence.
  destruct (last (reverse (lower start requests))) as [bottom|] eqn:Hbot.
  2:{ apply last_None in Hbot.
      apply (f_equal reverse) in Hbot.
      by rewrite reverse_involutive in Hbot. }
  pose proof Hbot as Hin%last_Some_elem_of%elem_of_reverse%elem_of_lower.
  apply last_Some in Hbot as [lo' Hlo'].
  destruct (head (higher start requests)) as [b|] eqn:Hb;
    [|by apply head_None in Hb].
  pose proof Hb as Hbin%head_Some_elem_of%elem_of_higher.
  pose proof (start_reverse_lower_sorted start requests) as Hsorted.
  pose proof (strictly_sorted _ _ Hsorted (NoDup_reverse_lower Hnd))
    as Hstrict.
  assert (length (lower start requests) = S (length lo')) as Hlen.
  { rewrite <-length_reverse, Hlo', length_app. simpl. lia. }
  rewrite Hlo' in *.
  change (start :: lo' ++ [bottom]) with ((start :: lo') ++ [bottom]) in *.
  exists (start :: lo'), (default start (last lo')), bottom, b,
    (higher start requests).
  split_and!; [by rewrite <-app_assoc|done|apply last_start_cons|done
              | |lia|by rewrite Hlen].
  apply StronglySorted_app in Hstrict as (Hcross & _ & _).
  assert (default start (last lo') ∈ start :: lo') as Ha.
  { apply last_Some_elem_of. apply last_start_cons. }
  destruct (Hcross _ bottom Ha) as [? ?]; [by apply list_elem_of_singleton|].
  unfold flip in *. lia.
Qed.
End disk_mark_facts.

(** X29. The jump mark of the visualization of C-SCAN, on a validated
    workload. With more than two cylinders and a request on the far side of
    the start, one mark is placed, on the entry of the sequence that
    follows the jump: the entry before it is the last cylinder and the
    entry itself cylinder 0 when the initial direction is up, the reverse
    when it is down. With one or two cylinders, or no request on the far
    side, no mark is placed. *)
Theorem cscan_jump_mark (cylinders start : Z) (requests : list Z)
    (dir : bool) :
  validDisk cylinders start requests →
  let seq := sequence (simulateCSCAN cylinders start requests dir) in
  let wraps := if dir then minCylinder start requests < start
               else start < maxCylinder start requests in
  (2 < cylinders → wraps →
   ∃ k : nat,
     getDirectionChanges cscan dir cylinders seq = [(Z.of_nat k, jump)]
     ∧ (1 ≤ k)%nat
     ∧ seq !! pred k = Some (if dir then cylinders - 1 else 0)
     ∧ seq !! k = Some (if dir then 0 else cylinders - 1))
  ∧ (cylinders ≤ 2 ∨ ¬ wraps →
     getDirectionChanges cscan dir cylinders seq = []).
Proof.
  intros Hvalid. cbv zeta. split.
  - intros Hc Hwraps. destruct dir.
    + apply lower_nonempty_iff in Hwraps.
      destruct (cscan_up_split cylinders start requests Hvalid Hwraps)
        as (pre & -> & Hsorted & Hlast).
      exists (length pre).
      assert (1 ≤ length pre)%nat by (destruct pre; [done|simpl; lia]).
      split_and!; [|done| |].
      * eapply jump_found; [done..|lia|lia].
      * rewrite lookup_app_l by lia. by rewrite <-last_lookup.
      * by rewrite lookup_app_r, Nat.sub_diag by lia.
    + apply higher_nonempty_iff in Hwraps.
      destruct (cscan_down_split cylinders start requests Hvalid Hwraps)
        as (pre & -> & Hsorted & Hlast).
      exists (length pre).
      assert (1 ≤ length pre)%nat by (destruct pre; [done|simpl; lia]).
      split_and!; [|done| |].
      * eapply jump_found; [done..|lia|lia].
      * rewrite lookup_app_l by lia. by rewrite <-last_lookup.
      * by rewrite lookup_app_r, Nat.sub_diag by lia.
  - intros [Hsmall|Hstay].
    + apply no_jump_when_small; [done|].
      by apply sequence_in_range.
    + apply no_jump_when_sorted. rewrite cscan_sequence. cbv zeta.
      destruct dir.
      * assert (lower start requests = []) as ->.
        { destruct (lower start requests) eqn:Hl; [done|].
          destruct Hstay. apply lower_nonempty_iff. by rewrite Hl. }
        rewrite decide_False by (simpl; lia). rewrite app_nil_r.
        apply start_higher_sorted.
      * assert (higher start requests = []) as ->.
        { destruct (higher start requests) eqn:Hl; [done|].
          destruct Hstay. apply higher_nonempty_iff. by rewrite Hl. }
        rewrite decide_False by (simpl; lia). rewrite app_nil_r.
        apply start_reverse_lower_sorted.
Qed.

Lemma cscan_jump_mark_witness :
  getDirectionChanges cscan true 200
    (sequence (simulateCSCAN 200 50 [82;170;43;140;24;16;190] true))
  = [(6, jump)].
Proof.
  destruct (cscan_jump_mark 200 50 [82;170;43;140;24;16;190] true)
    as [Hmark _].
  - unfold validDisk. split; [lia|]. split; [lia|].
    repeat (constructor; [lia|]). constructor.
  - destruct Hmark as (k & -> & _ & _ & Hk); [lia|by vm_compute|].
    do 2 f_equal.
    assert (k = 6%nat) as ->; [|done].
    vm_compute in Hk.
    do 10 (destruct k as [|k]; [simpl in Hk; done|]). done.
Defined.

(** X30. The turn mark of the visualization of LOOK, for requests that are
    all different. With a request on each side of the start, one mark is
    placed, on the last entry of the first sweep (its position is the
    number of requests on the near side), of type down when the initial
    direction is up and of type up when it is down. With no request on one
    of the sides, no mark is placed. *)
Theorem look_turn_mark (cylinders start : Z) (requests : list Z)
    (dir : bool) :
  NoDup requests →
  getDirectionChanges look dir cylinders
    (sequence (simulateLOOK cylinders start requests dir))
  = if decide (minCylinder start requests < start
               ∧ start < maxCylinder start requests)
    then if dir
         then [(Z.of_nat (length (filter (λ r, start < r) requests)), down)]
         else [(Z.of_nat (length (filter (λ r, r < start) requests)), up)]
    else [].
Proof.
  intros Hnd.
  pose proof (lower_nonempty_iff start requests) as Hlo.
  pose proof (higher_nonempty_iff start requests) as Hhi.
  destruct (decide (minCylinder start requests < start
                    ∧ start < maxCylinder start requests))
    as [[Hm HM]|Hone].
  - apply Hlo in Hm. apply Hhi in HM. destruct dir.
    + destruct (look_up_split cylinders start requests Hnd HM Hm)
        as (pre & a & top & b & post & -> & Hsorted & Hlast & Hhead & ? & ?
            & Hlen).
      rewrite <-(Permutation_length (higher_perm start requests)), <-Hlen.
      by eapply turn_found.
    + destruct (look_down_split cylinders start requests Hnd HM Hm)
        as (pre & a & bottom & b & post & -> & Hsorted & Hlast & Hhead & ?
            & ? & Hlen).
      rewrite <-(Permutation_length (lower_perm start requests)), <-Hlen.
      by eapply turn_found.
  - rewrite look_sequence.
    destruct (lower start requests) as [|l ls] eqn:Hl.
    + apply (no_turn_when_sorted dir true).
      destruct dir; simpl; rewrite ?app_nil_r; apply start_higher_sorted.
    + destruct (higher start requests) as [|h hs] eqn:Hh.
      * apply (no_turn_when_sorted dir false). rewrite <-Hl.
        destruct dir; simpl; rewrite ?app_nil_r;
          apply start_reverse_lower_sorted.
      * destruct Hone. split; [apply Hlo|apply Hhi]; congruence.
Qed.

Lemma look_turn_mark_witness :
  getDirectionChanges look true 200
    (sequence (simulateLOOK 200 50 [82;170;43;140;24;16;190] true))
  = [(4, down)].
Proof.
  rewrite (look_turn_mark 200 50 [82;170;43;140;24;16;190] true).
  - reflexivity.
  - compute_done.
Defined.
